(** * vDOM: a shallow embedding of [src/index.ts]

    The program is a virtual DOM written in TypeScript: a [VirtualDOM]
    (the tree) owns two arrays of [VirtualElement]s, and every element
    keeps an array of children, a back pointer to its parent and a pointer
    to the tree that created it.  Objects are mutable and shared, so the
    embedding works over an explicit store: each class instance lives in an
    arena indexed by allocation order, and a reference is an index into it.
    Methods become functions in a state-and-exception monad.  Strings are
    sequences of characters: the code units of JavaScript strings are not
    told apart from the bytes of [string].

    The file has three parts: the program, the vocabulary in which its
    specification is stated, and the proofs.  The statements of the
    specification are the theorems marked C1 to C10; further properties
    of the program, read off its code, are the theorems marked X1 to
    X26. *)

From Stdlib Require Import ZArith Lia Ascii String.
From stdpp Require Import base list strings.

Local Open Scope string_scope.
Local Open Scope list_scope.

(** ** Values and objects *)

(** Identities of the mutable objects of the program. *)
Abbreviation ref := nat (only parsing).   (* a VirtualElement *)
Abbreviation aref := nat (only parsing).  (* an [attributes] record object *)
Abbreviation dref := nat (only parsing).  (* a VirtualDOM *)
Abbreviation fref := nat (only parsing).  (* a callback function *)

(** What an attribute slot can hold.  The declared type is [string], but
    [dataset] can store [undefined] through [setAttribute]. *)
Inductive JsValue : Type :=
| JsUndefined
| JsString (s : string).

#[global] Instance JsValue_eq_dec : EqDecision JsValue.
Proof. solve_decision. Defined.

(** [Record<string,string>]: own enumerable properties in insertion order
    (the order of [for ... in] for keys that are not array indices).
    What the record inherits from [Object.prototype] is accounted for
    where the record is read and written (see [objectPrototypeKeys]). *)
Definition Attributes := list (string * JsValue).

(** class VirtualEvent (the opaque [detail] payload is left out). *)
Record VirtualEvent : Type := mkEvent {
  ev_type : string;
  ev_trusted : bool;
  bubbles : bool;
  defaultPrevented : bool;
  target : option ref;
  isCustom : bool
}.

(** An event listener: a function object (compared by identity) whose
    effect on the event it receives is [cb_run].  Listeners are modelled as
    acting on the event only (they can write any of its public fields). *)
Record Callback : Type := mkCallback {
  cb_id : fref;
  cb_run : VirtualEvent -> VirtualEvent
}.

(** class VirtualElement.  [parent] is [undefined] or [null] when it is
    [None]; the program only ever tests it for truthiness.
    [eventListeners] is a record from event names to arrays of listeners,
    with its own properties only, like [Attributes].  The shadow fields
    are not needed by the operations embedded here. *)
Record VirtualElement : Type := mkElement {
  tagName : string;
  isRemoved : bool;                       (* $isRemoved *)
  attributes : aref;
  children : list ref;
  parent : option ref;
  parentDocument : dref;
  innerText : string;                     (* #innerText *)
  eventListeners : list (string * list Callback)
}.

(** class VirtualDOM.  Its [children] field is called [domChildren] here,
    the name [children] being taken by the element's field. *)
Record VirtualDOM : Type := mkDom {
  directChildren : list ref;
  domChildren : list ref;
  treeChangeListeners : list fref         (* #treeChangeListeners *)
}.

(** One call [c(e, e2)] made by [_notifyTreeChange].  Tree-change listeners
    are external code; the embedding records the calls they receive. *)
Record Notification : Type := mkNotification {
  n_listener : fref;
  n_current : ref;
  n_snapshot : ref
}.

#[global] Instance Notification_eq_dec : EqDecision Notification.
Proof. solve_decision. Defined.

(** What a listener finds when it is called: the objects of the store as
    they are at that moment. *)
Record View : Type := mkView {
  v_heap : list VirtualElement;
  v_attrHeap : list Attributes;
  v_domHeap : list VirtualDOM
}.

(** The store: the objects, the calls made to tree-change listeners so
    far, and, call by call, what the store held when the call was made. *)
Record State : Type := mkState {
  heap : list VirtualElement;
  attrHeap : list Attributes;
  domHeap : list VirtualDOM;
  notifications : list Notification;
  views : list View
}.

Definition emptyState : State := mkState [] [] [] [] [].

Definition viewOf (s : State) : View :=
  mkView (heap s) (attrHeap s) (domHeap s).

(** ** Record updates *)

Definition with_isRemoved (b : bool) (e : VirtualElement) : VirtualElement :=
  mkElement (tagName e) b (attributes e) (children e) (parent e)
            (parentDocument e) (innerText e) (eventListeners e).
Definition with_attributes (a : aref) (e : VirtualElement) : VirtualElement :=
  mkElement (tagName e) (isRemoved e) a (children e) (parent e)
            (parentDocument e) (innerText e) (eventListeners e).
Definition with_children (c : list ref) (e : VirtualElement) : VirtualElement :=
  mkElement (tagName e) (isRemoved e) (attributes e) c (parent e)
            (parentDocument e) (innerText e) (eventListeners e).
Definition with_parent (p : option ref) (e : VirtualElement) : VirtualElement :=
  mkElement (tagName e) (isRemoved e) (attributes e) (children e) p
            (parentDocument e) (innerText e) (eventListeners e).
Definition with_innerText (t : string) (e : VirtualElement) : VirtualElement :=
  mkElement (tagName e) (isRemoved e) (attributes e) (children e) (parent e)
            (parentDocument e) t (eventListeners e).
Definition with_eventListeners (l : list (string * list Callback))
    (e : VirtualElement) : VirtualElement :=
  mkElement (tagName e) (isRemoved e) (attributes e) (children e) (parent e)
            (parentDocument e) (innerText e) l.

Definition with_directChildren (l : list ref) (d : VirtualDOM) : VirtualDOM :=
  mkDom l (domChildren d) (treeChangeListeners d).
Definition with_domChildren (l : list ref) (d : VirtualDOM) : VirtualDOM :=
  mkDom (directChildren d) l (treeChangeListeners d).
Definition with_treeChangeListeners (l : list fref) (d : VirtualDOM) : VirtualDOM :=
  mkDom (directChildren d) (domChildren d) l.

Definition with_heap (h : list VirtualElement) (s : State) : State :=
  mkState h (attrHeap s) (domHeap s) (notifications s) (views s).
Definition with_attrHeap (h : list Attributes) (s : State) : State :=
  mkState (heap s) h (domHeap s) (notifications s) (views s).
Definition with_domHeap (h : list VirtualDOM) (s : State) : State :=
  mkState (heap s) (attrHeap s) h (notifications s) (views s).
Definition with_notifications (l : list Notification) (s : State) : State :=
  mkState (heap s) (attrHeap s) (domHeap s) l (views s).
Definition with_views (l : list View) (s : State) : State :=
  mkState (heap s) (attrHeap s) (domHeap s) (notifications s) l.

(** ** The monad: state, JavaScript exceptions, and model faults *)

(** The [Error]s the program throws, by message, and the [TypeError] the
    runtime raises on a member access on [undefined]. *)
Inductive Error : Type :=
| ElementNotFound      (* 'Element not found.' *)
| CannotFindChild      (* "Cannot find child." *)
| CannotFindOldChild   (* "Cannot find old child." *)
| NoParent             (* "This element has no parent DOM or a parent element. ..." *)
| TypeError.

(** Ways a run of the model can stop that are not a result of the program:
    the recursion budget is exhausted (the program would recurse without
    end), a reference does not denote an allocated object (which cannot
    happen in the program), or the program goes on with a value that
    [JsValue] has no term for (a member of [Object.prototype]). *)
Inductive Fault : Type :=
| OutOfFuel
| Dangling
| Foreign.

Inductive result (A : Type) : Type :=
| Ok (a : A) (s : State)
| Throw (e : Error) (s : State)
| Abort (f : Fault).
Arguments Ok {A} a s.
Arguments Throw {A} e s.
Arguments Abort {A} f.

Definition M (A : Type) : Type := State -> result A.

Definition ret {A} (a : A) : M A := fun s => Ok a s.
Definition bind {A B} (m : M A) (k : A -> M B) : M B :=
  fun s => match m s with
           | Ok a s' => k a s'
           | Throw e s' => Throw e s'
           | Abort f => Abort f
           end.
Definition throw {A} (e : Error) : M A := fun s => Throw e s.
Definition abort {A} (f : Fault) : M A := fun _ => Abort f.

Declare Scope vdom_scope.
Delimit Scope vdom_scope with vdom.
Notation "x <- m ;; k" := (bind m (fun x => k))
  (at level 100, m at next level, right associativity) : vdom_scope.
Notation "m ;;; k" := (bind m (fun _ => k))
  (at level 100, right associativity) : vdom_scope.
Local Open Scope vdom_scope.

(** Writing a field of an object of the store. *)
Definition modElem (r : ref) (f : VirtualElement -> VirtualElement)
    (s : State) : State :=
  with_heap (alter f r (heap s)) s.
Definition modDom (d : dref) (f : VirtualDOM -> VirtualDOM) (s : State) : State :=
  with_domHeap (alter f d (domHeap s)) s.
Definition modAttrs (a : aref) (f : Attributes -> Attributes) (s : State) : State :=
  with_attrHeap (alter f a (attrHeap s)) s.

(** Reading and writing objects of the store, as steps of the monad. *)
Definition getElement (r : ref) : M VirtualElement :=
  fun s => match heap s !! r with
           | Some e => Ok e s
           | None => Abort Dangling
           end.
Definition updElement (r : ref) (f : VirtualElement -> VirtualElement) : M unit :=
  fun s => match heap s !! r with
           | Some _ => Ok tt (modElem r f s)
           | None => Abort Dangling
           end.
Definition getDom (d : dref) : M VirtualDOM :=
  fun s => match domHeap s !! d with
           | Some t => Ok t s
           | None => Abort Dangling
           end.
Definition updDom (d : dref) (f : VirtualDOM -> VirtualDOM) : M unit :=
  fun s => match domHeap s !! d with
           | Some _ => Ok tt (modDom d f s)
           | None => Abort Dangling
           end.
Definition getAttrs (a : aref) : M Attributes :=
  fun s => match attrHeap s !! a with
           | Some o => Ok o s
           | None => Abort Dangling
           end.
Definition updAttrs (a : aref) (f : Attributes -> Attributes) : M unit :=
  fun s => match attrHeap s !! a with
           | Some _ => Ok tt (modAttrs a f s)
           | None => Abort Dangling
           end.

(** ** JavaScript arrays *)

Section Arrays.
Context {A : Type} `{EqDecision A}.

(** [Array.prototype.indexOf]: position of the first occurrence, or -1. *)
Fixpoint indexOf (l : list A) (x : A) : Z :=
  match l with
  | [] => (-1)%Z
  | y :: l' =>
      if decide (y = x) then 0%Z
      else let i := indexOf l' x in
           if (i =? -1)%Z then (-1)%Z else (i + 1)%Z
  end.

(** [Array.prototype.includes]. *)
Definition includes (l : list A) (x : A) : bool := bool_decide (x ∈ l).

(** [Array.prototype.splice(start, deleteCount, ...items)]: a negative
    [start] counts from the end, and the result is clamped to the array. *)
Definition spliceStart (start : Z) (len : nat) : nat :=
  if (start <? 0)%Z then Z.to_nat (Z.max (Z.of_nat len + start) 0)
  else Z.to_nat (Z.min start (Z.of_nat len)).
Definition splice (start : Z) (deleteCount : nat) (items : list A)
    (l : list A) : list A :=
  let s := spliceStart start (length l) in
  take s l ++ items ++ drop (s + deleteCount) l.

(** [arr[i] = v] for [i <= arr.length]: an index inside the array
    overwrites, [arr.length] extends the array by one, and a negative
    [i] sets the property ["-1"], which is not an element.  (The program
    never assigns beyond [arr.length].) *)
Definition arraySet (i : Z) (v : A) (l : list A) : list A :=
  if (i <? 0)%Z then l
  else if (i <? Z.of_nat (length l))%Z then <[Z.to_nat i := v]> l
  else l ++ [v].
End Arrays.

(** [arr.filter(p)] over an array of elements, where [p] reads the store. *)
Fixpoint filterRefs (p : ref -> M bool) (l : list ref) : M (list ref) :=
  match l with
  | [] => ret []
  | r :: l' =>
      b <- p r ;;
      rest <- filterRefs p l' ;;
      ret (if b then r :: rest else rest)
  end.

(** [arr.map(f)] where [f] runs in the monad, left to right. *)
Fixpoint mapRefs {B} (f : ref -> M B) (l : list ref) : M (list B) :=
  match l with
  | [] => ret []
  | r :: l' =>
      b <- f r ;;
      rest <- mapRefs f l' ;;
      ret (b :: rest)
  end.

(** ** Attribute records *)

(** The records [attributes] and [eventListeners] are plain objects: what
    they do not own they inherit from [Object.prototype], whose property
    names are these. *)
Definition objectPrototypeKeys : list string :=
  ["constructor"; "__defineGetter__"; "__defineSetter__"; "hasOwnProperty";
   "__lookupGetter__"; "__lookupSetter__"; "isPrototypeOf";
   "propertyIsEnumerable"; "toString"; "valueOf"; "__proto__";
   "toLocaleString"].
Definition inherited (name : string) : bool :=
  bool_decide (name ∈ objectPrototypeKeys).

(** The value of the own property [name] of [o], [undefined] when there is
    none.  This is [o[name]] for every name but the inherited ones that
    [o] does not own. *)
Fixpoint attrGet (o : Attributes) (name : string) : JsValue :=
  match o with
  | [] => JsUndefined
  | (k, v) :: o' => if decide (k = name) then v else attrGet o' name
  end.

(** [o.hasOwnProperty(name)]. *)
Definition attrHas (o : Attributes) (name : string) : bool :=
  bool_decide (name ∈ o.*1).

(** [o[name]]: the own property if there is one, else the member of
    [Object.prototype] of that name if there is one (a function or an
    object, which no [JsValue] stands for: [None]), else [undefined]. *)
Definition attrRead (o : Attributes) (name : string) : option JsValue :=
  if attrHas o name then Some (attrGet o name)
  else if inherited name then None
  else Some JsUndefined.

(** Writing the own property [name]: an existing key keeps its place, a
    new one goes last. *)
Fixpoint attrDefine (name : string) (value : JsValue) (o : Attributes)
    : Attributes :=
  match o with
  | [] => [(name, value)]
  | (k, v) :: o' =>
      if decide (k = name) then (k, value) :: o'
      else (k, v) :: attrDefine name value o'
  end.

(** Whether [o[name] = value] stores an own property.  It does, except
    that [o["__proto__"] = value] on a record without such an own property
    calls the setter inherited from [Object.prototype], which ignores a
    string or [undefined] and stores nothing. *)
Definition stores (o : Attributes) (name : string) : bool :=
  negb (bool_decide (name = "__proto__")) || attrHas o name.

(** [o[name] = value]. *)
Definition attrSet (name : string) (value : JsValue) (o : Attributes)
    : Attributes :=
  if stores o name then attrDefine name value o else o.

(** [delete o[name]]. *)
Definition attrDelete (name : string) (o : Attributes) : Attributes :=
  List.filter (fun kv => negb (bool_decide (kv.1 = name))) o.

(** [new VirtualElement(tagName, parentDocument)]: the field initialisers
    allocate a fresh attribute record [{class: ""}]. *)
Definition newVirtualElement (tag : string) (d : dref) : M ref :=
  fun s =>
    let r := length (heap s) in
    let a := length (attrHeap s) in
    Ok r (mkState (heap s ++ [mkElement tag false a [] None d "" []])
                  (attrHeap s ++ [[("class", JsString "")]])
                  (domHeap s) (notifications s) (views s)).

(** [new VirtualDOM()]. *)
Definition newVirtualDOM : M dref :=
  fun s => Ok (length (domHeap s))
              (with_domHeap (domHeap s ++ [mkDom [] [] []]) s).

(** [e.tagName === selector], [e.attributes.id === id] and
    [e.attributes.class === className], the three filter predicates. *)
Definition tagIs (selector : string) (r : ref) : M bool :=
  e <- getElement r ;; ret (bool_decide (tagName e = selector)).
Definition attrIs (name value : string) (r : ref) : M bool :=
  e <- getElement r ;;
  o <- getAttrs (attributes e) ;;
  ret (bool_decide (attrGet o name = JsString value)).

(** ** class VirtualDOM *)
Module VirtualDOM.

Definition createElement (this : dref) (tag : string) : M ref :=
  _ <- getDom this ;;
  newVirtualElement tag this.

Definition removeChild (this : dref) (element : ref) : M unit :=
  t <- getDom this ;;
  let index := indexOf (directChildren t) element in
  (if negb (index =? -1)%Z then
     updDom this (with_directChildren (splice index 1 [] (directChildren t)))
   else
     let index2 := indexOf (domChildren t) element in
     if (index2 =? -1)%Z then throw ElementNotFound
     else updDom this (with_domChildren (splice index2 1 [] (domChildren t)))) ;;;
  updElement element (with_isRemoved true).

Definition appendChild (this : dref) (child : ref) : M unit :=
  t <- getDom this ;;
  c <- getElement child ;;
  if isRemoved c then ret tt
  else
    updDom this (with_directChildren (directChildren t ++ [child])) ;;;
    updElement child (with_parent None).

Definition insertBefore (this : dref) (child reference : ref) : M unit :=
  t <- getDom this ;;
  c <- getElement child ;;
  if isRemoved c then ret tt
  else
    let index := indexOf (directChildren t) reference in
    updDom this (with_directChildren (splice index 0 [child] (directChildren t))).

Definition querySelector (this : dref) (selector : string) : M (option ref) :=
  t <- getDom this ;;
  check <- filterRefs (tagIs selector) (directChildren t) ;;
  if (0 <? length check)%nat then ret (check !! 0%nat)
  else
    rest <- filterRefs (tagIs selector) (domChildren t) ;;
    ret (rest !! 0%nat).

Definition querySelectorAll (this : dref) (selector : string) : M (list ref) :=
  t <- getDom this ;;
  check <- filterRefs (tagIs selector) (directChildren t) ;;
  if (0 <? length check)%nat then ret check
  else filterRefs (tagIs selector) (domChildren t).

Definition getElementById (this : dref) (id : string) : M (option ref) :=
  t <- getDom this ;;
  check <- filterRefs (attrIs "id" id) (directChildren t) ;;
  if (0 <? length check)%nat then ret (check !! 0%nat)
  else
    rest <- filterRefs (attrIs "id" id) (domChildren t) ;;
    ret (rest !! 0%nat).

Definition getElementsByClassName (this : dref) (className : string)
    : M (list ref) :=
  t <- getDom this ;;
  check <- filterRefs (attrIs "class" className) (directChildren t) ;;
  if (0 <? length check)%nat then ret check
  else filterRefs (attrIs "class" className) (domChildren t).

Definition replaceChild (this : dref) (child oldChild : ref) : M unit :=
  t <- getDom this ;;
  c <- getElement child ;;
  if isRemoved c then ret tt
  else if includes (directChildren t) oldChild then
    let index := indexOf (directChildren t) oldChild in
    updDom this (with_directChildren (arraySet index child (directChildren t)))
  else if includes (domChildren t) oldChild then
    let index := indexOf (domChildren t) oldChild in
    updDom this (with_domChildren (arraySet index child (domChildren t)))
  else throw CannotFindChild.

(** [this.#treeChangeListeners.forEach((c)=>c(e, e2))].  Each call is
    logged together with the store the listener is called in. *)
Definition _notifyTreeChange (this : dref) (e e2 : ref) : M unit :=
  t <- getDom this ;;
  fun s => Ok tt (with_views
                    (views s ++ map (fun _ => viewOf s) (treeChangeListeners t))
                    (with_notifications
                       (notifications s ++
                        map (fun c => mkNotification c e e2) (treeChangeListeners t))
                       s)).

Definition onTreeChange (this : dref) (callback : fref) : M unit :=
  updDom this (fun t =>
    with_treeChangeListeners (treeChangeListeners t ++ [callback]) t).

End VirtualDOM.

(** [arr.forEach(x => ...)] where the body updates an accumulator. *)
Fixpoint foldRefs {B} (f : B -> ref -> M B) (l : list ref) (acc : B) : M B :=
  match l with
  | [] => ret acc
  | r :: l' => acc' <- f acc r ;; foldRefs f l' acc'
  end.

(** [this.eventListeners[eventName]], [None] for [undefined]. *)
Fixpoint listenersGet (ls : list (string * list Callback)) (name : string)
    : option (list Callback) :=
  match ls with
  | [] => None
  | (k, v) :: ls' => if decide (k = name) then Some v else listenersGet ls' name
  end.

(** [this.eventListeners[eventName] = v]. *)
Fixpoint listenersSet (name : string) (v : list Callback)
    (ls : list (string * list Callback)) : list (string * list Callback) :=
  match ls with
  | [] => [(name, v)]
  | (k, w) :: ls' =>
      if decide (k = name) then (k, v) :: ls'
      else (k, w) :: listenersSet name v ls'
  end.

(** The loop of [dispatchEvent]:
    [for (const callback of ...) { callback(event); if(!event.bubbles) break; }].
    Returns the event as the listeners left it and the listeners that ran. *)
Fixpoint runListeners (cbs : list Callback) (event : VirtualEvent)
    : VirtualEvent * list fref :=
  match cbs with
  | [] => (event, [])
  | cb :: cbs' =>
      let event' := cb_run cb event in
      if negb (bubbles event') then (event', [cb_id cb])
      else let '(ev, ran) := runListeners cbs' event' in (ev, cb_id cb :: ran)
  end.

Definition with_target (t : option ref) (ev : VirtualEvent) : VirtualEvent :=
  mkEvent (ev_type ev) (ev_trusted ev) (bubbles ev) (defaultPrevented ev) t
          (isCustom ev).

(** [new VirtualEvent(name, options)], with the defaults of the constructor:
    [trusted ?? false], [bubbles ?? true]. *)
Definition newVirtualEvent (name : string) (trusted bubbles : option bool)
    : VirtualEvent :=
  mkEvent name (default false trusted) (default true bubbles) false None false.

(** [preventDefault()] and [stopPropagation()] of [VirtualEvent]. *)
Definition preventDefault (ev : VirtualEvent) : VirtualEvent :=
  mkEvent (ev_type ev) (ev_trusted ev) (bubbles ev) true (target ev) (isCustom ev).
Definition stopPropagation (ev : VirtualEvent) : VirtualEvent :=
  mkEvent (ev_type ev) (ev_trusted ev) false (defaultPrevented ev) (target ev)
          (isCustom ev).

(** ** class VirtualElement *)
Module VirtualElement.

(** [getAttribute(name)] returns [this.attributes[name]].  Where that is
    a member of [Object.prototype] the run of the model stops. *)
Definition getAttribute (this : ref) (name : string) : M JsValue :=
  e <- getElement this ;;
  o <- getAttrs (attributes e) ;;
  match attrRead o name with
  | Some v => ret v
  | None => abort Foreign
  end.

(** [hasAttribute(name)] calls [this.attributes.hasOwnProperty(name)]: an
    attribute named [hasOwnProperty] shadows the inherited method, and
    calling a string or [undefined] is a [TypeError]. *)
Definition hasAttribute (this : ref) (name : string) : M bool :=
  e <- getElement this ;;
  o <- getAttrs (attributes e) ;;
  if attrHas o "hasOwnProperty" then throw TypeError
  else ret (attrHas o name).

(** [cloneNode(deep = true)].  The fields of [this] are read once: nothing
    in the body writes to [this].  [setAttributes] stores the very record
    it is given ([self.attributes = attributes]). *)
Fixpoint cloneNode (fuel : nat) (this : ref) (deep : bool) : M ref :=
  match fuel with
  | O => abort OutOfFuel
  | S fuel' =>
      e <- getElement this ;;
      clone <- newVirtualElement (tagName e) (parentDocument e) ;;
      updElement clone (with_attributes (attributes e)) ;;;
      updElement clone (with_parent (parent e)) ;;;
      updElement clone (with_innerText (innerText e)) ;;;
      (if deep then
         cs <- mapRefs (fun c => cloneNode fuel' c true) (children e) ;;
         updElement clone (with_children cs)
       else ret tt) ;;;
      ret clone
  end.

(** [this.parentDocument._notifyTreeChange(this, oldVer)]. *)
Definition notify (this oldVer : ref) : M unit :=
  e <- getElement this ;;
  VirtualDOM._notifyTreeChange (parentDocument e) this oldVer.

Definition setAttribute (fuel : nat) (this : ref) (name : string)
    (value : JsValue) : M unit :=
  oldVer <- cloneNode fuel this true ;;
  e <- getElement this ;;
  updAttrs (attributes e) (attrSet name value) ;;;
  notify this oldVer.

Definition removeAttribute (fuel : nat) (this : ref) (name : string) : M unit :=
  oldVer <- cloneNode fuel this true ;;
  e <- getElement this ;;
  updAttrs (attributes e) (attrDelete name) ;;;
  notify this oldVer.

Definition appendChild (fuel : nat) (this child : ref) : M unit :=
  oldVer <- cloneNode fuel this true ;;
  updElement this (fun e => with_children (children e ++ [child]) e) ;;;
  updElement child (with_parent (Some this)) ;;;
  e <- getElement this ;;
  updDom (parentDocument e)
         (fun t => with_domChildren (domChildren t ++ [child]) t) ;;;
  notify this oldVer.

Definition replaceChild (fuel : nat) (this child oldChild : ref) : M unit :=
  e <- getElement this ;;
  if negb (includes (children e) oldChild) then throw CannotFindOldChild
  else
    oldVer <- cloneNode fuel this true ;;
    updElement this (fun e =>
      with_children (arraySet (indexOf (children e) oldChild) child (children e)) e) ;;;
    updElement child (with_parent (Some this)) ;;;
    e <- getElement this ;;
    updDom (parentDocument e) (fun t =>
      with_domChildren
        (arraySet (indexOf (domChildren t) oldChild) child (domChildren t)) t) ;;;
    notify this oldVer.

Definition append := appendChild.

Definition prepend (fuel : nat) (this element : ref) : M unit :=
  oldVer <- cloneNode fuel this true ;;
  e <- getElement this ;;
  t <- getDom (parentDocument e) ;;
  (if includes (directChildren t) this then
     let index := indexOf (directChildren t) this in
     updDom (parentDocument e)
            (with_directChildren (splice index 0 [element] (directChildren t))) ;;;
     updElement element (with_parent (Some this))
   else
     match parent e with
     | Some p =>
         pe <- getElement p ;;
         let index := indexOf (children pe) this in
         updElement p (with_children (splice index 0 [element] (children pe))) ;;;
         updDom (parentDocument e) (fun t =>
           with_domChildren
             (splice (indexOf (domChildren t) this) 0 [element] (domChildren t)) t)
     | None => throw NoParent
     end) ;;;
  notify this oldVer.

Definition removeChild (fuel : nat) (this child : ref) : M unit :=
  oldVer <- cloneNode fuel this true ;;
  updElement this (fun e =>
    with_children (splice (indexOf (children e) child) 1 [] (children e)) e) ;;;
  updElement child (with_isRemoved true) ;;;
  e <- getElement this ;;
  updDom (parentDocument e) (fun t =>
    with_domChildren
      (splice (indexOf (domChildren t) child) 1 [] (domChildren t)) t) ;;;
  notify this oldVer.

Definition remove (fuel : nat) (this : ref) : M unit :=
  oldVer <- cloneNode fuel this true ;;
  e <- getElement this ;;
  t <- getDom (parentDocument e) ;;
  (if includes (directChildren t) this then
     VirtualDOM.removeChild (parentDocument e) this
   else
     match parent e with
     | Some p => removeChild fuel p this
     | None => updElement this (with_isRemoved true)
     end) ;;;
  notify this oldVer.

(** The closure [r] of the ["*"] branch of [querySelectorAll]:
    [arr.push(c); c.children.forEach(child=>{r(child)})]. *)
Fixpoint visitAll (fuel : nat) (arr : list ref) (c : ref) : M (list ref) :=
  match fuel with
  | O => abort OutOfFuel
  | S fuel' =>
      e <- getElement c ;;
      foldRefs (visitAll fuel') (children e) (arr ++ [c])
  end.

(** In the other branch the closure [r] is built when [check] is empty but
    never called, so [val] is returned as [check]. *)
Definition querySelectorAll (fuel : nat) (this : ref) (selector : string)
    : M (list ref) :=
  e <- getElement this ;;
  if bool_decide (selector = "*") then
    foldRefs (visitAll fuel) (children e) []
  else
    check <- filterRefs (tagIs selector) (children e) ;;
    let val := check in
    ret val.

Definition querySelector (fuel : nat) (this : ref) (selector : string)
    : M (option ref) :=
  l <- querySelectorAll fuel this selector ;;
  ret (l !! 0%nat).

(** [set firstChild(c)]. *)
Definition set_firstChild (fuel : nat) (this c : ref) : M unit :=
  oldVer <- cloneNode fuel this true ;;
  updElement this (fun e => with_children (arraySet 0 c (children e)) e) ;;;
  notify this oldVer.

(** [set lastChild(c)]. *)
Definition set_lastChild (fuel : nat) (this c : ref) : M unit :=
  oldVer <- cloneNode fuel this true ;;
  updElement this (fun e =>
    with_children
      (arraySet (Z.of_nat (length (children e)) - 1) c (children e)) e) ;;;
  notify this oldVer.

(** [set innerText(value)]. *)
Definition set_innerText (fuel : nat) (this : ref) (value : string) : M unit :=
  oldVer <- cloneNode fuel this true ;;
  updElement this (with_innerText value) ;;;
  notify this oldVer.

(** [set textContent(newText)]: [this.innerText = newText]. *)
Definition set_textContent (fuel : nat) (this : ref) (newText : string)
    : M unit :=
  set_innerText fuel this newText.

(** [addEventListener(eventName, callback)].  The guard
    [!this.eventListeners[eventName]] holds when the record has no such
    own property and inherits none: a list of its own and a member of
    [Object.prototype] are both truthy.  [push] on what is not an array
    (no [push] member) is a [TypeError]. *)
Definition addEventListener (this : ref) (eventName : string)
    (callback : Callback) : M unit :=
  e <- getElement this ;;
  (if negb (bool_decide (is_Some (listenersGet (eventListeners e) eventName)))
      && negb (inherited eventName)
   then updElement this (fun e =>
          with_eventListeners (listenersSet eventName [] (eventListeners e)) e)
   else ret tt) ;;;
  e <- getElement this ;;
  match listenersGet (eventListeners e) eventName with
  | Some l =>
      updElement this
        (with_eventListeners (listenersSet eventName (l ++ [callback])
                                           (eventListeners e)))
  | None => throw TypeError
  end.

(** [dispatchEvent(event)].  The event object is passed in and handed
    back together with the identities of the listeners that ran.
    Iterating over [undefined] is a [TypeError]. *)
Definition dispatchEvent (this : ref) (event : VirtualEvent)
    : M (VirtualEvent * list fref) :=
  e <- getElement this ;;
  let event := with_target (Some this) event in
  match listenersGet (eventListeners e) (ev_type event) with
  | Some cbs => ret (runListeners cbs event)
  | None => throw TypeError
  end.

(** [getElementsByTagName(tagName)]. *)
Definition getElementsByTagName (fuel : nat) (this : ref) (tagName : string)
    : M (list ref) :=
  querySelectorAll fuel this tagName.

(** [getElementById(id)] of an element.  Every turn of the [forEach]
    assigns [val]; the [return] in its callback ends that turn only. *)
Fixpoint getElementById (fuel : nat) (this : ref) (id : string)
    : M (option ref) :=
  match fuel with
  | O => abort OutOfFuel
  | S fuel' =>
      e <- getElement this ;;
      found <- filterRefs (attrIs "id" id) (children e) ;;
      match found !! 0%nat with
      | Some val => ret (Some val)
      | None =>
          foldRefs (fun _ child => getElementById fuel' child id)
                   (children e) None
      end
  end.

(** [getElementsByClassName(className)] of an element. *)
Definition getElementsByClassName (this : ref) (className : string)
    : M (list ref) :=
  e <- getElement this ;;
  filterRefs (attrIs "class" className) (children e).

(** [$getElementsByAttribute(attributeName)] and
    [$getElementByAttribute(attributeName)]. *)
Definition getElementsByAttribute (fuel : nat) (this : ref)
    (attributeName : string) : M (list ref) :=
  all <- querySelectorAll fuel this "*" ;;
  filterRefs (fun r => hasAttribute r attributeName) all.

Definition getElementByAttribute (fuel : nat) (this : ref)
    (attributeName : string) : M (option ref) :=
  l <- getElementsByAttribute fuel this attributeName ;;
  ret (l !! 0%nat).

(** [get isConnected()]. *)
Definition isConnected (this : ref) : M bool :=
  e <- getElement this ;; ret (negb (isRemoved e)).

(** [get id()] and [set id(newID)]. *)
Definition get_id (this : ref) : M JsValue := getAttribute this "id".
Definition set_id (fuel : nat) (this : ref) (newID : JsValue) : M unit :=
  setAttribute fuel this "id" newID.

(** [get className()] and [set className(value)]. *)
Definition get_className (this : ref) : M JsValue := getAttribute this "class".
Definition set_className (fuel : nat) (this : ref) (value : JsValue) : M unit :=
  setAttribute fuel this "class" value.

(** [get style()] and [set style(value)]. *)
Definition get_style (this : ref) : M JsValue := getAttribute this "style".
Definition set_style (fuel : nat) (this : ref) (value : JsValue) : M unit :=
  setAttribute fuel this "style" value.

(** [get innerText()] and [get textContent()]. *)
Definition get_innerText (this : ref) : M string :=
  e <- getElement this ;; ret (innerText e).
Definition get_textContent (this : ref) : M string := get_innerText this.

(** [get firstChild()]. *)
Definition get_firstChild (this : ref) : M (option ref) :=
  e <- getElement this ;; ret (children e !! 0%nat).

(** [get nextSibling()].  Without a parent the index is looked up in the
    [children] of the tree and used in its [directChildren]. *)
Definition get_nextSibling (this : ref) : M (option ref) :=
  e <- getElement this ;;
  match parent e with
  | Some p =>
      pe <- getElement p ;;
      ret (children pe !! Z.to_nat (indexOf (children pe) this + 1))
  | None =>
      t <- getDom (parentDocument e) ;;
      ret (directChildren t !! Z.to_nat (indexOf (domChildren t) this + 1))
  end.

(** [removeEventListener(eventName, callback)]; [filter] on [undefined] is
    a [TypeError]. *)
Definition removeEventListener (this : ref) (eventName : string)
    (callback : Callback) : M unit :=
  e <- getElement this ;;
  match listenersGet (eventListeners e) eventName with
  | Some l =>
      updElement this
        (with_eventListeners
           (listenersSet eventName
              (List.filter (fun c => negb (bool_decide (cb_id c = cb_id callback))) l)
              (eventListeners e)))
  | None => throw TypeError
  end.

(** [$on(event, callback)] and [$emit(event)]. *)
Definition on (this : ref) (event : string) (callback : Callback) : M unit :=
  addEventListener this event callback.
Definition emit (this : ref) (event : VirtualEvent)
    : M (VirtualEvent * list fref) :=
  dispatchEvent this event.

(** [click()]: [this.$emit(new VirtualEvent("click", {trusted:false}))]. *)
Definition click (this : ref) : M (VirtualEvent * list fref) :=
  emit this (newVirtualEvent "click" (Some false) None).

(** [$if(condition)]: [!condition && this.remove()]. *)
Definition if_ (fuel : nat) (this : ref) (condition : bool) : M unit :=
  if condition then ret tt else remove fuel this.

End VirtualElement.

(** ** The [dataset] accessor *)

(** Objects whose properties are plain values or accessor pairs, in
    property order. *)
Section Assoc.
Context {V : Type}.

Fixpoint assocGet (o : list (string * V)) (name : string) : option V :=
  match o with
  | [] => None
  | (k, v) :: o' => if decide (k = name) then Some v else assocGet o' name
  end.

Fixpoint assocSet (name : string) (v : V) (o : list (string * V))
    : list (string * V) :=
  match o with
  | [] => [(name, v)]
  | (k, w) :: o' =>
      if decide (k = name) then (k, v) :: o'
      else (k, w) :: assocSet name v o'
  end.
End Assoc.

(** [k.split("-")]. *)
Fixpoint split (sep : Ascii.ascii) (s : string) : list string :=
  match s with
  | EmptyString => [EmptyString]
  | String c s' =>
      if decide (c = sep) then EmptyString :: split sep s'
      else match split sep s' with
           | h :: t => String c h :: t
           | [] => [String c EmptyString]
           end
  end.

(** [ky.slice(5)]. *)
Definition slice5 (ky : string) : string :=
  String.substring 5 (String.length ky - 5) ky.

(** A property of the object that [dataset] builds: a plain value (between
    the assignment [attrs[name] = v] and [Object.defineProperty]; [None]
    stands for a member of [Object.prototype]), or an accessor pair closed
    over the element and the attribute name [ky]. *)
Inductive Property : Type :=
| Data (v : option JsValue)
| Accessor (self : ref) (ky : string).

Definition DatasetObject := list (string * Property).

Section Dataset.
(** [String.prototype.toUpperCase], applied by the program to one-character
    strings only; it is left to the host. *)
Variable toUpperCase : string → string.

(** [term[0].toUpperCase() + term.slice(1)]; [term[0]] is [undefined] for
    the empty string, and the call on it a [TypeError] ([None]). *)
Definition capitalize (term : string) : option string :=
  match term with
  | EmptyString => None
  | String c rest => Some (toUpperCase (String c EmptyString) +:+ rest)
  end.

(** The conversion of a name to camel case: every term but the first is
    capitalized and the terms are joined. *)
Definition camelCase (k : string) : option string :=
  match split "-"%char k with
  | [] => Some EmptyString
  | first :: others =>
      match mapM capitalize others with
      | Some terms => Some (String.concat "" (first :: terms))
      | None => None
      end
  end.

(** One turn of the loop [for (const ky in this.attributes)].
    - When [name] is already an accessor property of [attrs], assigning
      [attrs[name] = v] runs its setter.  [Object.defineProperty] then
      replaces the accessor, which the earlier turn made out of a data
      property and is configurable; only an accessor named [__proto__] was
      defined from nothing, is not configurable, and redefining it is a
      [TypeError].
    - Otherwise the assignment creates a data property, which
      [Object.defineProperty] turns into the accessor at once; only
      [attrs["__proto__"] = v] goes to the setter inherited from
      [Object.prototype] instead, which leaves [attrs] as it is. *)
Definition datasetStep (fuel : nat) (this : ref) (attrs : DatasetObject)
    (ky : string) : M DatasetObject :=
  if String.prefix "data-" ky then
    let k := slice5 ky in
    e <- getElement this ;;
    o <- getAttrs (attributes e) ;;
    let v := attrRead o k in
    match camelCase k with
    | None => throw TypeError
    | Some name =>
        match assocGet attrs name with
        | Some (Accessor self ky0) =>
            match v with
            | Some v => VirtualElement.setAttribute fuel self ky0 v
            | None => abort Foreign
            end ;;;
            if bool_decide (name = "__proto__") then throw TypeError
            else ret (assocSet name (Accessor this ky) attrs)
        | _ =>
            let attrs :=
              if bool_decide (name = "__proto__") then attrs
              else assocSet name (Data v) attrs in
            ret (assocSet name (Accessor this ky) attrs)
        end
    end
  else ret attrs.

Fixpoint datasetLoop (fuel : nat) (this : ref) (keys : list string)
    (attrs : DatasetObject) : M DatasetObject :=
  match keys with
  | [] => ret attrs
  | ky :: keys' =>
      attrs' <- datasetStep fuel this attrs ky ;;
      datasetLoop fuel this keys' attrs'
  end.

(** [get dataset()]. *)
Definition dataset (fuel : nat) (this : ref) : M DatasetObject :=
  e <- getElement this ;;
  o <- getAttrs (attributes e) ;;
  datasetLoop fuel this o.*1 [].

(** Reading and assigning a property of the object [dataset] returned.
    What the object does not own it inherits from [Object.prototype]. *)
Definition datasetGet (attrs : DatasetObject) (name : string) : M JsValue :=
  match assocGet attrs name with
  | Some (Accessor self ky) => VirtualElement.getAttribute self ky
  | Some (Data (Some v)) => ret v
  | Some (Data None) => abort Foreign
  | None => if inherited name then abort Foreign else ret JsUndefined
  end.

Definition datasetAssign (fuel : nat) (attrs : DatasetObject) (name : string)
    (v : JsValue) : M DatasetObject :=
  match assocGet attrs name with
  | Some (Accessor self ky) =>
      VirtualElement.setAttribute fuel self ky v ;;;
      ret attrs
  | _ =>
      if bool_decide (name = "__proto__") then ret attrs
      else ret (assocSet name (Data (Some v)) attrs)
  end.
End Dataset.

(** ** [$makeTree] *)

(** What [$makeTree] collects: elements, and arrays of elements. *)
Inductive TreeItem : Type :=
| Single (el : ref)
| Group (arr : list ref).

(** The closure [r] of [$makeTree]: the children of [el] are gathered in
    [arr], the arrays of their own descendants are pushed on [main] on the
    way, and [arr] is pushed last. *)
Fixpoint makeTree_r (fuel : nat) (main : list TreeItem) (el : ref)
    : M (list TreeItem) :=
  match fuel with
  | O => abort OutOfFuel
  | S fuel' =>
      e <- getElement el ;;
      if negb (0 <? length (children e))%nat then ret main
      else
        both <- foldRefs
                  (fun (st : list TreeItem * list ref) child =>
                     let arr := st.2 ++ [child] in
                     c <- getElement child ;;
                     if (0 <? length (children c))%nat then
                       main' <- makeTree_r fuel' st.1 child ;;
                       ret (main', arr)
                     else ret (st.1, arr))
                  (children e) (main, []) ;;
        ret (both.1 ++ [Group both.2])
  end.

(** [$makeTree()] of a tree, which is also [get $tree()]. *)
Definition makeTree (fuel : nat) (this : dref) : M (list TreeItem) :=
  t <- getDom this ;;
  foldRefs (fun main el =>
              let main := main ++ [Single el] in
              e <- getElement el ;;
              if (0 <? length (children e))%nat then makeTree_r fuel main el
              else ret main)
           (directChildren t) [].

Definition get_tree (fuel : nat) (this : dref) : M (list TreeItem) :=
  makeTree fuel this.

(** ** class classListArray *)

(** [String(v)] as [+] applies it to an operand that is not a string. *)
Definition jsToString (v : JsValue) : string :=
  match v with
  | JsString s => s
  | JsUndefined => "undefined"
  end.

(** [s.replace(pattern, "")] for a string [pattern]: the first occurrence
    of [pattern] is cut out. *)
Fixpoint cutFirst (pattern s : string) : string :=
  if String.prefix pattern s then
    String.substring (String.length pattern)
                     (String.length s - String.length pattern) s
  else match s with
       | EmptyString => EmptyString
       | String c s' => String c (cutFirst pattern s')
       end.

(** An instance: the class names it was built with and the element it
    writes to. *)
Record classListArray : Type := mkClassList {
  classNames : list string;
  parentElement : ref
}.

(** [get classList()] of an element:
    [new classListArray(this.attributes.class?.split(" "), this)], where
    the constructor takes [[]] when it is handed [undefined]. *)
Definition get_classList (this : ref) : M classListArray :=
  e <- getElement this ;;
  o <- getAttrs (attributes e) ;;
  ret (mkClassList
         (match attrGet o "class" with
          | JsString c => split " "%char c
          | JsUndefined => []
          end)
         this).

Module classListArray.
Section Methods.
(** [String.prototype.trimStart], left to the host. *)
Variable trimStart : string → string.

Definition add (fuel : nat) (this : classListArray) (classes : string) : M unit :=
  e <- getElement (parentElement this) ;;
  o <- getAttrs (attributes e) ;;
  VirtualElement.setAttribute fuel (parentElement this) "class"
    (JsString (jsToString (attrGet o "class") +:+ " " +:+ classes)) ;;;
  c <- VirtualElement.getAttribute (parentElement this) "class" ;;
  match c with
  | JsString c =>
      VirtualElement.setAttribute fuel (parentElement this) "class"
        (JsString (trimStart c))
  | JsUndefined => throw TypeError
  end.

Definition remove (fuel : nat) (this : classListArray) (classes : string)
    : M unit :=
  e <- getElement (parentElement this) ;;
  o <- getAttrs (attributes e) ;;
  match attrGet o "class" with
  | JsString c =>
      VirtualElement.setAttribute fuel (parentElement this) "class"
        (JsString (cutFirst classes c)) ;;;
      c <- VirtualElement.getAttribute (parentElement this) "class" ;;
      match c with
      | JsString c =>
          VirtualElement.setAttribute fuel (parentElement this) "class"
            (JsString (trimStart c))
      | JsUndefined => throw TypeError
      end
  | JsUndefined => throw TypeError
  end.

Definition includes (this : classListArray) (className : string) : bool :=
  bool_decide (className ∈ classNames this).

Definition toggle (fuel : nat) (this : classListArray) (className : string)
    : M unit :=
  if includes this className then remove fuel this className
  else add fuel this className.

Definition toString (this : classListArray) : string :=
  String.concat " " (classNames this).

Definition entries (this : classListArray) : list string := classNames this.

(** [item(item)]: [this.classNames[this.classNames.indexOf(item)]]. *)
Definition item (this : classListArray) (item : string) : option string :=
  if (indexOf (classNames this) item <? 0)%Z then None
  else classNames this !! Z.to_nat (indexOf (classNames this) item).

Definition length (this : classListArray) : nat :=
  List.length (classNames this).
End Methods.
End classListArray.

(** * Specification *)

(** ** Arrays *)

(** [i] is the position of the first occurrence of [x] in [l]. *)
Definition firstAt {A} (l : list A) (x : A) (i : nat) : Prop :=
  l !! i = Some x ∧ ∀ j, (j < i)%nat → l !! j ≠ Some x.

(** [l] with [x] put in front of position [i]. *)
Definition insertAt {A} (i : nat) (x : A) (l : list A) : list A :=
  take i l ++ x :: drop i l.

(** ** Well-formed stores *)

(** Every reference kept in an object denotes an allocated object.  The
    program can only build such stores; the predicate rules out the
    [Dangling] fault of the model. *)
Definition validElem (s : State) (r : ref) : Prop := (r < length (heap s))%nat.

Definition wfElement (s : State) (e : VirtualElement) : Prop :=
  (attributes e < length (attrHeap s))%nat ∧
  (parentDocument e < length (domHeap s))%nat ∧
  Forall (validElem s) (children e) ∧
  from_option (validElem s) True (parent e).

Definition wfDom (s : State) (t : VirtualDOM) : Prop :=
  Forall (validElem s) (directChildren t) ∧ Forall (validElem s) (domChildren t).

Definition wfState (s : State) : Prop :=
  Forall (wfElement s) (heap s) ∧ Forall (wfDom s) (domHeap s).

#[global] Instance validElem_dec s r : Decision (validElem s r).
Proof. unfold validElem. apply _. Defined.
#[global] Instance wfElement_dec s e : Decision (wfElement s e).
Proof. unfold wfElement. destruct (parent e); simpl; apply _. Defined.
#[global] Instance wfDom_dec s t : Decision (wfDom s t).
Proof. unfold wfDom. apply _. Defined.
#[global] Instance wfState_dec s : Decision (wfState s).
Proof. unfold wfState. apply _. Defined.

(** The state a program leaves behind when run from the empty store. *)
Definition stateAfter {A} (m : M A) : State :=
  match m emptyState with
  | Ok _ s => s
  | Throw _ s => s
  | Abort _ => emptyState
  end.

(** ** Tree lookups *)

(** The filter predicates, read off a fixed store. *)
Definition hasTag (s : State) (selector : string) (r : ref) : bool :=
  match heap s !! r with
  | Some e => bool_decide (tagName e = selector)
  | None => false
  end.

Definition hasAttrValue (s : State) (name value : string) (r : ref) : bool :=
  match heap s !! r with
  | Some e =>
      match attrHeap s !! attributes e with
      | Some o => bool_decide (attrGet o name = JsString value)
      | None => false
      end
  | None => false
  end.

(** The two-tier search: the matches among [top], or, when there are none,
    the matches among [deep]. *)
Definition twoTier (p : ref → bool) (top deep : list ref) : list ref :=
  match List.filter p top with
  | [] => List.filter p deep
  | found => found
  end.

(** [result] is what a two-tier search for [p] yields: the matches of the
    top tier alone as soon as there is one, those of the deep tier alone
    otherwise. *)
Definition tiered (p : ref → bool) (top deep result : list ref) : Prop :=
  (List.filter p top ≠ [] → result = List.filter p top) ∧
  (List.filter p top = [] → result = List.filter p deep).

(** ** Tree-level structural operations *)

(** [m] comes back (normally or with a thrown error) without having called
    a tree-change listener. *)
Definition silent (m : M unit) (s : State) : Prop :=
  ∃ s', (m s = Ok tt s' ∨ ∃ e, m s = Throw e s') ∧
        notifications s' = notifications s.

(** C5, as the specification states its second case: when [reference] is
    not among the top-level nodes, a node that is not removed ends up at
    position 0. *)
Definition insertBefore_absent_goes_first : Prop :=
  ∀ s d t child c reference,
    domHeap s !! d = Some t → heap s !! child = Some c →
    isRemoved c = false → reference ∉ directChildren t →
    ∃ s' t', VirtualDOM.insertBefore d child reference s = Ok tt s' ∧
             domHeap s' !! d = Some t' ∧
             directChildren t' = child :: directChildren t.

(** A tree with top-level nodes 0 and 1, and two more nodes 2 and 3 that
    were created but not inserted. *)
Definition twoTopLevel : State :=
  stateAfter (
    d <- newVirtualDOM ;;
    a <- VirtualDOM.createElement d "a" ;;
    b <- VirtualDOM.createElement d "b" ;;
    _ <- VirtualDOM.createElement d "n" ;;
    _ <- VirtualDOM.createElement d "r" ;;
    VirtualDOM.appendChild d a ;;;
    VirtualDOM.appendChild d b).

(** ** Element queries *)

(** The descendants of a node as a finite tree, when the children links
    below it form one. *)
#[local] Unset Elimination Schemes.
Inductive Tree : Type := Node (r : ref) (kids : list Tree).
#[local] Set Elimination Schemes.

Fixpoint preorder (t : Tree) : list ref :=
  match t with
  | Node r kids => r :: flat_map preorder kids
  end.

(** The tree of height at most [depth] hanging from [r] in the store. *)
Fixpoint shape (s : State) (depth : nat) (r : ref) : option Tree :=
  match depth with
  | O => None
  | S depth' =>
      match heap s !! r with
      | Some e =>
          match mapM (shape s depth') (children e) with
          | Some kids => Some (Node r kids)
          | None => None
          end
      | None => None
      end
  end.

(** ** Events *)

(** The event after the first [k] listeners of [cbs] ran on it, in order. *)
Definition eventAfter (cbs : list Callback) (ev : VirtualEvent) (k : nat)
    : VirtualEvent :=
  foldl (λ ev cb, cb_run cb ev) ev (take k cbs).

(** ** The [dataset] accessor *)

(** An entry of the object under construction is a live accessor for one
    of the [data-] keys being enumerated. *)
Definition liveProperty (toUpperCase : string → string) (this : ref)
    (keys : list string) (entry : string * Property) : Prop :=
  ∃ ky, entry.2 = Accessor this ky ∧ ky ∈ keys ∧
        String.prefix "data-" ky = true ∧
        camelCase toUpperCase (slice5 ky) = Some entry.1.

(** The scenario of the specification: a button, [data-test] set to
    ["test"], [dataset.test] read, then assigned ["x"], and the attribute
    read back. *)
Definition datasetScenario (toUpperCase : string → string)
    : M (JsValue * JsValue) :=
  d <- newVirtualDOM ;;
  button <- VirtualDOM.createElement d "button" ;;
  VirtualElement.setAttribute 1 button "data-test" (JsString "test") ;;;
  attrs <- dataset toUpperCase 1 button ;;
  before <- datasetGet attrs "test" ;;
  attrs' <- dataset toUpperCase 1 button ;;
  _ <- datasetAssign 1 attrs' "test" (JsString "x") ;;
  after <- VirtualElement.getAttribute button "data-test" ;;
  ret (before, after).

(** The keys the loop acts on. *)
Definition dataKeys (keys : list string) : list string :=
  List.filter (String.prefix "data-") keys.

(** ** Cloning *)

(** [s'] is [s] with more objects allocated: nothing that existed changed,
    no tree changed and no listener was called. *)
Definition extends (s s' : State) : Prop :=
  heap s `prefix_of` heap s' ∧ attrHeap s `prefix_of` attrHeap s' ∧
  domHeap s' = domHeap s ∧ notifications s' = notifications s ∧
  views s' = views s.

(** Node [m] of [s'] is a snapshot of node [n] of [s]: an object allocated
    at or after [lo] with the tag, text and parent of [n], whose children
    are, in order, snapshots of the children of [n]. *)
Fixpoint snapshotOf (lo depth : nat) (s : State) (n : ref) (s' : State)
    (m : ref) : Prop :=
  match depth with
  | O => False
  | S d =>
      ∃ e e', heap s !! n = Some e ∧ heap s' !! m = Some e' ∧ (lo ≤ m)%nat ∧
              tagName e' = tagName e ∧ innerText e' = innerText e ∧
              parent e' = parent e ∧
              Forall2 (λ c c', snapshotOf lo d s c s' c') (children e) (children e')
  end.

(** The clone as [cloneNode] has it before it turns to the children. *)
Definition cloneHeader (e : VirtualElement) : VirtualElement :=
  mkElement (tagName e) false (attributes e) [] (parent e) (parentDocument e)
            (innerText e) [].

Definition withHeader (e : VirtualElement) (s : State) : State :=
  mkState (heap s ++ [cloneHeader e])
          (attrHeap s ++ [[("class", JsString "")]])
          (domHeap s) (notifications s) (views s).

(** What a call of [cloneNode] achieves, for a given recursion budget. *)
Definition cloneSpec (fuel : nat) : Prop :=
  ∀ s n t, wfState s → shape s fuel n = Some t →
    ∃ s', VirtualElement.cloneNode fuel n true s = Ok (length (heap s)) s' ∧
          extends s s' ∧ wfState s' ∧
          (length (heap s) < length (heap s'))%nat ∧
          snapshotOf (length (heap s)) fuel s n s' (length (heap s)).

(** ** Notifications and owning trees *)

(** The listeners of tree [d], and the store after [_notifyTreeChange(e, e2)]
    on it. *)
Definition listenersOf (s : State) (d : dref) : list fref :=
  match domHeap s !! d with
  | Some t => treeChangeListeners t
  | None => []
  end.

Definition deliveries (s : State) (d : dref) (e e2 : ref) : list Notification :=
  map (λ c, mkNotification c e e2) (listenersOf s d).

Definition delivered (d : dref) (e e2 : ref) (s : State) : State :=
  with_views (views s ++ map (λ _, viewOf s) (listenersOf s d))
    (with_notifications (notifications s ++ deliveries s d e e2) s).

(** The tree of a node, which no write of the program changes. *)
Definition docOf (s : State) (r : ref) : option dref :=
  parentDocument <$> heap s !! r.

(** Writes through the setters of this file leave [parentDocument] alone. *)
Definition keepsDoc (f : VirtualElement → VirtualElement) : Prop :=
  ∀ e, parentDocument (f e) = parentDocument e.

(** The listeners of a tree under the writes. *)
Definition keepsListeners (f : VirtualDOM → VirtualDOM) : Prop :=
  ∀ t, treeChangeListeners (f t) = treeChangeListeners t.

(** [s1] is the store right after [cloneNode] ran on [this] in [s]: the
    snapshot is the first object allocated. *)
Definition cloned (fuel : nat) (s : State) (this : ref) (s1 : State) : Prop :=
  VirtualElement.cloneNode fuel this true s = Ok (length (heap s)) s1 ∧
  extends s s1 ∧ wfState s1 ∧ (length (heap s) < length (heap s1))%nat ∧
  snapshotOf (length (heap s)) fuel s this s1 (length (heap s)).

(** ** Reading fields off a store *)

Definition fieldOf {A} (π : VirtualElement → A) (s : State) (r : ref) : option A :=
  π <$> heap s !! r.

Definition domField {A} (π : VirtualDOM → A) (s : State) (d : dref) : option A :=
  π <$> domHeap s !! d.

(** ** [removeChild] and [replaceChild] *)

(** C4, as the specification states it for [replaceChild] of a tree: the
    call throws exactly when [oldChild] is in neither array. *)
Definition dom_replaceChild_throws_iff_absent : Prop :=
  ∀ s d t child c oldChild,
    domHeap s !! d = Some t → heap s !! child = Some c →
    ((oldChild ∉ directChildren t) ∧ (oldChild ∉ domChildren t)) ↔
    (∃ err s', VirtualDOM.replaceChild d child oldChild s = Throw err s').

(** A tree with one top-level node 0, a node 1 that [remove] has already
    marked as removed, and a node 2 that was created and not inserted. *)
Definition oneTopOneRemoved : State :=
  stateAfter (
    d <- newVirtualDOM ;;
    a <- VirtualDOM.createElement d "a" ;;
    n <- VirtualDOM.createElement d "n" ;;
    _ <- VirtualDOM.createElement d "o" ;;
    VirtualDOM.appendChild d a ;;;
    VirtualElement.remove 1 n).

(** ** Snapshots share the attribute record *)

(** A node is cloned; an attribute is set through the clone and read
    through the original, then the other way round. *)
Definition cloneAliasScenario : M (JsValue * JsValue * option nat * option nat) :=
  d <- newVirtualDOM ;;
  n <- VirtualDOM.createElement d "div" ;;
  clone <- VirtualElement.cloneNode 1 n true ;;
  VirtualElement.setAttribute 1 clone "id" (JsString "x") ;;;
  onOriginal <- VirtualElement.getAttribute n "id" ;;
  VirtualElement.setAttribute 1 n "title" (JsString "t") ;;;
  onClone <- VirtualElement.getAttribute clone "title" ;;
  fun s => Ok (onOriginal, onClone, fieldOf attributes s n,
               fieldOf attributes s clone) s.

(** ** The mutation protocol *)

(** The mutating operations of an element. *)
Inductive Mutation : Type :=
| SetAttribute (name : string) (value : JsValue)
| RemoveAttribute (name : string)
| AppendChild (child : ref)
| ReplaceChild (child oldChild : ref)
| Prepend (element : ref)
| Remove
| RemoveChild (child : ref)
| SetFirstChild (c : ref)
| SetLastChild (c : ref)
| SetInnerText (value : string)
| SetTextContent (newText : string).

Definition mutate (fuel : nat) (this : ref) (m : Mutation) : M unit :=
  match m with
  | SetAttribute name value => VirtualElement.setAttribute fuel this name value
  | RemoveAttribute name => VirtualElement.removeAttribute fuel this name
  | AppendChild child => VirtualElement.appendChild fuel this child
  | ReplaceChild child oldChild => VirtualElement.replaceChild fuel this child oldChild
  | Prepend element => VirtualElement.prepend fuel this element
  | Remove => VirtualElement.remove fuel this
  | RemoveChild child => VirtualElement.removeChild fuel this child
  | SetFirstChild c => VirtualElement.set_firstChild fuel this c
  | SetLastChild c => VirtualElement.set_lastChild fuel this c
  | SetInnerText value => VirtualElement.set_innerText fuel this value
  | SetTextContent newText => VirtualElement.set_textContent fuel this newText
  end.

(** The element a mutation is given, if any. *)
Definition argOf (m : Mutation) : option ref :=
  match m with
  | AppendChild c | ReplaceChild c _ | Prepend c | RemoveChild c
  | SetFirstChild c | SetLastChild c => Some c
  | _ => None
  end.

(** The calls one notification [(e, e2)] amounts to, for listeners [ls]. *)
Definition callsFor (ls : list fref) (e e2 : ref) : list Notification :=
  map (λ c, mkNotification c e e2) ls.

(** The guards of the mutations: the error a call meets before it
    notifies anybody, if any.  [replaceChild] throws when [oldChild] is
    not among the children of the node, [prepend] when the node is neither
    top-level nor has a parent. *)
Definition refusal (this : ref) (e : VirtualElement) (t : VirtualDOM)
    (m : Mutation) : option Error :=
  match m with
  | ReplaceChild _ oldChild =>
      if includes (children e) oldChild then None else Some CannotFindOldChild
  | Prepend _ =>
      if includes (directChildren t) this then None
      else match parent e with
           | Some _ => None
           | None => Some NoParent
           end
  | _ => None
  end.

(** C1, as the specification states it: every mutation comes back having
    called each listener of the tree once, with the node and a snapshot. *)
Definition notifies_exactly_once : Prop :=
  ∀ fuel s this e t tr m,
    wfState s → heap s !! this = Some e →
    domHeap s !! parentDocument e = Some t →
    shape s fuel this = Some tr →
    from_option (validElem s) True (argOf m) →
    ∃ s' snap, mutate fuel this m s = Ok tt s' ∧
               notifications s' = notifications s
                                  ++ callsFor (treeChangeListeners t) this snap.

(** A tree with listener 7, a top-level node 0 and its child 1. *)
Definition parentAndChild : State :=
  stateAfter (
    d <- newVirtualDOM ;;
    VirtualDOM.onTreeChange d 7%nat ;;;
    p <- VirtualDOM.createElement d "div" ;;
    c <- VirtualDOM.createElement d "span" ;;
    VirtualDOM.appendChild d p ;;;
    VirtualElement.appendChild 2 p c).

(** [s'] has, from [lo] on, the objects [s1] has there. *)
Definition frameFrom (lo : nat) (s1 s' : State) : Prop :=
  ∀ i, (lo ≤ i)%nat → (i < length (heap s1))%nat → heap s' !! i = heap s1 !! i.

(** ** The three states of a node *)

(** The nodes that have [n] among their children, in allocation order. *)
Definition parentsOf (s : State) (n : ref) : list ref :=
  (filter (λ qe : nat * VirtualElement, n ∈ children qe.2)
          (imap pair (heap s))).*1.

(** Node [n], of record [e], hangs under its parent: the node its [parent]
    field names is the one node that has [n] among its children. *)
Definition underParent (s : State) (n : ref) (e : VirtualElement) : Prop :=
  match parent e with
  | Some p => parentsOf s n = [p]
  | None => False
  end.

(** The states of node [n], read off the store, its record [e] and the
    record [t] of its tree: top-level is being in [directChildren] with no
    parent, attached is being in [children] (the flattened index) and
    hanging under the parent, and the third state is being in neither
    array. *)
Definition isTopLevel (n : ref) (e : VirtualElement) (t : VirtualDOM) : Prop :=
  n ∈ directChildren t ∧ parent e = None.
Definition isAttached (s : State) (n : ref) (e : VirtualElement)
    (t : VirtualDOM) : Prop :=
  n ∈ domChildren t ∧ underParent s n e.
Definition isUnregistered (n : ref) (e : VirtualElement) (t : VirtualDOM) : Prop :=
  (n ∉ directChildren t) ∧ (n ∉ domChildren t).

Definition inOneState (s : State) (n : ref) (e : VirtualElement)
    (t : VirtualDOM) : Prop :=
  (isTopLevel n e t ∧ ¬ isAttached s n e t ∧ ¬ isUnregistered n e t) ∨
  (¬ isTopLevel n e t ∧ isAttached s n e t ∧ ¬ isUnregistered n e t) ∨
  (¬ isTopLevel n e t ∧ ¬ isAttached s n e t ∧ isUnregistered n e t).

#[global] Instance underParent_dec s n e : Decision (underParent s n e).
Proof. unfold underParent. destruct (parent e); apply _. Defined.

#[global] Instance inOneState_dec s n e t : Decision (inOneState s n e t).
Proof. unfold inOneState, isTopLevel, isAttached, isUnregistered. apply _. Defined.

(** Every node of the store is in exactly one of the three states with
    respect to its own tree. *)
Definition threeStates (s : State) : Prop :=
  Forall (λ ne : nat * VirtualElement,
            match domHeap s !! parentDocument ne.2 with
            | Some t => inOneState s ne.1 ne.2 t
            | None => True
            end)
         (imap pair (heap s)).

#[global] Instance threeStates_dec s : Decision (threeStates s).
Proof.
  unfold threeStates. apply Forall_dec. intros [n e]. simpl.
  destruct (domHeap s !! parentDocument e); apply _.
Defined.

(** A tree with top-level node 0, its child 1, and a node 2 that was created
    and not inserted (node 3 is the snapshot [appendChild] took). *)
Definition parentChildAndFresh : State :=
  stateAfter (
    d <- newVirtualDOM ;;
    p <- VirtualDOM.createElement d "div" ;;
    c <- VirtualDOM.createElement d "span" ;;
    _ <- VirtualDOM.createElement d "em" ;;
    VirtualDOM.appendChild d p ;;;
    VirtualElement.appendChild 2 p c).

(** *** Steps that keep the states *)

(** The nodes that were in [s] kept their tree and, unless moved, their
    parent. *)
Definition linksKept (s : State) (moved : list nat) (S : State) : Prop :=
  ∀ n e', heap S !! n = Some e' → (n < length (heap s))%nat →
    ∃ e, heap s !! n = Some e ∧ parentDocument e' = parentDocument e ∧
         (n ∉ moved → parent e' = parent e).

(** Unless moved, they are among the children of the nodes they were
    among the children of. *)
Definition kidsKept (s : State) (moved : list nat) (S : State) : Prop :=
  ∀ n, n ∉ moved → (n < length (heap s))%nat →
    ∀ q, q ∈ parentsOf S n ↔ q ∈ parentsOf s n.

(** The arrays of the other trees are as they were, and so is membership
    in the arrays of [d] for every node that is neither moved nor
    dropped. *)
Definition arraysKept (s : State) (d : dref) (moved dropped : list nat)
    (S : State) : Prop :=
  ∀ dd t', domHeap S !! dd = Some t' →
    ∃ t0, domHeap s !! dd = Some t0 ∧
          (dd ≠ d → directChildren t' = directChildren t0 ∧
                    domChildren t' = domChildren t0) ∧
          ∀ n, n ∉ moved → n ∉ dropped →
               (n ∈ directChildren t' ↔ n ∈ directChildren t0) ∧
               (n ∈ domChildren t' ↔ n ∈ domChildren t0).



(** *** The structural operations *)




























(** ** Concrete stores *)

(** The record of node [n], of tree [d], and the shape below [n], in a
    store where they exist. *)
Definition nodeOf (s : State) (n : ref) : VirtualElement :=
  default (mkElement "" false 0%nat [] None 0%nat "" []) (heap s !! n).
Definition domOf (s : State) (d : dref) : VirtualDOM :=
  default (mkDom [] [] []) (domHeap s !! d).
Definition treeAt (s : State) (fuel : nat) (n : ref) : Tree :=
  default (Node 0%nat []) (shape s fuel n).
Definition attrsOf (s : State) (a : aref) : Attributes :=
  default [] (attrHeap s !! a).

(** A button with two [click] listeners: the first prevents the default,
    the second stops the propagation. *)
Definition twoListeners : State :=
  stateAfter (
    d <- newVirtualDOM ;;
    button <- VirtualDOM.createElement d "button" ;;
    VirtualElement.addEventListener button "click" (mkCallback 1%nat preventDefault) ;;;
    VirtualElement.addEventListener button "click" (mkCallback 2%nat stopPropagation)).

(** A listener that turns bubbling back on: [event.bubbles = true]. *)
Definition resumeBubbling (ev : VirtualEvent) : VirtualEvent :=
  mkEvent (ev_type ev) (ev_trusted ev) true (defaultPrevented ev) (target ev)
          (isCustom ev).

(** A button with two [click] listeners, the first of which turns
    bubbling back on. *)
Definition resumingListeners : State :=
  stateAfter (
    d <- newVirtualDOM ;;
    button <- VirtualDOM.createElement d "button" ;;
    VirtualElement.addEventListener button "click" (mkCallback 1%nat resumeBubbling) ;;;
    VirtualElement.addEventListener button "click" (mkCallback 2%nat preventDefault)).

(** C8, its last sentence as the specification states it: of two
    listeners for the type of an event built with [bubbles: false], only
    the first-registered one runs. *)
Definition bubbles_false_runs_first_only : Prop :=
  ∀ s self e event first second,
    heap s !! self = Some e →
    listenersGet (eventListeners e) (ev_type event) = Some [first; second] →
    bubbles event = false →
    ∃ ev', VirtualElement.dispatchEvent self event s = Ok (ev', [cb_id first]) s.

(** A button with the attribute [data-test]. *)
Definition buttonWithData : State :=
  stateAfter (
    d <- newVirtualDOM ;;
    button <- VirtualDOM.createElement d "button" ;;
    VirtualElement.setAttribute 1 button "data-test" (JsString "test")).

(** A [div] holding a [span] that holds a [span]: nodes 0, 1 and 2. *)
Definition threeGenerations : State :=
  stateAfter (
    d <- newVirtualDOM ;;
    p <- VirtualDOM.createElement d "div" ;;
    c <- VirtualDOM.createElement d "span" ;;
    g <- VirtualDOM.createElement d "span" ;;
    VirtualDOM.appendChild d p ;;;
    VirtualElement.appendChild 3 p c ;;;
    VirtualElement.appendChild 3 c g).

(** ** Further properties *)

(** The node at the top of a tree, and the trees below it. *)
Definition root (t : Tree) : ref := match t with Node r _ => r end.
Definition subtrees (t : Tree) : list Tree := match t with Node _ kids => kids end.

(** The node has an own attribute of that name. *)
Definition hasAttr (s : State) (name : string) (r : ref) : bool :=
  match heap s !! r with
  | Some e =>
      match attrHeap s !! attributes e with
      | Some o => attrHas o name
      | None => false
      end
  | None => false
  end.

(** The registrations that are not the function [cb]. *)
Definition otherThan (cb : Callback) (cbs : list Callback) : list Callback :=
  List.filter (λ c, negb (bool_decide (cb_id c = cb_id cb))) cbs.

(** A listener that leaves [event.bubbles] as it finds it. *)
Definition keepsBubbles (cb : Callback) : Prop :=
  ∀ ev, bubbles (cb_run cb ev) = bubbles ev.

(** ** [$makeTree] *)

(** The arrays [$makeTree] pushes for the nodes of a tree: for every node
    that has children the array of its children, a node after the nodes
    below it. *)
Fixpoint groups (t : Tree) : list TreeItem :=
  match t with
  | Node _ kids =>
      match kids with
      | [] => []
      | _ => flat_map groups kids ++ [Group (root <$> kids)]
      end
  end.

(** What [$makeTree] lists for a top-level node and the tree below it. *)
Definition treeItems (t : Tree) : list TreeItem := Single (root t) :: groups t.

(** The elements of a result of [$makeTree], in the order of a loop over
    it that enters the arrays. *)
Definition flatten (items : list TreeItem) : list ref :=
  flat_map (λ i, match i with Single el => [el] | Group arr => arr end) items.

(** The objects allocated between [s] and [s1] have their children
    allocated after them. *)
Definition ascending (s s1 : State) : Prop :=
  ∀ q qe, heap s1 !! q = Some qe → (length (heap s) ≤ q)%nat →
    Forall (λ c, (q < c)%nat) (children qe).

(** * Proofs *)

(** ** Arrays *)

Section ArrayFacts.
Context {A : Type} `{EqDecision A}.
Implicit Types (l : list A) (x : A).

Lemma indexOf_range l x : (-1 ≤ indexOf l x < Z.of_nat (length l))%Z.
Proof.
  induction l as [|y l IH]; simpl; [lia|].
  destruct (decide (y = x)); [lia|].
  destruct (Z.eqb_spec (indexOf l x) (-1)); lia.
Qed.

Lemma indexOf_absent l x : indexOf l x = (-1)%Z ↔ x ∉ l.
Proof.
  induction l as [|y l IH]; simpl.
  - split; [intros _; apply not_elem_of_nil | done].
  - destruct (decide (y = x)) as [->|Hne].
    + split; [lia | intros H; exfalso; apply H; left].
    + pose proof (indexOf_range l x).
      destruct (Z.eqb_spec (indexOf l x) (-1)) as [E|E].
      * split; [|done]. intros _ [->|H']%elem_of_cons; [done|].
        by apply IH in E.
      * split; [lia|]. intros H'. exfalso. apply E, IH.
        intros Hin. apply H'. by right.
Qed.

Lemma indexOf_firstAt l x i : firstAt l x i ↔ indexOf l x = Z.of_nat i.
Proof.
  revert i. induction l as [|y l IH]; intros i; simpl.
  - split; [intros [H _]; done | lia].
  - destruct (decide (y = x)) as [->|Hne].
    + split.
      * intros [_ Hj]. destruct i as [|i]; [done|].
        exfalso. apply (Hj 0%nat); [lia | done].
      * intros Hi. assert (i = 0%nat) as -> by lia.
        split; [done | intros j ?; lia].
    + pose proof (indexOf_range l x).
      destruct (Z.eqb_spec (indexOf l x) (-1)) as [E|E].
      * split; [|lia]. intros [Hi _]. exfalso.
        destruct i as [|i]; simpl in Hi; [congruence|].
        apply indexOf_absent in E. apply E.
        apply list_elem_of_lookup. eauto.
      * split.
        -- intros [Hi Hj]. destruct i as [|i]; simpl in Hi; [congruence|].
           assert (firstAt l x i) as Hf.
           { split; [done|]. intros j Hlt. apply (Hj (S j)). lia. }
           apply IH in Hf. lia.
        -- intros Hi. destruct i as [|i]; [lia|].
           assert (indexOf l x = Z.of_nat i) as Hf by lia.
           apply IH in Hf as [Hi' Hj]. split; [done|].
           intros [|j] Hlt; simpl; [congruence|]. apply Hj. lia.
Qed.

Lemma indexOf_present l x : x ∈ l → ∃ i, firstAt l x i.
Proof.
  intros Hin. pose proof (indexOf_range l x).
  destruct (Z.eqb_spec (indexOf l x) (-1)) as [E|E].
  - by apply indexOf_absent in E.
  - exists (Z.to_nat (indexOf l x)). apply indexOf_firstAt. lia.
Qed.

Lemma firstAt_unique l x i j : firstAt l x i → firstAt l x j → i = j.
Proof. rewrite !indexOf_firstAt. lia. Qed.

Lemma firstAt_lt l x i : firstAt l x i → (i < length l)%nat.
Proof. intros [H _]. by apply lookup_lt_Some in H. Qed.

Lemma includes_true l x : includes l x = true ↔ x ∈ l.
Proof. unfold includes. apply bool_decide_eq_true. Qed.

Lemma includes_false l x : includes l x = false ↔ x ∉ l.
Proof. unfold includes. apply bool_decide_eq_false. Qed.

(** Splicing one element in at the position [indexOf] reports. *)
Lemma splice_insert_found l x y i :
  firstAt l x i → splice (indexOf l x) 0 [y] l = insertAt i y l.
Proof.
  intros Hf. pose proof (firstAt_lt _ _ _ Hf).
  apply indexOf_firstAt in Hf. rewrite Hf.
  unfold splice, spliceStart, insertAt.
  destruct (Z.ltb_spec (Z.of_nat i) 0); [lia|].
  replace (Z.to_nat (Z.min (Z.of_nat i) (Z.of_nat (length l)))) with i by lia.
  by rewrite Nat.add_0_r.
Qed.

(** When [indexOf] reports -1 the splice counts one back from the end. *)
Lemma splice_insert_absent l x y :
  x ∉ l → splice (indexOf l x) 0 [y] l = insertAt (length l - 1) y l.
Proof.
  intros Hf. apply indexOf_absent in Hf. rewrite Hf.
  unfold splice, spliceStart, insertAt. simpl.
  replace (Z.to_nat (Z.max (Z.of_nat (length l) + -1) 0))
    with (length l - 1)%nat by lia.
  by rewrite Nat.add_0_r.
Qed.

Lemma splice_delete_found l x i :
  firstAt l x i → splice (indexOf l x) 1 [] l = delete i l.
Proof.
  intros Hf. pose proof (firstAt_lt _ _ _ Hf).
  apply indexOf_firstAt in Hf. rewrite Hf.
  unfold splice, spliceStart.
  destruct (Z.ltb_spec (Z.of_nat i) 0); [lia|].
  replace (Z.to_nat (Z.min (Z.of_nat i) (Z.of_nat (length l)))) with i by lia.
  simpl. rewrite Nat.add_1_r. symmetry. apply delete_take_drop.
Qed.

Lemma arraySet_found l x y i :
  firstAt l x i → arraySet (indexOf l x) y l = <[i := y]> l.
Proof.
  intros Hf. pose proof (firstAt_lt _ _ _ Hf).
  apply indexOf_firstAt in Hf. rewrite Hf. unfold arraySet.
  destruct (Z.ltb_spec (Z.of_nat i) 0); [lia|].
  destruct (Z.ltb_spec (Z.of_nat i) (Z.of_nat (length l))); [|lia].
  by rewrite Nat2Z.id.
Qed.

Lemma arraySet_absent l x y : x ∉ l → arraySet (indexOf l x) y l = l.
Proof. intros Hf. apply indexOf_absent in Hf. by rewrite Hf. Qed.
End ArrayFacts.

(** ** Well-formed stores *)

Lemma validElem_lookup s r : validElem s r → ∃ e, heap s !! r = Some e.
Proof. intros H. by apply lookup_lt_is_Some_2. Qed.

Lemma wfState_elem s r e : wfState s → heap s !! r = Some e → wfElement s e.
Proof.
  intros [H _] Hr. rewrite Forall_forall in H. apply H.
  apply list_elem_of_lookup. eauto.
Qed.

Lemma wfState_dom s d t : wfState s → domHeap s !! d = Some t → wfDom s t.
Proof.
  intros [_ H] Hd. rewrite Forall_forall in H. apply H.
  apply list_elem_of_lookup. eauto.
Qed.

Lemma wfState_attrs s r e :
  wfState s → heap s !! r = Some e → ∃ o, attrHeap s !! attributes e = Some o.
Proof.
  intros Hwf Hr. destruct (wfState_elem _ _ _ Hwf Hr) as (Ha & _).
  by apply lookup_lt_is_Some_2.
Qed.

(** Unfolding the primitive steps of the monad. *)
Ltac munfold :=
  unfold bind, ret, throw, abort, getElement, updElement, getDom, updDom,
    getAttrs, updAttrs in *.

(** Running the steps whose lookups are the two given facts. *)
Ltac mrun H1 H2 := repeat (progress (simpl; rewrite ?H1, ?H2)).

(** ** Tree lookups *)

Lemma filterRefs_tagIs s selector l :
  Forall (validElem s) l →
  filterRefs (tagIs selector) l s = Ok (List.filter (hasTag s selector) l) s.
Proof.
  induction 1 as [|r l Hr _ IH]; simpl; [done|].
  destruct (validElem_lookup _ _ Hr) as [e He].
  unfold tagIs, hasTag in *. munfold. rewrite He. simpl. rewrite IH.
  by destruct (bool_decide _).
Qed.

Lemma filterRefs_attrIs s name value l :
  wfState s → Forall (validElem s) l →
  filterRefs (attrIs name value) l s
  = Ok (List.filter (hasAttrValue s name value) l) s.
Proof.
  intros Hwf. induction 1 as [|r l Hr _ IH]; simpl; [done|].
  destruct (validElem_lookup _ _ Hr) as [e He].
  destruct (wfState_attrs _ _ _ Hwf He) as [o Ho].
  unfold attrIs, hasAttrValue in *. munfold. rewrite He. simpl.
  rewrite Ho. simpl. rewrite IH. by destruct (bool_decide _).
Qed.

Lemma twoTier_top p top deep :
  List.filter p top ≠ [] → twoTier p top deep = List.filter p top.
Proof. unfold twoTier. by destruct (List.filter p top). Qed.

Lemma twoTier_deep p top deep :
  List.filter p top = [] → twoTier p top deep = List.filter p deep.
Proof. unfold twoTier. by intros ->. Qed.

Lemma twoTier_run {B} p top deep (f : list ref → B) (g : list ref → B) :
  (∀ l, l ≠ [] → f l = g l) →
  (if (0 <? length (List.filter p top))%nat then f (List.filter p top)
   else g (List.filter p deep))
  = g (twoTier p top deep).
Proof.
  intros Hfg. unfold twoTier.
  destruct (List.filter p top) as [|x l] eqn:E; simpl; [done|].
  by apply Hfg.
Qed.

Lemma twoTier_tiered p top deep : tiered p top deep (twoTier p top deep).
Proof. split; [apply twoTier_top | apply twoTier_deep]. Qed.

Lemma hasAttrValue_exact s name value r :
  hasAttrValue s name value r = true ↔
  ∃ e o, heap s !! r = Some e ∧ attrHeap s !! attributes e = Some o ∧
         attrGet o name = JsString value.
Proof.
  unfold hasAttrValue. split.
  - destruct (heap s !! r) as [e|]; [|done].
    destruct (attrHeap s !! attributes e) as [o|] eqn:Ho; [|done].
    intros H%bool_decide_eq_true. by exists e, o.
  - intros (e & o & -> & -> & H). by apply bool_decide_eq_true.
Qed.

(** C7.  On a tree, [querySelector], [querySelectorAll], [getElementById] and
    [getElementsByClassName] filter [directChildren] first and turn to
    [children] (the flattened descendants) only when that filter is empty:
    the result is the matches of one tier, never of both.  The id and class
    lookups compare the whole attribute value with the argument, so every
    node they return carries exactly that string. *)
Theorem dom_lookups_two_tier s d t selector id className :
  wfState s → domHeap s !! d = Some t →
  ∃ byTag byId byClass,
    VirtualDOM.querySelectorAll d selector s = Ok byTag s ∧
    VirtualDOM.querySelector d selector s = Ok (byTag !! 0%nat) s ∧
    tiered (hasTag s selector) (directChildren t) (domChildren t) byTag ∧
    VirtualDOM.getElementById d id s = Ok (byId !! 0%nat) s ∧
    tiered (hasAttrValue s "id" id) (directChildren t) (domChildren t) byId ∧
    VirtualDOM.getElementsByClassName d className s = Ok byClass s ∧
    tiered (hasAttrValue s "class" className)
           (directChildren t) (domChildren t) byClass ∧
    (∀ r, r ∈ byClass →
       ∃ e o, heap s !! r = Some e ∧ attrHeap s !! attributes e = Some o ∧
              attrGet o "class" = JsString className) ∧
    (∀ r, byId !! 0%nat = Some r →
       ∃ e o, heap s !! r = Some e ∧ attrHeap s !! attributes e = Some o ∧
              attrGet o "id" = JsString id).
Proof.
  intros Hwf Hd. destruct (wfState_dom _ _ _ Hwf Hd) as [Htop Hdeep].
  exists (twoTier (hasTag s selector) (directChildren t) (domChildren t)),
         (twoTier (hasAttrValue s "id" id) (directChildren t) (domChildren t)),
         (twoTier (hasAttrValue s "class" className)
                  (directChildren t) (domChildren t)).
  assert (∀ p top deep r, r ∈ twoTier p top deep → p r = true) as Hsound.
  { intros p top deep r. unfold twoTier.
    destruct (List.filter p top) eqn:E.
    - intros Hin%list_elem_of_In%filter_In. tauto.
    - rewrite <- E. intros Hin%list_elem_of_In%filter_In. tauto. }
  refine (conj _ (conj _ (conj (twoTier_tiered _ _ _) (conj _
            (conj (twoTier_tiered _ _ _) (conj _
            (conj (twoTier_tiered _ _ _) (conj _ _)))))))).
  - unfold VirtualDOM.querySelectorAll. munfold. rewrite Hd. simpl.
    rewrite filterRefs_tagIs by done.
    rewrite <- (twoTier_run _ _ _ (λ l, Ok l s) (λ l, Ok l s)) by done.
    destruct (0 <? _)%nat; [done|]. by rewrite filterRefs_tagIs.
  - unfold VirtualDOM.querySelector. munfold. rewrite Hd. simpl.
    rewrite filterRefs_tagIs by done.
    rewrite <- (twoTier_run _ _ _ (λ l, Ok (l !! 0%nat) s)
                                  (λ l, Ok (l !! 0%nat) s)) by done.
    destruct (0 <? _)%nat; [done|]. by rewrite filterRefs_tagIs.
  - unfold VirtualDOM.getElementById. munfold. rewrite Hd. simpl.
    rewrite filterRefs_attrIs by done.
    rewrite <- (twoTier_run _ _ _ (λ l, Ok (l !! 0%nat) s)
                                  (λ l, Ok (l !! 0%nat) s)) by done.
    destruct (0 <? _)%nat; [done|]. by rewrite filterRefs_attrIs.
  - unfold VirtualDOM.getElementsByClassName. munfold. rewrite Hd. simpl.
    rewrite filterRefs_attrIs by done.
    rewrite <- (twoTier_run _ _ _ (λ l, Ok l s) (λ l, Ok l s)) by done.
    destruct (0 <? _)%nat; [done|]. by rewrite filterRefs_attrIs.
  - intros r Hr. apply hasAttrValue_exact. by eapply Hsound.
  - intros r Hr. apply hasAttrValue_exact. eapply Hsound.
    apply list_elem_of_lookup. eauto.
Qed.

(** ** Tree-level structural operations *)

(** C10.  [appendChild], [insertBefore], [replaceChild] and [removeChild] of
    a [VirtualDOM] do not go through [_notifyTreeChange]: whatever their
    outcome, the record of listener calls is the one they started with. *)
Theorem dom_structural_ops_silent s d t child c other :
  domHeap s !! d = Some t → heap s !! child = Some c →
  silent (VirtualDOM.appendChild d child) s ∧
  silent (VirtualDOM.insertBefore d child other) s ∧
  silent (VirtualDOM.replaceChild d child other) s ∧
  silent (VirtualDOM.removeChild d child) s.
Proof.
  intros Hd Hc. unfold silent. split_and!.
  - unfold VirtualDOM.appendChild. munfold. rewrite Hd, Hc. simpl.
    destruct (isRemoved c); [by eauto|]. mrun Hd Hc. by eauto.
  - unfold VirtualDOM.insertBefore. munfold. rewrite Hd, Hc. simpl.
    destruct (isRemoved c); [by eauto|]. mrun Hd Hc. by eauto.
  - unfold VirtualDOM.replaceChild. munfold. rewrite Hd, Hc. simpl.
    destruct (isRemoved c); [by eauto|].
    destruct (includes (directChildren t) other); mrun Hd Hc; [by eauto|].
    destruct (includes (domChildren t) other); mrun Hd Hc; by eauto.
  - unfold VirtualDOM.removeChild. munfold. rewrite Hd. simpl.
    destruct (negb _); mrun Hd Hc; [by eauto|].
    destruct (_ =? _)%Z; mrun Hd Hc; by eauto.
Qed.

(** C5, counterexample.  In the tree [0; 1], inserting node 2 before the
    absent node 3 gives [0; 2; 1]: [indexOf] answers -1 and [splice] counts
    that from the end. *)
Lemma insertBefore_absent_not_first : ¬ insertBefore_absent_goes_first.
Proof.
  intros H.
  destruct (H twoTopLevel 0%nat (mkDom [0; 1] [] [])%nat 2%nat
              (mkElement "n" false 2%nat [] None 0%nat "" []) 3%nat)
    as (s' & t' & Hrun & Ht' & Hl); [done|done|done|compute_done|].
  vm_compute in Hrun. injection Hrun as <-. vm_compute in Ht'.
  injection Ht' as <-. simpl in Hl. discriminate.
Qed.

(** C5 (amended).  [insertBefore(child, reference)] on a tree returns
    normally.  If [child.$isRemoved] it changes nothing.  Otherwise it puts
    [child] into [directChildren] right before the first occurrence of
    [reference]; when [reference] does not occur, right before the last
    element, that is at position [length - 1] (position 0 only when there is
    at most one top-level node).  Nothing else in the store changes. *)
Theorem insertBefore_spec s d t child c reference :
  domHeap s !! d = Some t → heap s !! child = Some c →
  ∃ s', VirtualDOM.insertBefore d child reference s = Ok tt s' ∧
    (if isRemoved c then s' = s
     else ∃ pos,
       (firstAt (directChildren t) reference pos ∨
        ((reference ∉ directChildren t) ∧
         pos = (length (directChildren t) - 1)%nat)) ∧
       s' = modDom d (with_directChildren
                        (insertAt pos child (directChildren t))) s).
Proof.
  intros Hd Hc. unfold VirtualDOM.insertBefore. munfold. rewrite Hd, Hc. simpl.
  destruct (isRemoved c); [by eauto|]. simpl. rewrite Hd.
  eexists. split; [done|].
  destruct (decide (reference ∈ directChildren t)) as [Hin|Hout].
  - destruct (indexOf_present _ _ Hin) as [i Hi]. exists i.
    split; [by left|]. by rewrite (splice_insert_found _ _ _ _ Hi).
  - exists (length (directChildren t) - 1)%nat.
    split; [by right|]. by rewrite (splice_insert_absent _ _ _ Hout).
Qed.

(** ** Element queries *)

Lemma foldRefs_visitAll s fuel l kids arr :
  (∀ c t arr, c ∈ l → shape s fuel c = Some t →
     VirtualElement.visitAll fuel arr c s = Ok (arr ++ preorder t) s) →
  Forall2 (λ c t, shape s fuel c = Some t) l kids →
  foldRefs (VirtualElement.visitAll fuel) l arr s
  = Ok (arr ++ flat_map preorder kids) s.
Proof.
  intros Hv H. revert arr. induction H as [|c t l kids Hc _ IH]; intros arr; simpl.
  - by rewrite app_nil_r.
  - munfold. rewrite (Hv c t arr) by (by left || done).
    rewrite IH; [by rewrite <- app_assoc|].
    intros c' t' arr' Hin. apply Hv. by right.
Qed.

Lemma visitAll_shape s fuel c t arr :
  shape s fuel c = Some t →
  VirtualElement.visitAll fuel arr c s = Ok (arr ++ preorder t) s.
Proof.
  revert c t arr. induction fuel as [|fuel IH]; intros c t arr; simpl; [done|].
  munfold. destruct (heap s !! c) as [e|]; [|done].
  destruct (mapM (shape s fuel) (children e)) as [kids|] eqn:Hk; [|done].
  intros [= <-]. apply mapM_Some in Hk.
  rewrite (foldRefs_visitAll s fuel (children e) kids); [|by eauto|done].
  simpl. by rewrite <- app_assoc.
Qed.

(** C6.  For a selector other than ["*"], [querySelectorAll] of an element
    returns exactly its direct children whose tag is the selector, in
    order, so a node that is not a direct child is never returned; for
    ["*"] it returns all descendants in pre-order, whenever the links below
    the node form a tree of height at most [fuel]; [querySelector] returns
    the first element of the same list ([undefined] when it is empty). *)
Theorem element_querySelectorAll_spec s self e selector fuel :
  wfState s → heap s !! self = Some e →
  (selector ≠ "*" →
     ∃ found,
       VirtualElement.querySelectorAll fuel self selector s = Ok found s ∧
       VirtualElement.querySelector fuel self selector s = Ok (found !! 0%nat) s ∧
       found = List.filter (hasTag s selector) (children e) ∧
       ∀ r, r ∈ found ↔ r ∈ children e ∧ hasTag s selector r = true) ∧
  (∀ kids, shape s (S fuel) self = Some (Node self kids) →
     VirtualElement.querySelectorAll fuel self "*" s
       = Ok (flat_map preorder kids) s ∧
     VirtualElement.querySelector fuel self "*" s
       = Ok (flat_map preorder kids !! 0%nat) s).
Proof.
  intros Hwf He. split.
  - intros Hsel. exists (List.filter (hasTag s selector) (children e)).
    destruct (wfState_elem _ _ _ Hwf He) as (_ & _ & Hkids & _).
    assert (VirtualElement.querySelectorAll fuel self selector s
            = Ok (List.filter (hasTag s selector) (children e)) s) as Hall.
    { unfold VirtualElement.querySelectorAll. munfold. rewrite He.
      rewrite bool_decide_eq_false_2 by done.
      by rewrite filterRefs_tagIs. }
    split_and!; [done| |done|].
    + unfold VirtualElement.querySelector. munfold. by rewrite Hall.
    + intros r. by rewrite list_elem_of_In, filter_In, <- list_elem_of_In.
  - intros kids Hshape. simpl in Hshape. rewrite He in Hshape.
    destruct (mapM (shape s fuel) (children e)) as [kids'|] eqn:Hk; [|done].
    injection Hshape as <-. apply mapM_Some in Hk.
    assert (VirtualElement.querySelectorAll fuel self "*" s
            = Ok (flat_map preorder kids') s) as Hall.
    { unfold VirtualElement.querySelectorAll. munfold. rewrite He. simpl.
      rewrite (foldRefs_visitAll s fuel (children e) kids'); [done| |done].
      intros c t arr _. apply visitAll_shape. }
    split; [done|].
    unfold VirtualElement.querySelector. munfold. by rewrite Hall.
Qed.

(** ** Events *)

Lemma runListeners_spec cbs ev :
  cbs ≠ [] →
  ∃ n, (1 ≤ n ≤ length cbs)%nat ∧
       runListeners cbs ev = (eventAfter cbs ev n, cb_id <$> take n cbs) ∧
       (∀ k, (1 ≤ k < n)%nat → bubbles (eventAfter cbs ev k) = true) ∧
       ((n < length cbs)%nat → bubbles (eventAfter cbs ev n) = false).
Proof.
  revert ev. induction cbs as [|cb cbs IH]; intros ev Hne; [done|]. simpl.
  destruct (bubbles (cb_run cb ev)) eqn:Hb; simpl.
  - destruct cbs as [|cb' cbs'].
    + exists 1%nat. simpl. split_and!; [lia|lia|done| |lia].
      intros k ?; lia.
    + destruct (IH (cb_run cb ev)) as (n & Hn & Hrun & Hbefore & Hlast); [done|].
      exists (S n). rewrite Hrun. split_and!; [lia|simpl in *; lia|done| |].
      * intros [|k] Hk; [lia|]. destruct k as [|k]; [exact Hb|].
        apply (Hbefore (S k)). lia.
      * intros Hlt. apply Hlast. simpl in *. lia.
  - exists 1%nat. split_and!; [lia|lia|done| |done].
    intros k ?; lia.
Qed.

(** C8, counterexample.  [bubbles] is an ordinary field of the event and
    the loop reads it after each listener.  A first listener that assigns
    [event.bubbles = true] to an event built with [bubbles: false] lets
    the second listener run as well. *)
Lemma first_listener_resumes_bubbling : ¬ bubbles_false_runs_first_only.
Proof.
  intros H.
  destruct (H resumingListeners 0%nat (nodeOf resumingListeners 0%nat)
              (newVirtualEvent "click" None (Some false))
              (mkCallback 1%nat resumeBubbling) (mkCallback 2%nat preventDefault))
    as [ev' Hrun]; [reflexivity..|].
  vm_compute in Hrun. discriminate Hrun.
Qed.

(** C8 (amended).  On a node that has listeners for the type of the event,
    [dispatchEvent] sets [event.target] to the node and runs the listeners
    of that type in the order [addEventListener] registered them, each on
    the event as its predecessors left it; it stops after the first
    listener that leaves [event.bubbles] false.  With two listeners and an
    event built with [bubbles: false] that the first listener leaves so,
    only the first listener runs. *)
Theorem dispatchEvent_spec s self e event cbs :
  heap s !! self = Some e →
  listenersGet (eventListeners e) (ev_type event) = Some cbs →
  cbs ≠ [] →
  let event0 := with_target (Some self) event in
  target event0 = Some self ∧
  (∃ n,
     (1 ≤ n ≤ length cbs)%nat ∧
     VirtualElement.dispatchEvent self event s
       = Ok (eventAfter cbs event0 n, cb_id <$> take n cbs) s ∧
     (∀ k, (1 ≤ k < n)%nat → bubbles (eventAfter cbs event0 k) = true) ∧
     ((n < length cbs)%nat → bubbles (eventAfter cbs event0 n) = false)) ∧
  (∀ cb, ∃ s1 e1,
     VirtualElement.addEventListener self (ev_type event) cb s = Ok tt s1 ∧
     heap s1 !! self = Some e1 ∧
     listenersGet (eventListeners e1) (ev_type event) = Some (cbs ++ [cb])) ∧
  (∀ first second,
     cbs = [first; second] → bubbles event = false →
     bubbles (cb_run first event0) = false →
     ∃ ev', VirtualElement.dispatchEvent self event s = Ok (ev', [cb_id first]) s).
Proof.
  intros He Hcbs Hne event0.
  assert (∀ ls name v, listenersGet (listenersSet name v ls) name = Some v)
    as Hget.
  { intros ls name v. induction ls as [|[k w] ls IH]; simpl.
    - by rewrite decide_True.
    - destruct (decide (k = name)) as [->|Hk]; simpl.
      + by rewrite decide_True.
      + by rewrite decide_False. }
  split_and!.
  - done.
  - destruct (runListeners_spec cbs event0 Hne) as (n & Hn & Hrun & H1 & H2).
    exists n. refine (conj Hn (conj _ (conj H1 H2))).
    unfold VirtualElement.dispatchEvent. munfold. rewrite He. simpl.
    fold event0. rewrite Hcbs. by rewrite Hrun.
  - intros cb. eexists _, _. split_and!.
    + unfold VirtualElement.addEventListener. munfold.
      rewrite He, Hcbs. rewrite bool_decide_eq_true_2 by eauto. simpl.
      rewrite He, Hcbs. simpl. rewrite He. reflexivity.
    + unfold modElem. simpl. rewrite list_lookup_alter_eq, He. reflexivity.
    + simpl. apply Hget.
  - intros first second -> Hb Hb1. eexists.
    unfold VirtualElement.dispatchEvent. munfold. rewrite He. simpl.
    fold event0. rewrite Hcbs. simpl. by rewrite Hb1.
Qed.

(** ** The [dataset] accessor *)

Section AssocFacts.
Context {V : Type}.
Implicit Types (o : list (string * V)) (v w : V).

Lemma assocSet_keys name v o :
  (assocSet name v o).*1 = if decide (name ∈ o.*1) then o.*1 else o.*1 ++ [name].
Proof.
  induction o as [|[k w] o IH]; [done|]. cbn [assocSet].
  destruct (decide (k = name)) as [->|Hk]; rewrite !fmap_cons; cbn [fst].
  - rewrite decide_True; [done | by left].
  - rewrite IH. destruct (decide (name ∈ o.*1)) as [Hin|Hout].
    + rewrite decide_True; [done | by right].
    + rewrite decide_False; [done|].
      intros [?|?]%elem_of_cons; [by subst | done].
Qed.

Lemma assocSet_NoDup name v o : NoDup o.*1 → NoDup (assocSet name v o).*1.
Proof.
  intros Hnd. rewrite assocSet_keys. destruct (decide _) as [|Hout]; [done|].
  apply NoDup_app. split_and!; [done| |apply NoDup_singleton].
  intros x Hx ->%list_elem_of_singleton. done.
Qed.

Lemma assocSet_elem name v o k w :
  (k, w) ∈ assocSet name v o → (k = name ∧ w = v) ∨ (k, w) ∈ o.
Proof.
  induction o as [|[k' w'] o IH]; simpl.
  - intros [=]%list_elem_of_singleton. by left.
  - destruct (decide (k' = name)) as [->|Hk].
    + intros [[=]|?]%elem_of_cons; [by left | right; by right].
    + intros [[=]|?]%elem_of_cons; [right; subst; by left|].
      destruct IH as [?|?]; [done|by left|right; by right].
Qed.

Lemma assocGet_fresh o name : name ∉ o.*1 → assocGet o name = None.
Proof.
  induction o as [|[k w] o IH]; [done|]. simpl.
  intros Hout. rewrite decide_False; [apply IH|]; intros ?; apply Hout;
    [by right | subst; by left].
Qed.

Lemma assocSet_fresh name v o :
  name ∉ o.*1 → assocSet name v o = o ++ [(name, v)].
Proof.
  induction o as [|[k w] o IH]; [done|]. simpl.
  intros Hout. rewrite decide_False; [rewrite IH; [done|]|]; intros ?;
    apply Hout; [by right | subst; by left].
Qed.

Lemma assocGet_elem o k w : NoDup o.*1 → (k, w) ∈ o → assocGet o k = Some w.
Proof.
  induction o as [|[k' w'] o IH]; simpl.
  - by intros _ ?%elem_of_nil.
  - intros [Hk' Hnd]%NoDup_cons [[= -> ->]|Hin]%elem_of_cons.
    + by rewrite decide_True.
    + rewrite decide_False; [by apply IH|].
      intros ->. apply Hk'. apply list_elem_of_fmap. by exists (k, w).
Qed.
End AssocFacts.

Section DatasetFacts.
Variable toUpperCase : string → string.

Lemma assocSet_twice {V} name (v w : V) o :
  assocSet name v (assocSet name w o) = assocSet name v o.
Proof.
  induction o as [|[k u] o IH]; simpl.
  - by rewrite decide_True.
  - destruct (decide (k = name)) as [->|Hk]; simpl.
    + by rewrite decide_True.
    + rewrite decide_False by done. by rewrite IH.
Qed.

(** Whatever else a turn of the loop does, it leaves [name] bound to the
    accessor pair for [ky]. *)
Lemma datasetStep_result fuel this attrs ky s attrs' s' :
  datasetStep toUpperCase fuel this attrs ky s = Ok attrs' s' →
  (String.prefix "data-" ky = false ∧ attrs' = attrs) ∨
  (String.prefix "data-" ky = true ∧
   ∃ name, camelCase toUpperCase (slice5 ky) = Some name ∧
           attrs' = assocSet name (Accessor this ky) attrs).
Proof.
  unfold datasetStep.
  destruct (String.prefix "data-" ky) eqn:Hpre; [|intros [= <- <-]; by left].
  munfold. destruct (heap s !! this) as [e|]; [|done].
  destruct (attrHeap s !! attributes e) as [o|]; [|done].
  destruct (camelCase toUpperCase (slice5 ky)) as [name|] eqn:Hname; [|done].
  intros Hrun. right. split; [done|]. exists name. split; [done|].
  destruct (assocGet attrs name) as [[v|self ky0]|].
  - injection Hrun as <- <-.
    destruct (bool_decide (name = "__proto__")); [done|apply assocSet_twice].
  - destruct (attrRead o (slice5 ky)) as [v|]; [|done].
    destruct (VirtualElement.setAttribute fuel self ky0 _ s); [|done..].
    destruct (bool_decide (name = "__proto__")); [done|].
    by injection Hrun as <- <-.
  - injection Hrun as <- <-.
    destruct (bool_decide (name = "__proto__")); [done|apply assocSet_twice].
Qed.

Lemma datasetLoop_live fuel this keys todo attrs s attrs' s' :
  Forall (liveProperty toUpperCase this keys) attrs → NoDup attrs.*1 → todo ⊆ keys →
  datasetLoop toUpperCase fuel this todo attrs s = Ok attrs' s' →
  Forall (liveProperty toUpperCase this keys) attrs' ∧ NoDup attrs'.*1.
Proof.
  revert attrs s. induction todo as [|ky todo IH]; intros attrs s Hall Hnd Hsub.
  - by intros [= <- <-].
  - simpl. munfold.
    destruct (datasetStep toUpperCase fuel this attrs ky s) as [a1 s1| |] eqn:Hstep;
      [|done..].
    apply IH; [| |intros x Hx; apply Hsub; by right].
    + apply datasetStep_result in Hstep as [[_ ->]|(Hpre & name & Hname & ->)];
        [done|].
      apply Forall_forall. intros [k w] [[-> ->]|Hin]%assocSet_elem.
      * exists ky. split_and!; [done| |done|done]. apply Hsub. by left.
      * rewrite Forall_forall in Hall. by apply Hall.
    + apply datasetStep_result in Hstep as [[_ ->]|(Hpre & name & Hname & ->)];
        [done|]. by apply assocSet_NoDup.
Qed.

(** When every [data-] key has a camel-case form and no two of them the
    same one, the loop ends, touches nothing and binds the names in the
    order of the keys. *)
Lemma datasetLoop_returns fuel this e o s todo :
  heap s !! this = Some e → attrHeap s !! attributes e = Some o →
  ∀ names acc,
    mapM (λ ky, camelCase toUpperCase (slice5 ky)) (dataKeys todo) = Some names →
    NoDup (acc.*1 ++ names) →
    datasetLoop toUpperCase fuel this todo acc s
    = Ok (acc ++ zip names (Accessor this <$> dataKeys todo)) s.
Proof.
  intros He Ho. induction todo as [|ky todo IH]; intros names acc Hnames Hnd.
  - injection Hnames as <-. simpl. by rewrite app_nil_r.
  - simpl. unfold datasetStep, dataKeys in *. simpl in Hnames.
    destruct (String.prefix "data-" ky) eqn:Hpre.
    + simpl in Hnames.
      destruct (camelCase toUpperCase (slice5 ky)) as [name|] eqn:Hname; [|done].
      simpl in Hnames.
      destruct (mapM _ (List.filter _ todo)) as [names'|] eqn:Hrest; [|done].
      injection Hnames as <-.
      assert (name ∉ acc.*1) as Hout.
      { apply NoDup_app in Hnd as (_ & Hdis & _). intros Hin.
        apply (Hdis _ Hin). by left. }
      munfold. rewrite He, Ho. rewrite (assocGet_fresh _ _ Hout).
      replace (assocSet name (Accessor this ky)
                 (if bool_decide (name = "__proto__") then acc
                  else assocSet name (Data (attrRead o (slice5 ky))) acc))
        with (assocSet name (Accessor this ky) acc)
        by (destruct (bool_decide (name = "__proto__"));
            [done|by rewrite assocSet_twice]).
      rewrite (assocSet_fresh _ _ _ Hout).
      rewrite (IH names'); [by rewrite <- app_assoc|done|].
      by rewrite fmap_app, <- app_assoc.
    + munfold. by apply IH.
Qed.

(** C9.  Every property of the object [dataset] returns is an accessor
    pair bound to an attribute of the node whose name starts with [data-]
    and whose camel-case form (prefix dropped) is the name of the property:
    reading the property is [getAttribute] of that attribute name and
    assigning it is [setAttribute] of that same name, at whatever later
    time.  The accessor does return, with one property for each [data-]
    attribute and the store as it was, when those attributes have
    camel-case forms that differ.  In the scenario, [dataset.test] is
    ["test"] after [setAttribute("data-test","test")], and after
    [dataset.test = "x"] the attribute [data-test] is ["x"]. *)
Theorem dataset_properties_live fuel this e o s :
  heap s !! this = Some e → attrHeap s !! attributes e = Some o →
  (∀ attrs s', dataset toUpperCase fuel this s = Ok attrs s' →
     ∀ name p, (name, p) ∈ attrs →
       ∃ ky, p = Accessor this ky ∧
             attrHas o ky = true ∧
             String.prefix "data-" ky = true ∧
             camelCase toUpperCase (slice5 ky) = Some name ∧
             datasetGet attrs name = VirtualElement.getAttribute this ky ∧
             ∀ fuel' v,
               datasetAssign fuel' attrs name v
               = (VirtualElement.setAttribute fuel' this ky v ;;; ret attrs)) ∧
  (∀ names,
     mapM (λ ky, camelCase toUpperCase (slice5 ky)) (dataKeys o.*1) = Some names →
     NoDup names →
     dataset toUpperCase fuel this s
     = Ok (zip names (Accessor this <$> dataKeys o.*1)) s) ∧
  (∃ final, datasetScenario toUpperCase emptyState
            = Ok (JsString "test", JsString "x") final).
Proof.
  intros He Ho. split_and!; [| |eexists; vm_compute; reflexivity].
  - intros attrs s' Hrun.
    unfold dataset in Hrun. munfold. rewrite He, Ho in Hrun.
    apply (datasetLoop_live _ _ o.*1) in Hrun as [Hall Hnd];
      [|by apply Forall_nil|apply NoDup_nil_2|done].
    intros name p Hin. rewrite Forall_forall in Hall.
    destruct (Hall _ Hin) as (ky & Hp & Hky & Hpre & Hname). simpl in *.
    subst p. exists ky.
    assert (assocGet attrs name = Some (Accessor this ky)) as Hget
      by by apply assocGet_elem.
    split_and!; try done.
    + by apply bool_decide_eq_true.
    + unfold datasetGet. by rewrite Hget.
    + intros fuel' v. unfold datasetAssign. by rewrite Hget.
  - intros names Hnames Hnd. unfold dataset. munfold. rewrite He, Ho.
    by rewrite (datasetLoop_returns fuel this e o s o.*1 He Ho names []).
Qed.
End DatasetFacts.

(** ** Cloning *)

Lemma alter_snoc {A} (f : A → A) l x : alter f (length l) (l ++ [x]) = l ++ [f x].
Proof. by rewrite alter_app_r_alt, Nat.sub_diag by lia. Qed.

Lemma cloneNode_unfold fuel s n e :
  heap s !! n = Some e →
  VirtualElement.cloneNode (S fuel) n true s
  = match mapRefs (λ c, VirtualElement.cloneNode fuel c true) (children e)
                  (withHeader e s) with
    | Ok cs s' =>
        match heap s' !! length (heap s) with
        | Some _ => Ok (length (heap s))
                       (modElem (length (heap s)) (with_children cs) s')
        | None => Abort Dangling
        end
    | Throw err s' => Throw err s'
    | Abort f => Abort f
    end.
Proof.
  intros He. simpl. munfold. rewrite He. unfold newVirtualElement. simpl.
  repeat first [ rewrite list_lookup_middle by done
               | rewrite alter_snoc
               | progress (unfold modElem, with_heap; simpl) ].
  unfold withHeader, cloneHeader.
  destruct (mapRefs _ _ _) as [cs s'| |]; [|done..].
  by destruct (heap s' !! length (heap s)).
Qed.

Lemma extends_refl s : extends s s.
Proof. by unfold extends. Qed.

Lemma extends_trans s1 s2 s3 : extends s1 s2 → extends s2 s3 → extends s1 s3.
Proof.
  intros (H1 & H2 & H3 & H4 & H5) (G1 & G2 & G3 & G4 & G5). unfold extends.
  split_and!; [by etrans|by etrans|congruence|congruence|congruence].
Qed.

Lemma extends_lookup s s' r e :
  extends s s' → heap s !! r = Some e → heap s' !! r = Some e.
Proof. intros (H & _) Hr. by eapply prefix_lookup_Some. Qed.

Lemma extends_length s s' : extends s s' → (length (heap s) ≤ length (heap s'))%nat.
Proof. intros (H & _). by apply prefix_length. Qed.

Lemma extends_withHeader s e : extends s (withHeader e s).
Proof. unfold extends. simpl. split_and!; try done; by apply prefix_app_r. Qed.

Lemma shape_extends s s' d r t :
  extends s s' → shape s d r = Some t → shape s' d r = Some t.
Proof.
  intros Hext. revert r t. induction d as [|d IH]; intros r t; simpl; [done|].
  destruct (heap s !! r) as [e|] eqn:He; [|done].
  rewrite (extends_lookup _ _ _ _ Hext He).
  destruct (mapM (shape s d) (children e)) as [kids|] eqn:Hk; [|done].
  intros [= <-]. apply mapM_Some in Hk.
  assert (mapM (shape s' d) (children e) = Some kids) as ->; [|done].
  apply mapM_Some. eapply Forall2_impl; [exact Hk|]. by eauto.
Qed.

Lemma wfElement_extends s s' e : extends s s' → wfElement s e → wfElement s' e.
Proof.
  intros Hext (Ha & Hd & Hc & Hp).
  pose proof (extends_length _ _ Hext) as Hlen.
  destruct Hext as (_ & Hattr%prefix_length & Hdom & _).
  unfold wfElement, validElem in *. rewrite Hdom. split_and!; [lia|done| |].
  - eapply Forall_impl; [exact Hc|]. simpl. intros; lia.
  - destruct (parent e); simpl in *; [lia|done].
Qed.

Lemma wfDom_extends s s' t : extends s s' → wfDom s t → wfDom s' t.
Proof.
  intros Hext [H1 H2]. pose proof (extends_length _ _ Hext) as Hlen.
  unfold wfDom, validElem in *.
  split; (eapply Forall_impl; [eassumption|]); simpl; intros; lia.
Qed.

Lemma Forall2_impl_in {A B} (P Q : A → B → Prop) l k :
  Forall2 P l k → (∀ x y, x ∈ l → P x y → Q x y) → Forall2 Q l k.
Proof.
  induction 1 as [|x y l k Hxy _ IH]; intros HPQ; constructor.
  - apply HPQ; [by left | done].
  - apply IH. intros x' y' Hin. apply HPQ. by right.
Qed.

Lemma Forall2_exists_r {A B} (P : A → B → Prop) l k x :
  Forall2 P l k → x ∈ l → ∃ y, P x y.
Proof.
  induction 1 as [|x' y l k Hxy _ IH]; [by intros ?%elem_of_nil|].
  intros [->|Hin]%elem_of_cons; by eauto.
Qed.

Lemma snapshotOf_lo lo lo' d s n s' m :
  (lo' ≤ lo)%nat → snapshotOf lo d s n s' m → snapshotOf lo' d s n s' m.
Proof.
  intros Hlo. revert n m. induction d as [|d IH]; intros n m; simpl; [done|].
  intros (e & e' & He & He' & Hm & Ht & Hi & Hp & Hc).
  exists e, e'. split_and!; try done; [lia|].
  eapply Forall2_impl; [exact Hc|]. by eauto.
Qed.

(** A snapshot stays one as long as the objects from [lo] on are left alone. *)
Lemma snapshotOf_frame lo d s n s1 s2 m :
  (∀ i, (lo ≤ i)%nat → (i < length (heap s1))%nat → heap s2 !! i = heap s1 !! i) →
  snapshotOf lo d s n s1 m → snapshotOf lo d s n s2 m.
Proof.
  intros Hfr. revert n m. induction d as [|d IH]; intros n m; simpl; [done|].
  intros (e & e' & He & He' & Hm & Ht & Hi & Hp & Hc).
  exists e, e'. split_and!; try done.
  - rewrite Hfr; [done|done|]. by eapply lookup_lt_Some.
  - eapply Forall2_impl; [exact Hc|]. by eauto.
Qed.

(** The original may be read off an earlier store in which it was there. *)
Lemma snapshotOf_rebase lo d s0 s1 n t s' m :
  extends s0 s1 → shape s0 d n = Some t →
  snapshotOf lo d s1 n s' m → snapshotOf lo d s0 n s' m.
Proof.
  intros Hext. revert n t m. induction d as [|d IH]; intros n t m; simpl; [done|].
  destruct (heap s0 !! n) as [e0|] eqn:He0; [|done].
  destruct (mapM (shape s0 d) (children e0)) as [kids|] eqn:Hk; [|done].
  intros _ (e & e' & He & He' & Hm & Ht & Hi & Hp & Hc).
  rewrite (extends_lookup _ _ _ _ Hext He0) in He. injection He as <-.
  exists e0, e'. split_and!; try done.
  apply mapM_Some in Hk.
  eapply Forall2_impl_in; [exact Hc|]. intros c c' Hin Hs.
  destruct (Forall2_exists_r _ _ _ _ Hk Hin) as [tc Htc]. by eapply IH.
Qed.

Lemma wfState_extends_elem s s' :
  extends s s' → wfState s →
  Forall (wfElement s') (heap s) ∧ Forall (wfDom s') (domHeap s').
Proof.
  intros Hext [H1 H2]. split.
  - eapply Forall_impl; [exact H1|]. intros e. by apply wfElement_extends.
  - pose proof Hext as (_ & _ & Hd & _). rewrite Hd.
    eapply Forall_impl; [exact H2|]. intros t. by apply wfDom_extends.
Qed.

Lemma wfState_withHeader s n e :
  wfState s → heap s !! n = Some e → wfState (withHeader e s).
Proof.
  intros Hwf He. pose proof (extends_withHeader s e) as Hext.
  destruct (wfState_extends_elem _ _ Hext Hwf) as [H1 H2].
  split; [|done]. simpl. apply Forall_app. split; [done|].
  apply Forall_singleton.
  pose proof (wfElement_extends _ _ _ Hext (wfState_elem _ _ _ Hwf He))
    as (Ha & Hd & _ & Hp).
  unfold wfElement, cloneHeader. simpl in *. by split_and!.
Qed.

(** Writing fields that keep the element well formed keeps the store so. *)
Lemma wfState_modElem s r f :
  wfState s → (∀ e, heap s !! r = Some e → wfElement s e → wfElement s (f e)) →
  wfState (modElem r f s).
Proof.
  intros [H1 H2] Hf.
  assert (∀ e, wfElement s e → wfElement (modElem r f s) e) as He.
  { intros e. unfold wfElement, validElem, modElem. simpl.
    by rewrite length_alter. }
  split; simpl.
  - apply Forall_alter.
    + eapply Forall_impl; [exact H1|]. exact He.
    + intros e Hr _. rewrite Forall_forall in H1.
      apply He, Hf; [done|]. apply H1. apply list_elem_of_lookup. eauto.
  - eapply Forall_impl; [exact H2|]. intros t. unfold wfDom, validElem, modElem.
    simpl. by rewrite length_alter.
Qed.

Lemma prefix_alter_ge {A} (f : A → A) (l h : list A) i :
  l `prefix_of` h → (length l ≤ i)%nat → l `prefix_of` alter f i h.
Proof.
  intros [k ->] Hi. rewrite alter_app_r_alt by done. by apply prefix_app_r.
Qed.

Lemma extends_frame s s' i :
  extends s s' → (i < length (heap s))%nat → heap s' !! i = heap s !! i.
Proof. intros (H & _) Hi. symmetry. by apply prefix_lookup_lt. Qed.

Lemma cloneChildren_spec fuel :
  cloneSpec fuel →
  ∀ l kids s, wfState s → Forall2 (λ c t, shape s fuel c = Some t) l kids →
    ∃ cs s',
      mapRefs (λ c, VirtualElement.cloneNode fuel c true) l s = Ok cs s' ∧
      extends s s' ∧ wfState s' ∧
      Forall2 (λ c m, snapshotOf (length (heap s)) fuel s c s' m) l cs ∧
      Forall (λ m, (length (heap s) ≤ m < length (heap s'))%nat) cs.
Proof.
  intros IHf l. induction l as [|c l IH]; intros kids s Hwf Hsh.
  - exists [], s. split_and!; by try apply extends_refl.
  - apply Forall2_cons_inv_l in Hsh as (t & kids' & Ht & Hkids & ->).
    destruct (IHf s c t Hwf Ht) as (s1 & Hrun1 & Hext1 & Hwf1 & Hlen1 & Hsnap1).
    destruct (IH kids' s1 Hwf1) as (cs & s2 & Hrun2 & Hext2 & Hwf2 & Hsnap2 & Hb2).
    { eapply Forall2_impl; [exact Hkids|]. intros c' t'. by apply shape_extends. }
    pose proof (extends_length _ _ Hext2) as Hlen2.
    exists (length (heap s) :: cs), s2. split_and!.
    + simpl. munfold. by rewrite Hrun1, Hrun2.
    + by eapply extends_trans.
    + done.
    + constructor.
      * eapply snapshotOf_frame; [|exact Hsnap1].
        intros i _ Hi. by apply extends_frame.
      * eapply Forall2_impl_in; [exact Hsnap2|]. intros c' m' Hin Hs.
        destruct (Forall2_exists_r _ _ _ _ Hkids Hin) as [t' Ht'].
        eapply (snapshotOf_lo (length (heap s1))); [lia|].
        eapply snapshotOf_rebase; [exact Hext1|exact Ht'|exact Hs].
    + constructor; [lia|]. eapply Forall_impl; [exact Hb2|]. simpl. lia.
Qed.

Lemma cloneNode_spec fuel : cloneSpec fuel.
Proof.
  induction fuel as [|fuel IH]; intros s n t Hwf Hshape; [done|].
  simpl in Hshape. destruct (heap s !! n) as [e|] eqn:He; [|done].
  destruct (mapM (shape s fuel) (children e)) as [kids|] eqn:Hk; [|done].
  clear Hshape. apply mapM_Some in Hk.
  pose proof (extends_withHeader s e) as Hext0.
  destruct (cloneChildren_spec fuel IH (children e) kids (withHeader e s))
    as (cs & s5 & Hrun & Hext & Hwf5 & Hsnap & Hb).
  { by eapply wfState_withHeader. }
  { eapply Forall2_impl; [exact Hk|]. intros c' t'. by apply shape_extends. }
  assert (heap s5 !! length (heap s) = Some (cloneHeader e)) as Hclone.
  { eapply extends_lookup; [exact Hext|]. simpl. by apply list_lookup_middle. }
  pose proof (extends_length _ _ Hext) as Hlen. simpl in Hlen.
  rewrite length_app in Hlen. simpl in Hlen.
  exists (modElem (length (heap s)) (with_children cs) s5).
  split_and!.
  - rewrite (cloneNode_unfold _ _ _ _ He), Hrun. by rewrite Hclone.
  - pose proof (extends_trans _ _ _ Hext0 Hext) as (H1 & H2 & H3 & H4 & H5).
    unfold extends, modElem. simpl. split_and!; try done.
    by apply prefix_alter_ge.
  - apply wfState_modElem; [done|]. intros e' He' (Ha & Hd & _ & Hp).
    unfold wfElement. simpl. split_and!; try done.
    eapply Forall_impl; [exact Hb|]. unfold validElem. simpl. lia.
  - unfold modElem. simpl. rewrite length_alter. lia.
  - simpl. exists e, (with_children cs (cloneHeader e)). split_and!; try done.
    + unfold modElem. simpl. by rewrite list_lookup_alter_eq, Hclone.
    + simpl. eapply Forall2_impl_in; [exact Hsnap|]. intros c m Hin Hs.
      destruct (Forall2_exists_r _ _ _ _ Hk Hin) as [tc Htc].
      eapply (snapshotOf_lo (length (heap (withHeader e s))));
        [|eapply snapshotOf_rebase; [exact Hext0|exact Htc|]].
      { simpl. rewrite length_app. simpl. lia. }
      eapply snapshotOf_frame; [|exact Hs].
      intros i Hi _. unfold modElem. simpl.
      apply list_lookup_alter_ne. simpl in Hi. rewrite length_app in Hi.
      simpl in Hi. lia.
Qed.

(** ** Running the steps of a mutation *)

Lemma bind_ok {A B} (m : M A) (k : A → M B) s a s' :
  m s = Ok a s' → bind m k s = k a s'.
Proof. unfold bind. by intros ->. Qed.

Lemma getElement_run s r e : heap s !! r = Some e → getElement r s = Ok e s.
Proof. unfold getElement. by intros ->. Qed.

Lemma getDom_run s d t : domHeap s !! d = Some t → getDom d s = Ok t s.
Proof. unfold getDom. by intros ->. Qed.

Lemma updElement_run s r f :
  (r < length (heap s))%nat → updElement r f s = Ok tt (modElem r f s).
Proof.
  intros H. unfold updElement. by destruct (lookup_lt_is_Some_2 _ _ H) as [e ->].
Qed.

Lemma updDom_run s d f :
  (d < length (domHeap s))%nat → updDom d f s = Ok tt (modDom d f s).
Proof.
  intros H. unfold updDom. by destruct (lookup_lt_is_Some_2 _ _ H) as [e ->].
Qed.

Lemma updAttrs_run s a f :
  (a < length (attrHeap s))%nat → updAttrs a f s = Ok tt (modAttrs a f s).
Proof.
  intros H. unfold updAttrs. by destruct (lookup_lt_is_Some_2 _ _ H) as [e ->].
Qed.

Lemma notifyTreeChange_run s d e e2 :
  (d < length (domHeap s))%nat →
  VirtualDOM._notifyTreeChange d e e2 s = Ok tt (delivered d e e2 s).
Proof.
  intros H. unfold VirtualDOM._notifyTreeChange, delivered, deliveries, listenersOf.
  munfold. by destruct (lookup_lt_is_Some_2 _ _ H) as [t ->].
Qed.

(** Sizes of the arenas under the writes. *)
Lemma heap_modElem r f s : length (heap (modElem r f s)) = length (heap s).
Proof. unfold modElem. simpl. apply length_alter. Qed.
Lemma heap_modDom d f s : heap (modDom d f s) = heap s.
Proof. done. Qed.
Lemma heap_modAttrs a f s : heap (modAttrs a f s) = heap s.
Proof. done. Qed.
Lemma heap_delivered d e e2 s : heap (delivered d e e2 s) = heap s.
Proof. done. Qed.
Lemma domHeap_modElem r f s : domHeap (modElem r f s) = domHeap s.
Proof. done. Qed.
Lemma domHeap_modAttrs a f s : domHeap (modAttrs a f s) = domHeap s.
Proof. done. Qed.
Lemma domHeap_delivered d e e2 s : domHeap (delivered d e e2 s) = domHeap s.
Proof. done. Qed.
Lemma domHeap_modDom d f s : length (domHeap (modDom d f s)) = length (domHeap s).
Proof. unfold modDom. simpl. apply length_alter. Qed.
Lemma attrHeap_modElem r f s : attrHeap (modElem r f s) = attrHeap s.
Proof. done. Qed.
Lemma attrHeap_modDom d f s : attrHeap (modDom d f s) = attrHeap s.
Proof. done. Qed.
Lemma attrHeap_modAttrs a f s :
  length (attrHeap (modAttrs a f s)) = length (attrHeap s).
Proof. unfold modAttrs. simpl. apply length_alter. Qed.
Lemma notifications_modElem r f s : notifications (modElem r f s) = notifications s.
Proof. done. Qed.
Lemma notifications_modDom d f s : notifications (modDom d f s) = notifications s.
Proof. done. Qed.
Lemma notifications_modAttrs a f s :
  notifications (modAttrs a f s) = notifications s.
Proof. done. Qed.

Create Rewrite HintDb store.
#[global] Hint Rewrite heap_modElem heap_modDom heap_modAttrs heap_delivered
  domHeap_modElem domHeap_modAttrs domHeap_delivered domHeap_modDom
  attrHeap_modElem attrHeap_modDom attrHeap_modAttrs
  notifications_modElem notifications_modDom notifications_modAttrs : store.

Lemma docOf_modElem s r f n : keepsDoc f → docOf (modElem r f s) n = docOf s n.
Proof.
  intros Hf. unfold docOf, modElem. simpl.
  destruct (decide (r = n)) as [->|Hne].
  - rewrite list_lookup_alter_eq. destruct (heap s !! n); simpl; [|done].
    by rewrite Hf.
  - by rewrite list_lookup_alter_ne.
Qed.

Lemma docOf_modDom s d f n : docOf (modDom d f s) n = docOf s n.
Proof. done. Qed.
Lemma docOf_modAttrs s a f n : docOf (modAttrs a f s) n = docOf s n.
Proof. done. Qed.
Lemma docOf_delivered s d e e2 n : docOf (delivered d e e2 s) n = docOf s n.
Proof. done. Qed.

Lemma docOf_extends s s' n d : extends s s' → docOf s n = Some d → docOf s' n = Some d.
Proof.
  unfold docOf. intros Hext. destruct (heap s !! n) as [e|] eqn:He; [|done].
  by rewrite (extends_lookup _ _ _ _ Hext He).
Qed.

Lemma notify_run s this oldVer d :
  docOf s this = Some d → (d < length (domHeap s))%nat →
  VirtualElement.notify this oldVer s = Ok tt (delivered d this oldVer s).
Proof.
  unfold docOf, VirtualElement.notify. intros Hd Hlt.
  destruct (heap s !! this) as [e|] eqn:He; [|done]. injection Hd as <-.
  rewrite (bind_ok _ _ _ _ _ (getElement_run _ _ _ He)).
  by apply notifyTreeChange_run.
Qed.

Lemma listenersOf_modDom s d f d' :
  keepsListeners f → listenersOf (modDom d f s) d' = listenersOf s d'.
Proof.
  intros Hf. unfold listenersOf, modDom. simpl.
  destruct (decide (d = d')) as [->|Hne].
  - rewrite list_lookup_alter_eq. destruct (domHeap s !! d'); simpl; [|done].
    by rewrite Hf.
  - by rewrite list_lookup_alter_ne.
Qed.

Lemma listenersOf_modElem s r f d : listenersOf (modElem r f s) d = listenersOf s d.
Proof. done. Qed.
Lemma listenersOf_modAttrs s a f d : listenersOf (modAttrs a f s) d = listenersOf s d.
Proof. done. Qed.
Lemma listenersOf_delivered s d0 e e2 d :
  listenersOf (delivered d0 e e2 s) d = listenersOf s d.
Proof. done. Qed.
Lemma listenersOf_extends s s' d : extends s s' → listenersOf s' d = listenersOf s d.
Proof. intros (_ & _ & H & _). unfold listenersOf. by rewrite H. Qed.

#[global] Hint Rewrite docOf_modElem using (by intros ?) : store.
#[global] Hint Rewrite docOf_modDom docOf_modAttrs docOf_delivered
  listenersOf_modElem listenersOf_modAttrs listenersOf_delivered : store.
#[global] Hint Rewrite listenersOf_modDom using (by intros ?) : store.

Lemma getElement_doc s r d :
  docOf s r = Some d → ∃ e, getElement r s = Ok e s ∧ parentDocument e = d.
Proof.
  unfold docOf, getElement. destruct (heap s !! r) as [e|]; [|done].
  intros [= <-]. by exists e.
Qed.

Lemma cloned_exists fuel s this t :
  wfState s → shape s fuel this = Some t → ∃ s1, cloned fuel s this s1.
Proof. intros Hwf Hsh. destruct (cloneNode_spec fuel s this t Hwf Hsh) as [s1 H]. by exists s1. Qed.

(** Facts about sizes that the side conditions of the steps need. *)
Ltac sizes :=
  unfold validElem in *; autorewrite with store in *; simpl in *; try lia.

(** Run the step at the head of a sequence. *)
Ltac step_upd :=
  first [ erewrite bind_ok by (apply updElement_run; sizes)
        | erewrite bind_ok by (apply updDom_run; sizes)
        | erewrite bind_ok by (apply updAttrs_run; sizes) ]; cbv beta.

Ltac step_get Hdoc :=
  match goal with
  | |- bind (getElement ?r) _ ?s = _ =>
      let e := fresh "e" in
      let Hg := fresh "Hg" in
      let Hd := fresh "Hd" in
      destruct (getElement_doc s r _ ltac:(autorewrite with store; exact Hdoc))
        as (e & Hg & Hd);
      rewrite (bind_ok _ _ _ _ _ Hg); cbv beta; rewrite Hd; clear e Hg Hd
  end.

Ltac step_notify Hdoc :=
  apply notify_run; [autorewrite with store; exact Hdoc | sizes].

Section ElementRuns.
Variables (fuel : nat) (s s1 : State) (this : ref) (e : VirtualElement).
Hypothesis Hwf : wfState s.
Hypothesis He : heap s !! this = Some e.
Hypothesis Hcloned : cloned fuel s this s1.

Let d := parentDocument e.
Let snap := length (heap s).

Lemma run_this_valid : (this < length (heap s))%nat.
Proof. by eapply lookup_lt_Some. Qed.

Lemma run_doc_valid : (d < length (domHeap s1))%nat.
Proof.
  destruct Hcloned as (_ & (_ & _ & -> & _) & _).
  by destruct (wfState_elem _ _ _ Hwf He) as (_ & ? & _).
Qed.

Lemma run_docOf : docOf s1 this = Some d.
Proof.
  destruct Hcloned as (_ & Hext & _). eapply docOf_extends; [done|].
  unfold docOf. by rewrite He.
Qed.

Lemma run_len : (length (heap s) < length (heap s1))%nat.
Proof. by destruct Hcloned as (_ & _ & _ & ? & _). Qed.

Lemma appendChild_run child :
  validElem s child →
  VirtualElement.appendChild fuel this child s
  = Ok tt (delivered d this snap
            (modDom d (λ t, with_domChildren (domChildren t ++ [child]) t)
               (modElem child (with_parent (Some this))
                  (modElem this (λ e, with_children (children e ++ [child]) e)
                     s1)))).
Proof.
  intros Hchild.
  pose proof run_this_valid. pose proof run_doc_valid. pose proof run_len.
  pose proof run_docOf as Hdoc.
  unfold VirtualElement.appendChild.
  rewrite (bind_ok _ _ _ _ _ (proj1 Hcloned)).
  do 2 step_upd. step_get Hdoc. step_upd. step_notify Hdoc.
Qed.

Lemma run_this_after : heap s1 !! this = Some e.
Proof. destruct Hcloned as (_ & Hext & _). by eapply extends_lookup. Qed.

Lemma run_attrs_valid : (attributes e < length (attrHeap s1))%nat.
Proof.
  destruct Hcloned as (_ & (_ & Ha%prefix_length & _) & _).
  destruct (wfState_elem _ _ _ Hwf He) as (? & _). lia.
Qed.

Lemma setAttribute_run name value :
  VirtualElement.setAttribute fuel this name value s
  = Ok tt (delivered d this snap
            (modAttrs (attributes e) (attrSet name value) s1)).
Proof.
  pose proof run_doc_valid. pose proof run_attrs_valid.
  pose proof run_docOf as Hdoc.
  unfold VirtualElement.setAttribute.
  rewrite (bind_ok _ _ _ _ _ (proj1 Hcloned)).
  rewrite (bind_ok _ _ _ _ _ (getElement_run _ _ _ run_this_after)).
  step_upd. step_notify Hdoc.
Qed.

Lemma removeAttribute_run name :
  VirtualElement.removeAttribute fuel this name s
  = Ok tt (delivered d this snap
            (modAttrs (attributes e) (attrDelete name) s1)).
Proof.
  pose proof run_doc_valid. pose proof run_attrs_valid.
  pose proof run_docOf as Hdoc.
  unfold VirtualElement.removeAttribute.
  rewrite (bind_ok _ _ _ _ _ (proj1 Hcloned)).
  rewrite (bind_ok _ _ _ _ _ (getElement_run _ _ _ run_this_after)).
  step_upd. step_notify Hdoc.
Qed.

Lemma replaceChild_absent child oldChild :
  oldChild ∉ children e →
  VirtualElement.replaceChild fuel this child oldChild s
  = Throw CannotFindOldChild s.
Proof.
  intros Hout. unfold VirtualElement.replaceChild.
  rewrite (bind_ok _ _ _ _ _ (getElement_run _ _ _ He)).
  by rewrite (proj2 (includes_false _ _) Hout).
Qed.

Lemma replaceChild_run child oldChild :
  validElem s child → oldChild ∈ children e →
  VirtualElement.replaceChild fuel this child oldChild s
  = Ok tt (delivered d this snap
            (modDom d (λ t, with_domChildren
                              (arraySet (indexOf (domChildren t) oldChild) child
                                        (domChildren t)) t)
               (modElem child (with_parent (Some this))
                  (modElem this
                     (λ e, with_children
                             (arraySet (indexOf (children e) oldChild) child
                                       (children e)) e)
                     s1)))).
Proof.
  intros Hchild Hin.
  pose proof run_this_valid. pose proof run_doc_valid. pose proof run_len.
  pose proof run_docOf as Hdoc.
  unfold VirtualElement.replaceChild.
  rewrite (bind_ok _ _ _ _ _ (getElement_run _ _ _ He)).
  rewrite (proj2 (includes_true _ _) Hin). cbn [negb].
  rewrite (bind_ok _ _ _ _ _ (proj1 Hcloned)).
  do 2 step_upd. step_get Hdoc. step_upd. step_notify Hdoc.
Qed.

Lemma removeChild_run child :
  validElem s child →
  VirtualElement.removeChild fuel this child s
  = Ok tt (delivered d this snap
            (modDom d (λ t, with_domChildren
                              (splice (indexOf (domChildren t) child) 1 []
                                      (domChildren t)) t)
               (modElem child (with_isRemoved true)
                  (modElem this
                     (λ e, with_children
                             (splice (indexOf (children e) child) 1 []
                                     (children e)) e)
                     s1)))).
Proof.
  intros Hchild.
  pose proof run_this_valid. pose proof run_doc_valid. pose proof run_len.
  pose proof run_docOf as Hdoc.
  unfold VirtualElement.removeChild.
  rewrite (bind_ok _ _ _ _ _ (proj1 Hcloned)).
  do 2 step_upd. step_get Hdoc. step_upd. step_notify Hdoc.
Qed.

Lemma set_firstChild_run c :
  VirtualElement.set_firstChild fuel this c s
  = Ok tt (delivered d this snap
            (modElem this (λ e, with_children (arraySet 0 c (children e)) e) s1)).
Proof.
  pose proof run_this_valid. pose proof run_doc_valid. pose proof run_len.
  pose proof run_docOf as Hdoc.
  unfold VirtualElement.set_firstChild.
  rewrite (bind_ok _ _ _ _ _ (proj1 Hcloned)).
  step_upd. step_notify Hdoc.
Qed.

Lemma set_lastChild_run c :
  VirtualElement.set_lastChild fuel this c s
  = Ok tt (delivered d this snap
            (modElem this
               (λ e, with_children
                       (arraySet (Z.of_nat (length (children e)) - 1) c
                                 (children e)) e)
               s1)).
Proof.
  pose proof run_this_valid. pose proof run_doc_valid. pose proof run_len.
  pose proof run_docOf as Hdoc.
  unfold VirtualElement.set_lastChild.
  rewrite (bind_ok _ _ _ _ _ (proj1 Hcloned)).
  step_upd. step_notify Hdoc.
Qed.

Lemma set_innerText_run value :
  VirtualElement.set_innerText fuel this value s
  = Ok tt (delivered d this snap (modElem this (with_innerText value) s1)).
Proof.
  pose proof run_this_valid. pose proof run_doc_valid. pose proof run_len.
  pose proof run_docOf as Hdoc.
  unfold VirtualElement.set_innerText.
  rewrite (bind_ok _ _ _ _ _ (proj1 Hcloned)).
  step_upd. step_notify Hdoc.
Qed.

(** [prepend], by case: the node is top-level; it is not but has a
    parent; it is neither. *)
Lemma prepend_run_top element t :
  validElem s element → domHeap s !! d = Some t → this ∈ directChildren t →
  VirtualElement.prepend fuel this element s
  = Ok tt (delivered d this snap
            (modElem element (with_parent (Some this))
               (modDom d (with_directChildren
                            (splice (indexOf (directChildren t) this) 0 [element]
                                    (directChildren t)))
                  s1))).
Proof.
  intros Helem Ht Hin.
  pose proof run_this_valid. pose proof run_doc_valid. pose proof run_len.
  pose proof run_docOf as Hdoc.
  assert (domHeap s1 !! d = Some t) as Ht1.
  { destruct Hcloned as (_ & (_ & _ & -> & _) & _). done. }
  unfold VirtualElement.prepend.
  rewrite (bind_ok _ _ _ _ _ (proj1 Hcloned)).
  rewrite (bind_ok _ _ _ _ _ (getElement_run _ _ _ run_this_after)).
  rewrite (bind_ok _ _ _ _ _ (getDom_run _ _ _ Ht1)).
  rewrite (proj2 (includes_true _ _) Hin).
  erewrite bind_ok; [step_notify Hdoc|]. fold d.
  step_upd. apply updElement_run. sizes.
Qed.

Lemma prepend_run_parent element t p pe :
  validElem s element → domHeap s !! d = Some t → this ∉ directChildren t →
  parent e = Some p → heap s !! p = Some pe →
  VirtualElement.prepend fuel this element s
  = Ok tt (delivered d this snap
            (modDom d (λ t, with_domChildren
                              (splice (indexOf (domChildren t) this) 0 [element]
                                      (domChildren t)) t)
               (modElem p (with_children
                             (splice (indexOf (children pe) this) 0 [element]
                                     (children pe)))
                  s1))).
Proof.
  intros Helem Ht Hout Hp Hpe.
  pose proof run_this_valid. pose proof run_doc_valid. pose proof run_len.
  pose proof run_docOf as Hdoc.
  assert (domHeap s1 !! d = Some t) as Ht1.
  { destruct Hcloned as (_ & (_ & _ & -> & _) & _). done. }
  assert (heap s1 !! p = Some pe) as Hpe1.
  { destruct Hcloned as (_ & Hext & _). by eapply extends_lookup. }
  pose proof (lookup_lt_Some _ _ _ Hpe).
  unfold VirtualElement.prepend.
  rewrite (bind_ok _ _ _ _ _ (proj1 Hcloned)).
  rewrite (bind_ok _ _ _ _ _ (getElement_run _ _ _ run_this_after)).
  rewrite (bind_ok _ _ _ _ _ (getDom_run _ _ _ Ht1)).
  rewrite (proj2 (includes_false _ _) Hout), Hp.
  erewrite bind_ok; [step_notify Hdoc|]. fold d.
  rewrite (bind_ok _ _ _ _ _ (getElement_run _ _ _ Hpe1)).
  step_upd. apply updDom_run. sizes.
Qed.

Lemma prepend_run_orphan element t :
  domHeap s !! d = Some t → this ∉ directChildren t → parent e = None →
  VirtualElement.prepend fuel this element s = Throw NoParent s1.
Proof.
  intros Ht Hout Hp.
  assert (domHeap s1 !! d = Some t) as Ht1.
  { destruct Hcloned as (_ & (_ & _ & -> & _) & _). done. }
  unfold VirtualElement.prepend.
  rewrite (bind_ok _ _ _ _ _ (proj1 Hcloned)).
  rewrite (bind_ok _ _ _ _ _ (getElement_run _ _ _ run_this_after)).
  rewrite (bind_ok _ _ _ _ _ (getDom_run _ _ _ Ht1)).
  by rewrite (proj2 (includes_false _ _) Hout), Hp.
Qed.
End ElementRuns.

(** The same for the operations of the tree. *)
Section DomRuns.
Variables (s : State) (d : dref) (t : VirtualDOM).
Hypothesis Ht : domHeap s !! d = Some t.

Lemma dom_valid : (d < length (domHeap s))%nat.
Proof. by eapply lookup_lt_Some. Qed.

Lemma indexOf_found_ne (l : list nat) x : x ∈ l → (indexOf l x =? -1)%Z = false.
Proof.
  intros Hin. apply Z.eqb_neq. intros Habs. by apply indexOf_absent in Habs.
Qed.

Lemma indexOf_absent_eq (l : list nat) x : x ∉ l → (indexOf l x =? -1)%Z = true.
Proof. intros Hout. apply Z.eqb_eq. by apply indexOf_absent. Qed.

Lemma dom_removeChild_top element :
  validElem s element → element ∈ directChildren t →
  VirtualDOM.removeChild d element s
  = Ok tt (modElem element (with_isRemoved true)
            (modDom d (with_directChildren
                         (splice (indexOf (directChildren t) element) 1 []
                                 (directChildren t))) s)).
Proof.
  intros Hv Hin. pose proof dom_valid. unfold VirtualDOM.removeChild.
  rewrite (bind_ok _ _ _ _ _ (getDom_run _ _ _ Ht)).
  rewrite (indexOf_found_ne _ _ Hin). cbn [negb].
  step_upd. apply updElement_run. sizes.
Qed.

Lemma dom_removeChild_deep element :
  validElem s element → element ∉ directChildren t → element ∈ domChildren t →
  VirtualDOM.removeChild d element s
  = Ok tt (modElem element (with_isRemoved true)
            (modDom d (with_domChildren
                         (splice (indexOf (domChildren t) element) 1 []
                                 (domChildren t))) s)).
Proof.
  intros Hv Hout Hin. pose proof dom_valid. unfold VirtualDOM.removeChild.
  rewrite (bind_ok _ _ _ _ _ (getDom_run _ _ _ Ht)).
  rewrite (indexOf_absent_eq _ _ Hout). cbn [negb].
  rewrite (indexOf_found_ne _ _ Hin).
  step_upd. apply updElement_run. sizes.
Qed.

Lemma dom_removeChild_absent element :
  element ∉ directChildren t → element ∉ domChildren t →
  VirtualDOM.removeChild d element s = Throw ElementNotFound s.
Proof.
  intros Hout Hout'. unfold VirtualDOM.removeChild.
  rewrite (bind_ok _ _ _ _ _ (getDom_run _ _ _ Ht)).
  rewrite (indexOf_absent_eq _ _ Hout). cbn [negb].
  by rewrite (indexOf_absent_eq _ _ Hout').
Qed.

Lemma dom_appendChild_run child c :
  heap s !! child = Some c →
  VirtualDOM.appendChild d child s
  = Ok tt (if isRemoved c then s
           else modElem child (with_parent None)
                  (modDom d (with_directChildren (directChildren t ++ [child])) s)).
Proof.
  intros Hc. pose proof dom_valid. pose proof (lookup_lt_Some _ _ _ Hc).
  unfold VirtualDOM.appendChild.
  rewrite (bind_ok _ _ _ _ _ (getDom_run _ _ _ Ht)).
  rewrite (bind_ok _ _ _ _ _ (getElement_run _ _ _ Hc)).
  destruct (isRemoved c); [done|].
  step_upd. apply updElement_run. sizes.
Qed.


Lemma dom_replaceChild_run child c oldChild :
  heap s !! child = Some c →
  VirtualDOM.replaceChild d child oldChild s
  = if isRemoved c then Ok tt s
    else if bool_decide (oldChild ∈ directChildren t) then
      Ok tt (modDom d (with_directChildren
                         (arraySet (indexOf (directChildren t) oldChild) child
                                   (directChildren t))) s)
    else if bool_decide (oldChild ∈ domChildren t) then
      Ok tt (modDom d (with_domChildren
                         (arraySet (indexOf (domChildren t) oldChild) child
                                   (domChildren t))) s)
    else Throw CannotFindChild s.
Proof.
  intros Hc. pose proof dom_valid.
  unfold VirtualDOM.replaceChild, includes.
  rewrite (bind_ok _ _ _ _ _ (getDom_run _ _ _ Ht)).
  rewrite (bind_ok _ _ _ _ _ (getElement_run _ _ _ Hc)).
  destruct (isRemoved c); [done|].
  destruct (bool_decide (oldChild ∈ directChildren t)).
  { apply updDom_run. sizes. }
  destruct (bool_decide (oldChild ∈ domChildren t)); [|done].
  apply updDom_run. sizes.
Qed.
End DomRuns.

(** [remove], by case: the node is top-level; it is not but has a parent,
    whose [removeChild] then runs with a snapshot and a notification of its
    own; it has neither. *)
Section RemoveRuns.
Variables (fuel : nat) (s s1 : State) (this : ref) (e : VirtualElement)
          (t : VirtualDOM).
Hypothesis Hwf : wfState s.
Hypothesis He : heap s !! this = Some e.
Hypothesis Ht : domHeap s !! parentDocument e = Some t.
Hypothesis Hcloned : cloned fuel s this s1.

Let d := parentDocument e.
Let snap := length (heap s).

Lemma remove_doc_after : domHeap s1 !! d = Some t.
Proof. destruct Hcloned as (_ & (_ & _ & -> & _) & _). done. Qed.

Lemma remove_run_top :
  this ∈ directChildren t →
  VirtualElement.remove fuel this s
  = Ok tt (delivered d this snap
            (modElem this (with_isRemoved true)
               (modDom d (with_directChildren
                            (splice (indexOf (directChildren t) this) 1 []
                                    (directChildren t))) s1))).
Proof.
  intros Hin.
  pose proof (run_this_valid s this e He).
  pose proof (run_doc_valid fuel s s1 this e Hwf He Hcloned).
  pose proof (run_len fuel s s1 this Hcloned).
  pose proof (run_docOf fuel s s1 this e He Hcloned) as Hdoc.
  unfold VirtualElement.remove.
  rewrite (bind_ok _ _ _ _ _ (proj1 Hcloned)).
  rewrite (bind_ok _ _ _ _ _
             (getElement_run _ _ _ (run_this_after fuel s s1 this e He Hcloned))).
  rewrite (bind_ok _ _ _ _ _ (getDom_run _ _ _ remove_doc_after)).
  rewrite (proj2 (includes_true _ _) Hin).
  erewrite bind_ok; [step_notify Hdoc|].
  apply (dom_removeChild_top s1 d t remove_doc_after); [sizes|done].
Qed.

Lemma remove_run_orphan :
  this ∉ directChildren t → parent e = None →
  VirtualElement.remove fuel this s
  = Ok tt (delivered d this snap (modElem this (with_isRemoved true) s1)).
Proof.
  intros Hout Hp.
  pose proof (run_this_valid s this e He).
  pose proof (run_doc_valid fuel s s1 this e Hwf He Hcloned).
  pose proof (run_len fuel s s1 this Hcloned).
  pose proof (run_docOf fuel s s1 this e He Hcloned) as Hdoc.
  unfold VirtualElement.remove.
  rewrite (bind_ok _ _ _ _ _ (proj1 Hcloned)).
  rewrite (bind_ok _ _ _ _ _
             (getElement_run _ _ _ (run_this_after fuel s s1 this e He Hcloned))).
  rewrite (bind_ok _ _ _ _ _ (getDom_run _ _ _ remove_doc_after)).
  rewrite (proj2 (includes_false _ _) Hout), Hp.
  erewrite bind_ok; [step_notify Hdoc|].
  apply updElement_run. sizes.
Qed.

Lemma remove_run_parent p pe s2 :
  this ∉ directChildren t → parent e = Some p → heap s !! p = Some pe →
  cloned fuel s1 p s2 →
  VirtualElement.remove fuel this s
  = Ok tt (delivered d this snap
            (delivered (parentDocument pe) p (length (heap s1))
               (modDom (parentDocument pe)
                  (λ t, with_domChildren
                          (splice (indexOf (domChildren t) this) 1 []
                                  (domChildren t)) t)
                  (modElem this (with_isRemoved true)
                     (modElem p
                        (λ e, with_children
                                (splice (indexOf (children e) this) 1 []
                                        (children e)) e)
                        s2))))).
Proof.
  intros Hout Hp Hpe Hcloned2.
  pose proof (run_this_valid s this e He).
  pose proof (run_doc_valid fuel s s1 this e Hwf He Hcloned).
  pose proof (run_len fuel s s1 this Hcloned).
  pose proof (run_docOf fuel s s1 this e He Hcloned) as Hdoc.
  pose proof Hcloned as (_ & Hext1 & Hwf1 & _).
  pose proof Hcloned2 as (_ & Hext2 & _ & Hlen2 & _).
  assert (heap s1 !! p = Some pe) as Hpe1 by by eapply extends_lookup.
  assert (docOf s2 this = Some d) as Hdoc2 by by eapply docOf_extends.
  pose proof Hext2 as (_ & _ & Hdom2 & _).
  unfold VirtualElement.remove.
  rewrite (bind_ok _ _ _ _ _ (proj1 Hcloned)).
  rewrite (bind_ok _ _ _ _ _
             (getElement_run _ _ _ (run_this_after fuel s s1 this e He Hcloned))).
  rewrite (bind_ok _ _ _ _ _ (getDom_run _ _ _ remove_doc_after)).
  rewrite (proj2 (includes_false _ _) Hout), Hp.
  erewrite bind_ok; [step_notify Hdoc2|].
  { rewrite Hdom2. sizes. }
  apply (removeChild_run fuel s1 s2 p pe Hwf1 Hpe1 Hcloned2). sizes.
Qed.
End RemoveRuns.

(** ** Reading fields off a store *)

Lemma fieldOf_modElem_keep {A} (π : VirtualElement → A) s r f n :
  (∀ e, π (f e) = π e) → fieldOf π (modElem r f s) n = fieldOf π s n.
Proof.
  intros Hf. unfold fieldOf, modElem. simpl.
  destruct (decide (r = n)) as [->|Hne].
  - rewrite list_lookup_alter_eq. destruct (heap s !! n); simpl; [|done].
    by rewrite Hf.
  - by rewrite list_lookup_alter_ne.
Qed.

Lemma fieldOf_modElem_eq {A} (π : VirtualElement → A) s r f :
  fieldOf π (modElem r f s) r = fieldOf (π ∘ f) s r.
Proof.
  unfold fieldOf, modElem. simpl. rewrite list_lookup_alter_eq.
  by destruct (heap s !! r).
Qed.

Lemma fieldOf_modDom {A} (π : VirtualElement → A) s d f n :
  fieldOf π (modDom d f s) n = fieldOf π s n.
Proof. done. Qed.
Lemma fieldOf_modAttrs {A} (π : VirtualElement → A) s a f n :
  fieldOf π (modAttrs a f s) n = fieldOf π s n.
Proof. done. Qed.
Lemma fieldOf_delivered {A} (π : VirtualElement → A) s d e e2 n :
  fieldOf π (delivered d e e2 s) n = fieldOf π s n.
Proof. done. Qed.

Lemma fieldOf_extends {A} (π : VirtualElement → A) s s' n :
  extends s s' → (n < length (heap s))%nat → fieldOf π s' n = fieldOf π s n.
Proof. intros Hext Hn. unfold fieldOf. by rewrite (extends_frame _ _ _ Hext Hn). Qed.

Lemma domField_modDom_eq {A} (π : VirtualDOM → A) s d f :
  domField π (modDom d f s) d = domField (π ∘ f) s d.
Proof.
  unfold domField, modDom. simpl. rewrite list_lookup_alter_eq.
  by destruct (domHeap s !! d).
Qed.

Lemma domField_modDom_ne {A} (π : VirtualDOM → A) s d f d' :
  d ≠ d' → domField π (modDom d f s) d' = domField π s d'.
Proof.
  intros Hne. unfold domField, modDom. simpl. by rewrite list_lookup_alter_ne.
Qed.

Lemma domField_modDom_keep {A} (π : VirtualDOM → A) s d f d' :
  (∀ t, π (f t) = π t) → domField π (modDom d f s) d' = domField π s d'.
Proof.
  intros Hf. destruct (decide (d = d')) as [->|Hne].
  - rewrite domField_modDom_eq. unfold domField.
    destruct (domHeap s !! d'); simpl; [|done]. by rewrite Hf.
  - by apply domField_modDom_ne.
Qed.

Lemma domField_modElem {A} (π : VirtualDOM → A) s r f d :
  domField π (modElem r f s) d = domField π s d.
Proof. done. Qed.
Lemma domField_modAttrs {A} (π : VirtualDOM → A) s a f d :
  domField π (modAttrs a f s) d = domField π s d.
Proof. done. Qed.
Lemma domField_delivered {A} (π : VirtualDOM → A) s d0 e e2 d :
  domField π (delivered d0 e e2 s) d = domField π s d.
Proof. done. Qed.

#[global] Hint Rewrite @fieldOf_modDom @fieldOf_modAttrs @fieldOf_delivered
  @domField_modElem @domField_modAttrs @domField_delivered : store.

(** Reading an array of a tree after a write to that tree. *)
Ltac dom_field Ht :=
  rewrite ?domField_modElem;
  first [ rewrite domField_modDom_keep by done | rewrite domField_modDom_eq ];
  unfold domField; rewrite ?Ht; simpl.

(** ** [removeChild] and [replaceChild] *)

Lemma firstAt_elem {A} (l : list A) x i : firstAt l x i → x ∈ l.
Proof. intros [H _]. apply list_elem_of_lookup. eauto. Qed.

(** C4, counterexample.  [replaceChild(child, oldChild)] of a tree starts
    with [if(child.$isRemoved) return;]: with node 1 removed and node 2 in
    neither array the call returns without throwing. *)
Lemma dom_replaceChild_removed_no_throw : ¬ dom_replaceChild_throws_iff_absent.
Proof.
  intros H.
  destruct (H oneTopOneRemoved 0%nat (mkDom [0%nat] [] []) 1%nat
              (mkElement "n" true 1%nat [] None 0%nat "" []) 2%nat
              eq_refl eq_refl) as [Hthrow _].
  destruct Hthrow as (err & s' & Hrun); [split; compute_done|].
  vm_compute in Hrun. discriminate.
Qed.

(** What [removeChild] of an element does with a node that is not among its
    children: [indexOf] answers -1 and [splice(-1, 1)] removes the last
    child.  Here node 0 has the children 1 and 2, and node 3 is no child. *)
Example element_removeChild_absent_drops_last :
  let s := stateAfter (
    d <- newVirtualDOM ;;
    p <- VirtualDOM.createElement d "p" ;;
    a <- VirtualDOM.createElement d "a" ;;
    b <- VirtualDOM.createElement d "b" ;;
    c <- VirtualDOM.createElement d "c" ;;
    VirtualDOM.appendChild d p ;;;
    VirtualElement.appendChild 2 p a ;;;
    VirtualElement.appendChild 2 p b ;;;
    VirtualElement.removeChild 2 p c) in
  fieldOf children s 0%nat = Some [1%nat] ∧
  domField domChildren s 0%nat = Some [1%nat].
Proof. by vm_compute. Qed.

(** C4 (amended).  On a tree, [removeChild] throws exactly when the node is
    in neither [directChildren] nor [children], and [replaceChild] does so
    exactly when moreover the new child is not flagged as removed (with a
    removed new child it returns at once, whatever the old child); on an
    element, [replaceChild] throws exactly when the old child is not among
    its children.  A throw leaves the store as it was.  Otherwise the first
    occurrence of the node is removed, or replaced, in the array that holds
    it ([directChildren] before [children] on a tree), and [removeChild]
    sets [$isRemoved] on the node.  [removeChild] of an element does the
    same for a node that is among its children. *)
Theorem removeChild_replaceChild_spec fuel s d t this e x c oldChild tr :
  wfState s → domHeap s !! d = Some t → heap s !! this = Some e →
  heap s !! x = Some c → shape s fuel this = Some tr →
  (* removeChild of the tree *)
  ((x ∉ directChildren t) → (x ∉ domChildren t) →
     VirtualDOM.removeChild d x s = Throw ElementNotFound s) ∧
  (x ∈ directChildren t ∨ x ∈ domChildren t →
     ∃ s', VirtualDOM.removeChild d x s = Ok tt s' ∧
           fieldOf isRemoved s' x = Some true ∧
           (∀ i, firstAt (directChildren t) x i →
              domField directChildren s' d = Some (delete i (directChildren t)) ∧
              domField domChildren s' d = Some (domChildren t)) ∧
           ((x ∉ directChildren t) → ∀ i, firstAt (domChildren t) x i →
              domField directChildren s' d = Some (directChildren t) ∧
              domField domChildren s' d = Some (delete i (domChildren t)))) ∧
  (* replaceChild of the tree *)
  (isRemoved c = true → VirtualDOM.replaceChild d x oldChild s = Ok tt s) ∧
  (isRemoved c = false →
     (oldChild ∉ directChildren t) → (oldChild ∉ domChildren t) →
     VirtualDOM.replaceChild d x oldChild s = Throw CannotFindChild s) ∧
  (isRemoved c = false →
     oldChild ∈ directChildren t ∨ oldChild ∈ domChildren t →
     ∃ s', VirtualDOM.replaceChild d x oldChild s = Ok tt s' ∧
           (∀ i, firstAt (directChildren t) oldChild i →
              domField directChildren s' d = Some (<[i := x]> (directChildren t)) ∧
              domField domChildren s' d = Some (domChildren t)) ∧
           ((oldChild ∉ directChildren t) →
            ∀ i, firstAt (domChildren t) oldChild i →
              domField directChildren s' d = Some (directChildren t) ∧
              domField domChildren s' d = Some (<[i := x]> (domChildren t)))) ∧
  (* replaceChild of the element *)
  ((oldChild ∉ children e) →
     VirtualElement.replaceChild fuel this x oldChild s
     = Throw CannotFindOldChild s) ∧
  (oldChild ∈ children e →
     ∃ s', VirtualElement.replaceChild fuel this x oldChild s = Ok tt s' ∧
           ∀ i, firstAt (children e) oldChild i →
             fieldOf children s' this = Some (<[i := x]> (children e))) ∧
  (* removeChild of the element, for one of its children *)
  (x ∈ children e →
     ∃ s', VirtualElement.removeChild fuel this x s = Ok tt s' ∧
           fieldOf isRemoved s' x = Some true ∧
           ∀ i, firstAt (children e) x i →
             fieldOf children s' this = Some (delete i (children e))).
Proof.
  intros Hwf Ht He Hx Hshape.
  pose proof (lookup_lt_Some _ _ _ Hx) as Hxv.
  destruct (cloned_exists fuel s this tr Hwf Hshape) as [s1 Hcl].
  pose proof Hcl as (_ & Hext & _ & Hlen & _).
  assert (fieldOf children s1 this = Some (children e)) as Hkids.
  { rewrite (fieldOf_extends _ _ _ _ Hext) by by eapply lookup_lt_Some.
    unfold fieldOf. by rewrite He. }
  assert (∀ f, fieldOf isRemoved (modElem x (with_isRemoved true) (modDom d f s)) x
               = Some true) as Hflag.
  { intros f. rewrite fieldOf_modElem_eq. unfold fieldOf. simpl. by rewrite Hx. }
  split_and!.
  - intros. by apply (dom_removeChild_absent s d t).
  - intros Hin. destruct (decide (x ∈ directChildren t)) as [Hin'|Hout].
    + eexists. split; [by apply (dom_removeChild_top s d t)|].
      split; [apply Hflag|]. split; [|done].
      intros i Hi. split; dom_field Ht; [|done].
      by rewrite (splice_delete_found _ _ _ Hi).
    + destruct Hin as [?|Hin]; [done|].
      eexists. split; [by apply (dom_removeChild_deep s d t)|].
      split; [apply Hflag|]. split; [by intros i Hi%firstAt_elem|].
      intros _ i Hi. split; dom_field Ht; [done|].
      by rewrite (splice_delete_found _ _ _ Hi).
  - intros Hr. rewrite (dom_replaceChild_run s d t Ht x c) by done. by rewrite Hr.
  - intros Hr Ho1 Ho2. rewrite (dom_replaceChild_run s d t Ht x c) by done.
    rewrite Hr. by rewrite !bool_decide_eq_false_2.
  - intros Hr Hin. rewrite (dom_replaceChild_run s d t Ht x c) by done.
    rewrite Hr. destruct (decide (oldChild ∈ directChildren t)) as [Hin'|Hout].
    + rewrite bool_decide_eq_true_2 by done. eexists. split; [done|].
      split; [|done]. intros i Hi. split; dom_field Ht; [|done].
      by rewrite (arraySet_found _ _ _ _ Hi).
    + destruct Hin as [?|Hin]; [done|].
      rewrite bool_decide_eq_false_2, bool_decide_eq_true_2 by done.
      eexists. split; [done|]. split; [by intros i Hi%firstAt_elem|].
      intros _ i Hi. split; dom_field Ht; [done|].
      by rewrite (arraySet_found _ _ _ _ Hi).
  - intros Hout. by apply (replaceChild_absent fuel s this e).
  - intros Hin. eexists.
    split; [by apply (replaceChild_run fuel s s1 this e Hwf He Hcl)|].
    intros i Hi. autorewrite with store.
    rewrite fieldOf_modElem_keep by done. rewrite fieldOf_modElem_eq.
    unfold fieldOf in *. destruct (heap s1 !! this) as [e1|]; [|done].
    simpl in *. injection Hkids as ->. by rewrite (arraySet_found _ _ _ _ Hi).
  - intros Hin. eexists.
    split; [by apply (removeChild_run fuel s s1 this e Hwf He Hcl)|]. split.
    + autorewrite with store. rewrite fieldOf_modElem_eq.
      unfold fieldOf. simpl.
      destruct (lookup_lt_is_Some_2 (heap (modElem this
        (λ e0, with_children (splice (indexOf (children e0) x) 1 [] (children e0)) e0)
        s1)) x) as [c' Hc']; [sizes|]. simpl in Hc'. by rewrite Hc'.
    + intros i Hi. autorewrite with store.
      rewrite fieldOf_modElem_keep by done. rewrite fieldOf_modElem_eq.
      unfold fieldOf in *. destruct (heap s1 !! this) as [e1|]; [|done].
      simpl in *. injection Hkids as ->. by rewrite (splice_delete_found _ _ _ Hi).
Qed.

(** ** Snapshots share the attribute record *)

(** Whatever the node, its clone holds the attribute record the node
    itself holds. *)
Lemma cloneNode_same_record fuel s n e t :
  wfState s → heap s !! n = Some e → shape s fuel n = Some t →
  ∃ s', VirtualElement.cloneNode fuel n true s = Ok (length (heap s)) s' ∧
        fieldOf attributes s' (length (heap s)) = Some (attributes e) ∧
        fieldOf attributes s' n = Some (attributes e).
Proof.
  intros Hwf He Hshape. destruct fuel as [|fuel]; [done|].
  simpl in Hshape. rewrite He in Hshape.
  destruct (mapM (shape s fuel) (children e)) as [kids|] eqn:Hk; [|done].
  apply mapM_Some in Hk.
  destruct (cloneChildren_spec fuel (cloneNode_spec fuel) (children e) kids
              (withHeader e s)) as (cs & s5 & Hrun & Hext & _).
  { by eapply wfState_withHeader. }
  { eapply Forall2_impl; [exact Hk|]. intros c' t'.
    apply shape_extends, extends_withHeader. }
  assert (heap s5 !! length (heap s) = Some (cloneHeader e)) as Hclone.
  { eapply extends_lookup; [exact Hext|]. simpl. by apply list_lookup_middle. }
  assert (heap s5 !! n = Some e) as Hn.
  { eapply extends_lookup; [exact Hext|]. simpl.
    rewrite lookup_app_l; [done|]. by eapply lookup_lt_Some. }
  exists (modElem (length (heap s)) (with_children cs) s5). split_and!.
  - rewrite (cloneNode_unfold _ _ _ _ He), Hrun. by rewrite Hclone.
  - unfold fieldOf, modElem. simpl. by rewrite list_lookup_alter_eq, Hclone.
  - unfold fieldOf, modElem. simpl.
    rewrite list_lookup_alter_ne, Hn; [done|].
    apply lookup_lt_Some in He. lia.
Qed.

(** C3, at an input where the code departs from it.  [cloneNode] hands the
    clone the attribute record of the original ([self.attributes =
    attributes]), not a copy: after cloning a fresh [div], an [id] set on
    the clone is read back from the original and a [title] set on the
    original is read back from the clone; both nodes point at record 0. *)
Theorem cloneNode_shares_attributes :
  ∃ s, cloneAliasScenario emptyState
       = Ok (JsString "x", JsString "t", Some 0%nat, Some 0%nat) s.
Proof. eexists. vm_compute. reflexivity. Qed.

(** ** The mutation protocol *)

(** C1, counterexample.  [remove()] on the child hands the work to
    [removeChild] of its parent, which notifies for the parent; [remove]
    then notifies for the child.  The listener is called twice. *)
Lemma remove_notifies_twice : ¬ notifies_exactly_once.
Proof.
  intros H.
  destruct (H 2%nat parentAndChild 1%nat
              (mkElement "span" false 1%nat [] (Some 0%nat) 0%nat "" [])
              (mkDom [0%nat] [1%nat] [7%nat]) (Node 1%nat []) Remove)
    as (s' & snap & Hrun & Hnote); [compute_done|done|done|done|done|].
  vm_compute in Hrun. injection Hrun as <-. vm_compute in Hnote.
  discriminate.
Qed.

Lemma notifications_delivered d e e2 s :
  notifications (delivered d e e2 s)
  = notifications s ++ callsFor (listenersOf s d) e e2.
Proof. done. Qed.

Lemma frame_refl lo s : frameFrom lo s s.
Proof. by intros i _ _. Qed.

Lemma frame_extends lo s1 s2 : extends s1 s2 → frameFrom lo s1 s2.
Proof. intros Hext i _ Hi. by apply extends_frame. Qed.

Lemma frame_modElem lo s1 s' r f :
  (r < lo)%nat → frameFrom lo s1 s' → frameFrom lo s1 (modElem r f s').
Proof.
  intros Hr H i Hlo Hi. unfold modElem. simpl.
  rewrite list_lookup_alter_ne by lia. by apply H.
Qed.

Lemma frame_modDom lo s1 s' d f : frameFrom lo s1 s' → frameFrom lo s1 (modDom d f s').
Proof. done. Qed.
Lemma frame_modAttrs lo s1 s' a f :
  frameFrom lo s1 s' → frameFrom lo s1 (modAttrs a f s').
Proof. done. Qed.
Lemma frame_delivered lo s1 s' d e e2 :
  frameFrom lo s1 s' → frameFrom lo s1 (delivered d e e2 s').
Proof. done. Qed.

Ltac solve_frame :=
  repeat first [ apply frame_delivered | apply frame_modDom | apply frame_modAttrs
               | apply frame_modElem; [sizes|] ];
  first [ apply frame_refl | by apply frame_extends ].

Lemma views_delivered d e e2 s :
  views (delivered d e e2 s)
  = views s ++ replicate (length (listenersOf s d)) (viewOf (delivered d e e2 s)).
Proof.
  unfold delivered. simpl. f_equal.
  induction (listenersOf s d) as [|c l IH]; [done|]. simpl. by rewrite IH.
Qed.

Lemma length_callsFor ls e e2 : length (callsFor ls e e2) = length ls.
Proof. unfold callsFor. by rewrite length_map. Qed.

(** C1 (amended).  Every mutating operation of an element first takes a
    snapshot with [cloneNode], then acts, then notifies.  [replaceChild]
    of a node that is no child, and [prepend] on a node that is neither
    top-level nor has a parent, throw and call nobody; every other call
    returns.  Each listener of the node's tree has then received, as its
    last call and in registration order, the node itself and that
    snapshot: a fresh node with the tag, text, parent and, child by child
    and all the way down, the structure the node had before the call.
    These are the only calls, except for [remove()] on a node that is not
    top-level and has a parent: its parent's [removeChild] first notifies
    the parent's tree for the parent.  Every call is made in the store as
    the operation leaves it, that is, after the mutation.  (Nothing is
    said here about the attributes seen through the snapshot.) *)
Theorem mutation_protocol fuel s this e t tr m :
  wfState s → heap s !! this = Some e →
  domHeap s !! parentDocument e = Some t →
  shape s fuel this = Some tr →
  from_option (validElem s) True (argOf m) →
  (∀ p, m = Remove → this ∉ directChildren t → parent e = Some p →
        is_Some (shape s fuel p)) →
  let snap := length (heap s) in
  match refusal this e t m with
  | Some err =>
      ∃ s', mutate fuel this m s = Throw err s' ∧
            notifications s' = notifications s ∧ views s' = views s
  | None =>
      ∃ s' extra,
        mutate fuel this m s = Ok tt s' ∧
        snapshotOf snap fuel s this s' snap ∧
        notifications s' = notifications s ++ extra
                           ++ callsFor (treeChangeListeners t) this snap ∧
        views s' = views s
                   ++ replicate (length extra + length (treeChangeListeners t))
                                (viewOf s') ∧
        match m, parent e with
        | Remove, Some p =>
            if bool_decide (this ∈ directChildren t) then extra = []
            else ∃ pe psnap, heap s !! p = Some pe ∧
                   snapshotOf psnap fuel s p s' psnap ∧
                   extra = callsFor (listenersOf s (parentDocument pe)) p psnap
        | _, _ => extra = []
        end
  end.
Proof.
  intros Hwf He Ht Hshape Harg Hparent snap.
  destruct (cloned_exists fuel s this tr Hwf Hshape) as [s1 Hcl].
  pose proof Hcl as (_ & Hext & Hwf1 & Hlen & Hsnap).
  pose proof (lookup_lt_Some _ _ _ He) as Hthis.
  pose proof Hext as (_ & _ & _ & Hnote & Hviews).
  assert (listenersOf s1 (parentDocument e) = treeChangeListeners t) as Hls.
  { rewrite (listenersOf_extends _ _ _ Hext). unfold listenersOf. by rewrite Ht. }
  assert (∀ s', frameFrom snap s1 s' →
                notifications s' = notifications s1 →
                views s' = views s1 →
                listenersOf s' (parentDocument e) = listenersOf s1 (parentDocument e) →
                snapshotOf snap fuel s this
                  (delivered (parentDocument e) this snap s') snap ∧
                notifications (delivered (parentDocument e) this snap s')
                = notifications s ++ []
                  ++ callsFor (treeChangeListeners t) this snap ∧
                views (delivered (parentDocument e) this snap s')
                = views s
                  ++ replicate (length (@nil Notification)
                                + length (treeChangeListeners t))
                       (viewOf (delivered (parentDocument e) this snap s')))
    as Hplain.
  { intros s' Hfr Hn Hv Hl. split_and!.
    - eapply snapshotOf_frame; [|exact Hsnap]. by apply frame_delivered.
    - by rewrite notifications_delivered, Hn, Hl, Hls, Hnote.
    - by rewrite views_delivered, Hv, Hl, Hls, Hviews. }
  destruct m; simpl refusal; simpl mutate; simpl in Harg.
  - eexists _, []. split; [apply (setAttribute_run fuel s s1 this e Hwf He Hcl)|].
    destruct (Hplain (modAttrs (attributes e) (attrSet name value) s1))
      as (? & ? & ?); [solve_frame|done|done|done|]. by split_and!.
  - eexists _, []. split; [apply (removeAttribute_run fuel s s1 this e Hwf He Hcl)|].
    destruct (Hplain (modAttrs (attributes e) (attrDelete name) s1))
      as (? & ? & ?); [solve_frame|done|done|done|]. by split_and!.
  - eexists _, []. split; [by apply (appendChild_run fuel s s1 this e Hwf He Hcl)|].
    edestruct Hplain as (? & ? & ?); [| | | |by split_and!];
      [solve_frame|done|done|by autorewrite with store].
  - unfold includes. destruct (decide (oldChild ∈ children e)) as [Hin|Hout].
    + rewrite bool_decide_eq_true_2 by done.
      eexists _, []. split; [by apply (replaceChild_run fuel s s1 this e Hwf He Hcl)|].
      edestruct Hplain as (? & ? & ?); [| | | |by split_and!];
        [solve_frame|done|done|by autorewrite with store].
    + rewrite bool_decide_eq_false_2 by done.
      exists s. by rewrite (replaceChild_absent fuel s this e He).
  - unfold includes. destruct (decide (this ∈ directChildren t)) as [Hin|Hout].
    { rewrite bool_decide_eq_true_2 by done.
      eexists _, []. split;
        [by apply (prepend_run_top fuel s s1 this e Hwf He Hcl element t)|].
      edestruct Hplain as (? & ? & ?); [| | | |by split_and!];
        [solve_frame|done|done|by autorewrite with store]. }
    rewrite bool_decide_eq_false_2 by done.
    destruct (parent e) as [p|] eqn:Hp.
    + destruct (wfState_elem _ _ _ Hwf He) as (_ & _ & _ & Hpv).
      rewrite Hp in Hpv. simpl in Hpv.
      destruct (validElem_lookup _ _ Hpv) as [pe Hpe].
      eexists _, []. split;
        [by apply (prepend_run_parent fuel s s1 this e Hwf He Hcl element t p pe)|].
      edestruct Hplain as (? & ? & ?); [| | | |by split_and!];
        [solve_frame|done|done|by autorewrite with store].
    + exists s1. by rewrite (prepend_run_orphan fuel s s1 this e He Hcl element t).
  - destruct (decide (this ∈ directChildren t)) as [Hin|Hout].
    { eexists _, []. split;
        [by apply (remove_run_top fuel s s1 this e t Hwf He Ht Hcl)|].
      edestruct Hplain as (? & ? & ?);
        [| | | |split_and!; [eassumption..|];
                destruct (parent e); [|done]; by rewrite bool_decide_eq_true_2];
        [solve_frame|done|done|by autorewrite with store]. }
    destruct (parent e) as [p|] eqn:Hp.
    + destruct (wfState_elem _ _ _ Hwf He) as (_ & _ & _ & Hpv).
      rewrite Hp in Hpv. simpl in Hpv.
      destruct (validElem_lookup _ _ Hpv) as [pe Hpe].
      destruct (Hparent p eq_refl Hout eq_refl) as [tp Htp].
      destruct (cloned_exists fuel s1 p tp Hwf1) as [s2 Hcl2];
        [by eapply shape_extends|].
      pose proof Hcl2 as (_ & Hext2 & _ & Hlen2 & Hsnap2).
      pose proof Hext2 as (_ & _ & _ & Hnote2 & Hviews2).
      pose proof (lookup_lt_Some _ _ _ Hpe) as Hplt.
      eexists _, (callsFor (listenersOf s (parentDocument pe)) p (length (heap s1))).
      split; [by apply (remove_run_parent fuel s s1 this e t Hwf He Ht Hcl p pe s2)|].
      split_and!.
      * eapply snapshotOf_frame; [|exact Hsnap]. solve_frame.
      * rewrite !notifications_delivered. autorewrite with store.
        rewrite Hnote2, Hnote, !(listenersOf_extends _ _ _ Hext2), Hls.
        rewrite (listenersOf_extends _ _ _ Hext).
        by rewrite <- !app_assoc.
      * rewrite views_delivered. autorewrite with store.
        rewrite views_delivered. autorewrite with store.
        rewrite !(listenersOf_extends _ _ _ Hext2), Hls.
        rewrite (listenersOf_extends _ _ _ Hext).
        rewrite length_callsFor, replicate_add, <- app_assoc.
        simpl. by rewrite Hviews2, Hviews.
      * rewrite bool_decide_eq_false_2 by done.
        exists pe, (length (heap s1)). split_and!; [done| |done].
        eapply snapshotOf_frame;
          [|exact (snapshotOf_rebase _ _ _ _ _ _ _ _ Hext Htp Hsnap2)].
        solve_frame.
    + eexists _, []. split;
        [by apply (remove_run_orphan fuel s s1 this e t Hwf He Ht Hcl)|].
      edestruct Hplain as (? & ? & ?); [| | | |by split_and!];
        [solve_frame|done|done|by autorewrite with store].
  - eexists _, []. split; [by apply (removeChild_run fuel s s1 this e Hwf He Hcl)|].
    edestruct Hplain as (? & ? & ?); [| | | |by split_and!];
      [solve_frame|done|done|by autorewrite with store].
  - eexists _, []. split; [apply (set_firstChild_run fuel s s1 this e Hwf He Hcl)|].
    edestruct Hplain as (? & ? & ?); [| | | |by split_and!];
      [solve_frame|done|done|by autorewrite with store].
  - eexists _, []. split; [apply (set_lastChild_run fuel s s1 this e Hwf He Hcl)|].
    edestruct Hplain as (? & ? & ?); [| | | |by split_and!];
      [solve_frame|done|done|by autorewrite with store].
  - eexists _, []. split; [apply (set_innerText_run fuel s s1 this e Hwf He Hcl)|].
    edestruct Hplain as (? & ? & ?); [| | | |by split_and!];
      [solve_frame|done|done|by autorewrite with store].
  - eexists _, []. split;
      [apply (set_innerText_run fuel s s1 this e Hwf He Hcl)|].
    edestruct Hplain as (? & ? & ?); [| | | |by split_and!];
      [solve_frame|done|done|by autorewrite with store].
Qed.

(** ** The three states of a node *)

Lemma threeStates_lookup s n e t :
  threeStates s → heap s !! n = Some e →
  domHeap s !! parentDocument e = Some t → inOneState s n e t.
Proof.
  unfold threeStates. rewrite Forall_forall. intros H Hn Ht.
  specialize (H (n, e)). simpl in H. rewrite Ht in H. apply H.
  apply elem_of_lookup_imap. by exists n, e.
Qed.

Lemma threeStates_intro s :
  (∀ n e t, heap s !! n = Some e → domHeap s !! parentDocument e = Some t →
            inOneState s n e t) →
  threeStates s.
Proof.
  intros H. unfold threeStates. apply Forall_forall. intros [n e] Hin. simpl.
  apply elem_of_lookup_imap in Hin as (i & y & [= -> ->] & Hi).
  destruct (domHeap s !! parentDocument y) as [t|] eqn:Ht; [|done]. by eapply H.
Qed.

(** Exactly one state: a node of the flattened index that is not top-level
    hangs under its parent, and a top-level node has no parent unless it is
    in the index and hangs under its parent. *)
Lemma inOneState_iff s n e t :
  inOneState s n e t ↔
  (n ∈ domChildren t → (n ∉ directChildren t) → underParent s n e) ∧
  (n ∈ directChildren t →
   parent e = None ∨ (n ∈ domChildren t ∧ underParent s n e)).
Proof.
  unfold inOneState, isTopLevel, isAttached, isUnregistered.
  assert (parent e = None → ¬ underParent s n e) as Hno.
  { unfold underParent. intros Hp. rewrite Hp. tauto. }
  destruct (decide (underParent s n e)), (decide (parent e = None)),
    (decide (n ∈ directChildren t)), (decide (n ∈ domChildren t)); tauto.
Qed.


Lemma NoDup_parentsOf s n : NoDup (parentsOf s n).
Proof.
  unfold parentsOf.
  assert (∀ (l : list VirtualElement) k,
            NoDup (filter (λ qe : nat * VirtualElement, n ∈ children qe.2)
                          (imap (λ i, pair (k + i)%nat) l)).*1 ∧
            ∀ j, j ∈ (filter (λ qe : nat * VirtualElement, n ∈ children qe.2)
                        (imap (λ i, pair (k + i)%nat) l)).*1 → (k ≤ j)%nat) as H.
  { induction l as [|x l IH]; intros k; simpl.
    - split; [constructor|]. by intros j ?%elem_of_nil.
    - assert (imap ((λ i, pair (k + i)%nat) ∘ S) l
              = imap (λ i, pair (S k + i)%nat) l) as ->.
      { apply imap_ext. intros i y _. simpl. f_equal. lia. }
      destruct (IH (S k)) as [IH1 IH2].
      rewrite filter_cons. destruct (decide _) as [Hk|Hk]; simpl.
      + split.
        * constructor; [|done]. intros Hin%IH2. lia.
        * intros j [->|Hin%IH2]%elem_of_cons; lia.
      + split; [done|]. intros j Hin%IH2. lia. }
  destruct (H (heap s) 0%nat) as [H1 _]. exact H1.
Qed.

Lemma parentsOf_singleton s n p :
  parentsOf s n = [p] ↔ ∀ q, q ∈ parentsOf s n ↔ q = p.
Proof.
  split.
  - intros -> q. apply list_elem_of_singleton.
  - intros H. pose proof (NoDup_parentsOf s n) as Hnd.
    destruct (parentsOf s n) as [|x l].
    + exfalso. eapply not_elem_of_nil. by apply (H p).
    + assert (x = p) as -> by (apply H; by left).
      destruct l as [|y l]; [done|]. exfalso.
      apply NoDup_cons in Hnd as [Hx _]. apply Hx.
      assert (y = p) as -> by (apply H; right; by left). by left.
Qed.

Lemma underParent_same s S n e e' :
  (∀ q, q ∈ parentsOf S n ↔ q ∈ parentsOf s n) → parent e' = parent e →
  underParent S n e' ↔ underParent s n e.
Proof.
  intros Hq Hp. unfold underParent. rewrite Hp.
  destruct (parent e) as [p|]; [|done].
  rewrite !parentsOf_singleton. split; intros H q; [rewrite <- Hq|rewrite Hq]; apply H.
Qed.



(** *** Preservation *)

(** Membership in the arrays after the updates the operations make. *)
Section Membership.
Implicit Types (l : list nat) (n x y : nat).





Lemma elem_of_middle l i n x :
  l !! i = Some x → n ∈ l ↔ n ∈ take i l ∨ n = x ∨ n ∈ drop (S i) l.
Proof.
  intros Hi. rewrite <- (take_drop_middle l i x Hi) at 1.
  by rewrite elem_of_app, elem_of_cons.
Qed.



Lemma elem_of_insert_ne l i n x y :
  l !! i = Some x → n ≠ x → n ≠ y → n ∈ <[i := y]> l ↔ n ∈ l.
Proof.
  intros Hi Hx Hy. rewrite (elem_of_middle l i n x Hi).
  rewrite insert_take_drop by by eapply lookup_lt_Some.
  rewrite elem_of_app, elem_of_cons. tauto.
Qed.

Lemma elem_of_insert_new l i x y : l !! i = Some x → y ∈ <[i := y]> l.
Proof. intros Hi. apply list_elem_of_insert. by eapply lookup_lt_Some. Qed.

Lemma elem_of_insert_sub l i n y : n ∈ <[i := y]> l → n = y ∨ n ∈ l.
Proof.
  destruct (decide (i < length l)%nat) as [Hlt|Hge].
  - rewrite insert_take_drop by done. rewrite elem_of_app, elem_of_cons.
    intros [H|[H|H]]; [right; by eapply subseteq_take|by left|
                       right; by eapply subseteq_drop].
  - rewrite list_insert_ge by lia. by right.
Qed.
End Membership.



(** A step from [s] to [S] that writes to one tree [d], may give the nodes
    [moved] a new parent or take them in or out of the children of a node,
    and may take the nodes [dropped] out of an array of the tree. *)
Section Step.
Variables (s : State) (d : dref) (moved dropped : list nat).

Lemma threeStates_step S :
  wfState s → threeStates s →
  Forall (validElem s) moved → Forall (validElem s) dropped →
  (∀ n, n ∈ moved → docOf s n = Some d) →
  linksKept s moved S → kidsKept s moved S → arraysKept s d moved dropped S →
  (∀ n e' t', n ∈ moved ∨ n ∈ dropped → heap S !! n = Some e' →
              parentDocument e' = d → domHeap S !! d = Some t' →
              inOneState S n e' t') →
  threeStates S.
Proof.
  intros Hwf Hinv Hmv Hdv Hmd Hlinks Hkids Harr Hsp. apply threeStates_intro.
  intros n e' t' Hn Ht'.
  destruct (Harr _ _ Ht') as (t0 & Ht0 & Hother & Hmem).
  rewrite Forall_forall in Hmv. rewrite Forall_forall in Hdv.
  destruct (decide (n < length (heap s))%nat) as [Hold|Hnew].
  - destruct (Hlinks _ _ Hn Hold) as (e & He & Hdoc & Hpar).
    rewrite Hdoc in Ht0.
    pose proof (threeStates_lookup _ _ _ _ Hinv He Ht0) as Hok.
    apply inOneState_iff in Hok as [Hok1 Hok2].
    destruct (decide (n ∈ moved)) as [Hm|Hnm].
    { apply Hsp; [by left|done| |].
      - specialize (Hmd _ Hm). unfold docOf in Hmd. rewrite He in Hmd.
        simpl in Hmd. congruence.
      - specialize (Hmd _ Hm). unfold docOf in Hmd. rewrite He in Hmd.
        simpl in Hmd. injection Hmd as Hmd. by rewrite Hdoc, Hmd in Ht'. }
    pose proof (underParent_same s S n e e' (Hkids n Hnm Hold) (Hpar Hnm)) as Hup.
    rewrite <- (Hpar Hnm) in Hok2. rewrite <- Hup in Hok1, Hok2.
    destruct (decide (n ∈ dropped)) as [Hdr|Hndr].
    { destruct (decide (parentDocument e' = d)) as [Hd|Hd].
      - apply Hsp; [by right|done|done|]. by rewrite Hd in Ht'.
      - destruct (Hother Hd) as [E1 E2]. apply inOneState_iff.
        rewrite E1, E2. by split. }
    destruct (Hmem n Hnm Hndr) as [H1 H2].
    apply inOneState_iff. rewrite H1, H2. by split.
  - assert (n ∉ moved) as Hnm.
    { intros Hm. apply Hnew. by apply Hmv. }
    assert (n ∉ dropped) as Hndr.
    { intros Hm. apply Hnew. by apply Hdv. }
    destruct (Hmem n Hnm Hndr) as [H1 H2].
    destruct (wfState_dom _ _ _ Hwf Ht0) as [Htop Hdeep].
    rewrite Forall_forall in Htop. rewrite Forall_forall in Hdeep.
    apply inOneState_iff. rewrite H1, H2. split.
    + intros Hin. exfalso. apply Hnew. by apply Hdeep.
    + intros Hin. exfalso. apply Hnew. by apply Htop.
Qed.

Lemma linksKept_extends s1 : extends s s1 → linksKept s moved s1.
Proof.
  intros Hext n e' Hn Hlt. exists e'.
  rewrite (extends_frame _ _ _ Hext Hlt) in Hn. by split_and!.
Qed.







Lemma arraysKept_extends s1 : extends s s1 → arraysKept s d moved dropped s1.
Proof.
  intros (_ & _ & Hdom & _) dd t' Ht'. rewrite Hdom in Ht'.
  exists t'. by split_and!.
Qed.

Lemma arraysKept_modDom S t f :
  domHeap S !! d = Some t →
  (∀ n, n ∉ moved → n ∉ dropped →
        (n ∈ directChildren (f t) ↔ n ∈ directChildren t) ∧
        (n ∈ domChildren (f t) ↔ n ∈ domChildren t)) →
  arraysKept s d moved dropped S → arraysKept s d moved dropped (modDom d f S).
Proof.
  intros Ht Hf H dd t'. unfold modDom. simpl.
  destruct (decide (d = dd)) as [<-|Hne].
  - rewrite list_lookup_alter_eq, Ht. simpl. intros [= <-].
    destruct (H _ _ Ht) as (t0 & Ht0 & _ & Hmem).
    exists t0. split_and!; [done|done|].
    intros n Hnm Hnd. destruct (Hmem n Hnm Hnd) as [H1 H2].
    destruct (Hf n Hnm Hnd) as [G1 G2]. rewrite G1, G2. by split.
  - rewrite list_lookup_alter_ne by done. apply H.
Qed.
End Step.

Lemma linksKept_modDom s moved S d f :
  linksKept s moved S → linksKept s moved (modDom d f S).
Proof. done. Qed.


Lemma lookup_modDom_eq S d f t' :
  domHeap (modDom d f S) !! d = Some t' → ∃ t0, domHeap S !! d = Some t0 ∧ t' = f t0.
Proof.
  unfold modDom. simpl. rewrite list_lookup_alter_eq.
  destruct (domHeap S !! d) as [t0|]; [|done]. intros [= <-]. by exists t0.
Qed.



Lemma underParent_modDom s d f n e :
  underParent (modDom d f s) n e ↔ underParent s n e.
Proof. done. Qed.


Section DomKeeps.
Variables (s : State) (d : dref) (t : VirtualDOM).
Hypothesis Hwf : wfState s.
Hypothesis Hinv : threeStates s.
Hypothesis Ht : domHeap s !! d = Some t.






Lemma dom_replaceChild_deep_keeps child c oldChild :
  heap s !! child = Some c → parentDocument c = d →
  oldChild ∉ directChildren t → oldChild ∈ domChildren t →
  underParent s child c ∨ child ∈ directChildren t →
  threeStates (modDom d (with_domChildren
                           (arraySet (indexOf (domChildren t) oldChild) child
                                     (domChildren t))) s).
Proof.
  intros Hc Hdoc Hout Hin Hadm. pose proof (lookup_lt_Some _ _ _ Hc) as Hv.
  destruct (indexOf_present _ _ Hin) as [i Hi].
  rewrite (arraySet_found _ _ _ _ Hi).
  assert (validElem s oldChild) as Hvo.
  { destruct (wfState_dom _ _ _ Hwf Ht) as [_ Hdeep].
    rewrite Forall_forall in Hdeep. by apply Hdeep. }
  apply (threeStates_step s d [] [child; oldChild]); try done.
  - by repeat constructor.
  - by intros n ?%elem_of_nil.
  - apply linksKept_modDom. apply linksKept_extends, extends_refl.
  - apply (arraysKept_modDom _ _ _ _ _ t); [done| |].
    + intros n _ Hn. simpl. split; [done|].
      apply (elem_of_insert_ne _ _ _ oldChild); [apply Hi| |].
      * intros ->. apply Hn. right. by left.
      * intros ->. apply Hn. by left.
    + apply arraysKept_extends, extends_refl.
  - intros n e' t' [[]%elem_of_nil|Hn] He' Hdoc' Ht'.
    apply lookup_modDom_eq in Ht' as (t0 & Ht0 & ->).
    rewrite Ht in Ht0. injection Ht0 as <-. simpl in He'.
    rewrite <- Hdoc' in Ht.
    pose proof (threeStates_lookup _ _ _ _ Hinv He' Ht) as Hok.
    apply inOneState_iff in Hok as [Hok1 Hok2].
    apply inOneState_iff. simpl. rewrite underParent_modDom.
    destruct (decide (n = child)) as [->|Hne].
    + rewrite Hc in He'. injection He' as <-.
      assert (child ∈ <[i:=child]> (domChildren t)) as Hnew
        by (eapply elem_of_insert_new; apply Hi).
      split.
      * intros _ Hnd. destruct Hadm as [?|?]; done.
      * intros Hd. destruct (Hok2 Hd) as [?|[_ ?]]; [by left|by right].
    + apply elem_of_cons in Hn as [?|Hn]; [done|].
      apply list_elem_of_singleton in Hn as ->.
      split; [|done].
      intros [?|Hold]%elem_of_insert_sub Hnd; [done|]. by apply Hok1.
Qed.
End DomKeeps.



(** What the element operations do after the snapshot is taken, from a
    store [b] in which all nodes are in one state. *)
Section ElementKeeps.
Variables (b : State) (this : ref) (e : VirtualElement) (t : VirtualDOM).
Hypothesis Hwf : wfState b.
Hypothesis Hinv : threeStates b.
Hypothesis He : heap b !! this = Some e.
Hypothesis Ht : domHeap b !! parentDocument e = Some t.

Let dd := parentDocument e.







End ElementKeeps.

(** *** Snapshots mention fresh objects only *)






(** *** The structural operations *)

Lemma shape_lookup s fuel n t : shape s fuel n = Some t → ∃ e, heap s !! n = Some e.
Proof.
  destruct fuel as [|fuel]; simpl; [done|].
  destruct (heap s !! n) as [e|]; [by eauto|done].
Qed.









(** ** Attributes *)

Lemma attrGet_attrDefine_eq o name value :
  attrGet (attrDefine name value o) name = value.
Proof.
  induction o as [|[k v] o IH]; simpl.
  - by rewrite decide_True.
  - destruct (decide (k = name)) as [->|Hne]; simpl.
    + by rewrite decide_True.
    + by rewrite decide_False.
Qed.

Lemma attrGet_attrDefine_ne o name value other :
  other ≠ name → attrGet (attrDefine name value o) other = attrGet o other.
Proof.
  intros Hne. induction o as [|[k v] o IH]; simpl.
  - by rewrite decide_False.
  - destruct (decide (k = name)) as [->|Hk]; simpl.
    + by rewrite !decide_False.
    + destruct (decide (k = other)); [done|apply IH].
Qed.

Lemma attrDefine_keys name value o :
  (attrDefine name value o).*1
  = if decide (name ∈ o.*1) then o.*1 else o.*1 ++ [name].
Proof.
  induction o as [|[k w] o IH]; [done|]. cbn [attrDefine].
  destruct (decide (k = name)) as [->|Hk]; rewrite !fmap_cons; cbn [fst].
  - rewrite decide_True; [done | by left].
  - rewrite IH. destruct (decide (name ∈ o.*1)) as [Hin|Hout].
    + rewrite decide_True; [done | by right].
    + rewrite decide_False; [done|].
      intros [?|?]%elem_of_cons; [by subst | done].
Qed.

Lemma attrSet_stores o name value :
  stores o name = true → attrSet name value o = attrDefine name value o.
Proof. unfold attrSet. by intros ->. Qed.

Lemma attrSet_swallowed o name value :
  stores o name = false → attrSet name value o = o.
Proof. unfold attrSet. by intros ->. Qed.

Lemma stores_false o name :
  stores o name = false → name = "__proto__" ∧ attrHas o name = false.
Proof.
  unfold stores. intros [H1 H2]%orb_false_iff. split; [|done].
  apply negb_false_iff, bool_decide_eq_true in H1. done.
Qed.

Lemma stores_ne o name : name ≠ "__proto__" → stores o name = true.
Proof. intros H. unfold stores. by rewrite bool_decide_eq_false_2. Qed.

Lemma attrGet_attrSet_eq o name value :
  stores o name = true → attrGet (attrSet name value o) name = value.
Proof. intros H. rewrite attrSet_stores by done. apply attrGet_attrDefine_eq. Qed.

Lemma attrGet_attrSet_ne o name value other :
  other ≠ name → attrGet (attrSet name value o) other = attrGet o other.
Proof.
  intros Hne. unfold attrSet. destruct (stores o name); [|done].
  by apply attrGet_attrDefine_ne.
Qed.

Lemma attrSet_keys name value o :
  stores o name = true →
  (attrSet name value o).*1 = if decide (name ∈ o.*1) then o.*1 else o.*1 ++ [name].
Proof. intros H. rewrite attrSet_stores by done. apply attrDefine_keys. Qed.

Lemma attrHas_attrDefine o name value other :
  attrHas (attrDefine name value o) other
  = if decide (other = name) then true else attrHas o other.
Proof.
  unfold attrHas. rewrite attrDefine_keys.
  destruct (decide (other = name)) as [->|Hne].
  - apply bool_decide_eq_true_2. destruct (decide _); [done|].
    apply elem_of_app. right. by left.
  - apply bool_decide_ext. destruct (decide _); [done|].
    rewrite elem_of_app, list_elem_of_singleton. tauto.
Qed.

Lemma attrHas_attrSet o name value other :
  stores o name = true →
  attrHas (attrSet name value o) other
  = if decide (other = name) then true else attrHas o other.
Proof. intros H. rewrite attrSet_stores by done. apply attrHas_attrDefine. Qed.

Lemma attrHas_attrSet_ne o name value other :
  other ≠ name → attrHas (attrSet name value o) other = attrHas o other.
Proof.
  intros Hne. unfold attrSet. destruct (stores o name); [|done].
  rewrite attrHas_attrDefine. by rewrite decide_False.
Qed.

Lemma attrHas_attrSet_eq o name value :
  attrHas (attrSet name value o) name = stores o name.
Proof.
  destruct (stores o name) eqn:Hst.
  - by rewrite attrHas_attrSet, decide_True.
  - rewrite attrSet_swallowed by done. by apply stores_false in Hst as [_ ->].
Qed.

Lemma attrDelete_keys name o :
  (attrDelete name o).*1 = List.filter (λ k, negb (bool_decide (k = name))) o.*1.
Proof.
  unfold attrDelete. induction o as [|[k v] o IH]; [done|].
  rewrite fmap_cons. cbn [List.filter fst].
  destruct (bool_decide (k = name)); cbn [negb]; [done|].
  by rewrite fmap_cons, IH.
Qed.

Lemma attrHas_attrDelete o name other :
  attrHas (attrDelete name o) other
  = if decide (other = name) then false else attrHas o other.
Proof.
  unfold attrHas. rewrite attrDelete_keys.
  destruct (decide (other = name)) as [->|Hne].
  - apply bool_decide_eq_false_2. rewrite list_elem_of_In, filter_In.
    intros [_ H]. by rewrite bool_decide_eq_true_2 in H.
  - apply bool_decide_ext. rewrite !list_elem_of_In, filter_In.
    rewrite bool_decide_eq_false_2 by done. simpl. tauto.
Qed.

Lemma attrGet_absent o name : attrHas o name = false → attrGet o name = JsUndefined.
Proof.
  unfold attrHas. intros H%bool_decide_eq_false.
  induction o as [|[k v] o IH]; simpl; [done|].
  destruct (decide (k = name)) as [->|Hne].
  - exfalso. apply H. by left.
  - apply IH. intros Hin. apply H. by right.
Qed.

Lemma attrGet_attrDelete_ne o name other :
  other ≠ name → attrGet (attrDelete name o) other = attrGet o other.
Proof.
  intros Hne. unfold attrDelete. induction o as [|[k v] o IH]; simpl; [done|].
  destruct (decide (k = name)) as [->|Hk].
  - rewrite bool_decide_eq_true_2 by done. simpl. by rewrite decide_False.
  - rewrite bool_decide_eq_false_2 by done. simpl.
    destruct (decide (k = other)); [done|apply IH].
Qed.

(** [getAttribute] where the record answers: it owns the name, or
    [Object.prototype] has no such member. *)
Lemma getAttribute_run s this e o name :
  heap s !! this = Some e → attrHeap s !! attributes e = Some o →
  attrHas o name = true ∨ inherited name = false →
  VirtualElement.getAttribute this name s = Ok (attrGet o name) s.
Proof.
  intros He Ho H. unfold VirtualElement.getAttribute, attrRead. munfold.
  rewrite He, Ho. destruct (attrHas o name) eqn:Hown; [done|].
  destruct H as [?| ->]; [done|]. by rewrite attrGet_absent.
Qed.

Lemma getAttribute_inv s this e o name v s' :
  heap s !! this = Some e → attrHeap s !! attributes e = Some o →
  VirtualElement.getAttribute this name s = Ok v s' →
  s' = s ∧ v = attrGet o name ∧ (attrHas o name = true ∨ inherited name = false).
Proof.
  intros He Ho. unfold VirtualElement.getAttribute, attrRead. munfold.
  rewrite He, Ho. destruct (attrHas o name) eqn:Hown.
  - intros [= <- <-]. auto.
  - destruct (inherited name); [done|]. intros [= <- <-].
    rewrite attrGet_absent by done. auto.
Qed.

Lemma hasAttribute_run s this e o name :
  heap s !! this = Some e → attrHeap s !! attributes e = Some o →
  VirtualElement.hasAttribute this name s
  = if attrHas o "hasOwnProperty" then Throw TypeError s
    else Ok (attrHas o name) s.
Proof.
  intros He Ho. unfold VirtualElement.hasAttribute. munfold.
  rewrite He, Ho. by destruct (attrHas o "hasOwnProperty").
Qed.

(** Reading the attribute record of a node after a write to it that
    followed the snapshot. *)
Lemma attrs_after_write fuel s s1 this e o d snap f :
  wfState s → heap s !! this = Some e → attrHeap s !! attributes e = Some o →
  cloned fuel s this s1 →
  heap (delivered d this snap (modAttrs (attributes e) f s1)) !! this = Some e ∧
  attrHeap (delivered d this snap (modAttrs (attributes e) f s1)) !! attributes e
    = Some (f o).
Proof.
  intros Hwf He Ho (_ & Hext & _). split.
  - simpl. by eapply extends_lookup.
  - simpl. rewrite list_lookup_alter_eq.
    destruct Hext as (_ & Hpre & _).
    by rewrite (prefix_lookup_Some _ _ _ _ Ho Hpre).
Qed.

(** X1.  [setAttribute(name, value)] returns.  Unless the write is the
    one to [__proto__] that stores nothing, [getAttribute(name)] is then
    [value]; [hasAttribute(name)] then tells whether the attribute was
    stored, or throws a [TypeError] when the record has an attribute named
    [hasOwnProperty], the one just written included.  The other
    attributes of the node read as before, as long as the write did not
    put [hasOwnProperty] in the way of [hasAttribute]. *)
Theorem setAttribute_getAttribute fuel s this e o tr name value :
  wfState s → heap s !! this = Some e →
  attrHeap s !! attributes e = Some o → shape s fuel this = Some tr →
  ∃ s', VirtualElement.setAttribute fuel this name value s = Ok tt s' ∧
        (stores o name = true →
           VirtualElement.getAttribute this name s' = Ok value s') ∧
        VirtualElement.hasAttribute this name s'
          = (if attrHas o "hasOwnProperty" || bool_decide (name = "hasOwnProperty")
             then Throw TypeError s' else Ok (stores o name) s') ∧
        ∀ other, other ≠ name →
          (∀ v, VirtualElement.getAttribute this other s = Ok v s →
                VirtualElement.getAttribute this other s' = Ok v s') ∧
          (∀ b, VirtualElement.hasAttribute this other s = Ok b s →
                name ≠ "hasOwnProperty" →
                VirtualElement.hasAttribute this other s' = Ok b s').
Proof.
  intros Hwf He Ho Hsh.
  destruct (cloned_exists fuel s this tr Hwf Hsh) as [s1 Hcl].
  eexists. split; [apply (setAttribute_run fuel s s1 this e Hwf He Hcl)|].
  destruct (attrs_after_write fuel s s1 this e o (parentDocument e)
              (length (heap s)) (attrSet name value) Hwf He Ho Hcl) as [H1 H2].
  assert (attrHas (attrSet name value o) "hasOwnProperty"
          = attrHas o "hasOwnProperty" || bool_decide (name = "hasOwnProperty"))
    as Hshadow.
  { destruct (decide (name = "hasOwnProperty")) as [->|Hne].
    - rewrite attrHas_attrSet_eq, bool_decide_eq_true_2, orb_true_r by done.
      by apply stores_ne.
    - rewrite attrHas_attrSet_ne, bool_decide_eq_false_2, orb_false_r by done.
      done. }
  split_and!.
  - intros Hst. rewrite (getAttribute_run _ _ _ _ _ H1 H2).
    + by rewrite attrGet_attrSet_eq.
    + left. by rewrite attrHas_attrSet_eq.
  - rewrite (hasAttribute_run _ _ _ _ _ H1 H2), Hshadow.
    by rewrite attrHas_attrSet_eq.
  - intros other Hne. split.
    + intros v Hv.
      destruct (getAttribute_inv _ _ _ _ _ _ _ He Ho Hv) as (_ & -> & Hans).
      rewrite (getAttribute_run _ _ _ _ _ H1 H2).
      * by rewrite attrGet_attrSet_ne.
      * by rewrite attrHas_attrSet_ne.
    + intros b Hb Hname. rewrite (hasAttribute_run _ _ _ _ _ He Ho) in Hb.
      rewrite (hasAttribute_run _ _ _ _ _ H1 H2), Hshadow.
      rewrite bool_decide_eq_false_2, orb_false_r by done.
      destruct (attrHas o "hasOwnProperty"); [done|].
      injection Hb as <-. by rewrite attrHas_attrSet_ne.
Qed.

(** X2.  [removeAttribute(name)] returns.  [getAttribute(name)] is then
    [undefined] for a name that [Object.prototype] has no member of;
    [hasAttribute(name)] is false, or throws a [TypeError] when the record
    still has an attribute named [hasOwnProperty]; and the other
    attributes of the node read as before. *)
Theorem removeAttribute_getAttribute fuel s this e o tr name :
  wfState s → heap s !! this = Some e →
  attrHeap s !! attributes e = Some o → shape s fuel this = Some tr →
  ∃ s', VirtualElement.removeAttribute fuel this name s = Ok tt s' ∧
        (inherited name = false →
           VirtualElement.getAttribute this name s' = Ok JsUndefined s') ∧
        VirtualElement.hasAttribute this name s'
          = (if attrHas o "hasOwnProperty"
                && negb (bool_decide (name = "hasOwnProperty"))
             then Throw TypeError s' else Ok false s') ∧
        ∀ other, other ≠ name →
          (∀ v, VirtualElement.getAttribute this other s = Ok v s →
                VirtualElement.getAttribute this other s' = Ok v s') ∧
          (∀ b, VirtualElement.hasAttribute this other s = Ok b s →
                VirtualElement.hasAttribute this other s' = Ok b s').
Proof.
  intros Hwf He Ho Hsh.
  destruct (cloned_exists fuel s this tr Hwf Hsh) as [s1 Hcl].
  eexists. split; [apply (removeAttribute_run fuel s s1 this e Hwf He Hcl)|].
  destruct (attrs_after_write fuel s s1 this e o (parentDocument e)
              (length (heap s)) (attrDelete name) Hwf He Ho Hcl) as [H1 H2].
  assert (attrHas (attrDelete name o) name = false) as Hno
    by by rewrite attrHas_attrDelete, decide_True.
  assert (attrHas (attrDelete name o) "hasOwnProperty"
          = attrHas o "hasOwnProperty"
            && negb (bool_decide (name = "hasOwnProperty"))) as Hshadow.
  { rewrite attrHas_attrDelete.
    destruct (decide ("hasOwnProperty" = name)) as [<-|Hne].
    - by rewrite bool_decide_eq_true_2, andb_false_r.
    - rewrite bool_decide_eq_false_2, andb_true_r by done. done. }
  split_and!.
  - intros Hinh. rewrite (getAttribute_run _ _ _ _ _ H1 H2) by by right.
    by rewrite attrGet_absent.
  - by rewrite (hasAttribute_run _ _ _ _ _ H1 H2), Hshadow, Hno.
  - intros other Hne. split.
    + intros v Hv.
      destruct (getAttribute_inv _ _ _ _ _ _ _ He Ho Hv) as (_ & -> & Hans).
      rewrite (getAttribute_run _ _ _ _ _ H1 H2).
      * by rewrite attrGet_attrDelete_ne.
      * by rewrite attrHas_attrDelete, decide_False.
    + intros b Hb. rewrite (hasAttribute_run _ _ _ _ _ He Ho) in Hb.
      rewrite (hasAttribute_run _ _ _ _ _ H1 H2), Hshadow.
      destruct (attrHas o "hasOwnProperty"); [done|].
      injection Hb as <-. by rewrite attrHas_attrDelete, decide_False.
Qed.

(** ** Connectivity *)

Lemma isConnected_run s r b :
  fieldOf isRemoved s r = Some b → VirtualElement.isConnected r s = Ok (negb b) s.
Proof.
  unfold fieldOf, VirtualElement.isConnected. munfold.
  destruct (heap s !! r); [|done]. by intros [= <-].
Qed.

(** The insertions of a tree turn a removed node away. *)
Lemma dom_refuses_removed s d child other :
  is_Some (domHeap s !! d) → fieldOf isRemoved s child = Some true →
  VirtualDOM.appendChild d child s = Ok tt s ∧
  VirtualDOM.insertBefore d child other s = Ok tt s ∧
  VirtualDOM.replaceChild d child other s = Ok tt s.
Proof.
  intros [t Ht]. unfold fieldOf.
  destruct (heap s !! child) as [c|] eqn:Hc; [|done]. intros [= Hrm].
  unfold VirtualDOM.appendChild, VirtualDOM.insertBefore, VirtualDOM.replaceChild.
  munfold. by rewrite Ht, Hc, Hrm.
Qed.

(** X3.  [remove()] returns whatever the place of the node (top-level,
    under a parent, or neither) and leaves it with [$isRemoved] set:
    [isConnected] is false afterwards, and [appendChild], [insertBefore]
    and [replaceChild] of any tree then return without changing the
    store when handed the node. *)
Theorem remove_disconnects fuel s this e t tr :
  wfState s → heap s !! this = Some e →
  domHeap s !! parentDocument e = Some t →
  shape s fuel this = Some tr →
  (∀ p, parent e = Some p → this ∉ directChildren t → is_Some (shape s fuel p)) →
  ∃ s', VirtualElement.remove fuel this s = Ok tt s' ∧
        VirtualElement.isConnected this s' = Ok false s' ∧
        ∀ d other, is_Some (domHeap s !! d) →
          VirtualDOM.appendChild d this s' = Ok tt s' ∧
          VirtualDOM.insertBefore d this other s' = Ok tt s' ∧
          VirtualDOM.replaceChild d this other s' = Ok tt s'.
Proof.
  intros Hwf He Ht Hsh Hparent.
  destruct (cloned_exists fuel s this tr Hwf Hsh) as [s1 Hcl].
  assert (∃ s', VirtualElement.remove fuel this s = Ok tt s' ∧
                fieldOf isRemoved s' this = Some true ∧
                length (domHeap s') = length (domHeap s)) as (s' & Hrun & Hrm & Hlen).
  { destruct Hcl as (Hc & Hext & Hwf1 & Hlt & Hsnap).
    assert (cloned fuel s this s1) as Hcl by done.
    assert (heap s1 !! this = Some e) as He1 by by eapply extends_lookup.
    assert (length (domHeap s1) = length (domHeap s)) as Hd1
      by by destruct Hext as (_ & _ & -> & _).
    destruct (decide (this ∈ directChildren t)) as [Htop|Hnot].
    - eexists. split; [by apply (remove_run_top fuel s s1 this e t)|].
      autorewrite with store. rewrite fieldOf_modElem_eq.
      unfold fieldOf. simpl. rewrite He1. split; [done|].
      autorewrite with store. done.
    - destruct (parent e) as [p|] eqn:Hp.
      + destruct (Hparent p eq_refl Hnot) as [tp Htp].
        destruct (shape_lookup _ _ _ _ Htp) as [pe Hpe].
        destruct (cloned_exists fuel s1 p tp Hwf1) as [s2 Hcl2];
          [by eapply shape_extends|].
        eexists. split; [by apply (remove_run_parent fuel s s1 this e t Hwf He Ht Hcl p pe s2)|].
        autorewrite with store. rewrite fieldOf_modElem_eq.
        destruct Hcl2 as (_ & Hext2 & _).
        split.
        * unfold fieldOf. simpl.
          destruct (decide (p = this)) as [->|Hne].
          -- rewrite list_lookup_alter_eq.
             rewrite (extends_lookup _ _ _ _ Hext2 He1). done.
          -- rewrite list_lookup_alter_ne by done.
             rewrite (extends_lookup _ _ _ _ Hext2 He1). done.
        * autorewrite with store. destruct Hext2 as (_ & _ & -> & _). done.
      + eexists. split; [by apply (remove_run_orphan fuel s s1 this e t)|].
        autorewrite with store. rewrite fieldOf_modElem_eq.
        unfold fieldOf. rewrite He1. done. }
  exists s'. split; [done|]. split; [by apply (isConnected_run _ _ true)|].
  intros d other [td Hd]. apply dom_refuses_removed; [|done].
  apply lookup_lt_is_Some. rewrite Hlen. by eapply lookup_lt_Some.
Qed.

(** ** [removeChild] of a node that is no child *)

Lemma splice_delete_absent {A} `{EqDecision A} (l : list A) x :
  x ∉ l → splice (indexOf l x) 1 [] l = take (length l - 1) l.
Proof.
  intros Hf. apply indexOf_absent in Hf. rewrite Hf.
  unfold splice, spliceStart. simpl.
  replace (Z.to_nat (Z.max (Z.of_nat (length l) + -1) 0))
    with (length l - 1)%nat by lia.
  rewrite drop_ge by lia. by rewrite app_nil_r.
Qed.

(** X4.  [removeChild(child)] of an element does not check that [child]
    is one of its children.  When it is not, the call still returns and
    flags [child] as removed, and the last child of the element is the one
    that leaves [children]; likewise the last entry of the tree's
    [children] goes when [child] is not listed there, and the first
    occurrence of [child] when it is. *)
Theorem removeChild_absent_drops_last fuel s this e t tr child :
  wfState s → heap s !! this = Some e →
  domHeap s !! parentDocument e = Some t →
  shape s fuel this = Some tr → validElem s child →
  child ∉ children e →
  ∃ s', VirtualElement.removeChild fuel this child s = Ok tt s' ∧
        fieldOf isRemoved s' child = Some true ∧
        fieldOf children s' this
          = Some (take (length (children e) - 1) (children e)) ∧
        ((child ∉ domChildren t) →
           domField domChildren s' (parentDocument e)
           = Some (take (length (domChildren t) - 1) (domChildren t))) ∧
        (∀ i, firstAt (domChildren t) child i →
           domField domChildren s' (parentDocument e)
           = Some (delete i (domChildren t))).
Proof.
  intros Hwf He Ht Hsh Hvalid Hout.
  destruct (cloned_exists fuel s this tr Hwf Hsh) as [s1 Hcl].
  pose proof Hcl as (_ & Hext & _ & Hlen & _).
  assert (heap s1 !! this = Some e) as He1 by by eapply extends_lookup.
  assert (domHeap s1 !! parentDocument e = Some t) as Ht1
    by by destruct Hext as (_ & _ & -> & _).
  eexists. split; [by apply (removeChild_run fuel s s1 this e Hwf He Hcl)|].
  split_and!.
  - autorewrite with store. rewrite fieldOf_modElem_eq.
    unfold fieldOf. simpl.
    destruct (lookup_lt_is_Some_2 (heap (modElem this
      (λ e0, with_children (splice (indexOf (children e0) child) 1 [] (children e0)) e0)
      s1)) child) as [c' Hc']; [sizes|]. simpl in Hc'. by rewrite Hc'.
  - autorewrite with store.
    rewrite fieldOf_modElem_keep by done. rewrite fieldOf_modElem_eq.
    unfold fieldOf. rewrite He1. simpl. by rewrite splice_delete_absent.
  - intros Hno. autorewrite with store. dom_field Ht1. rewrite ?Ht1. simpl.
    by rewrite splice_delete_absent.
  - intros i Hi. autorewrite with store. dom_field Ht1. rewrite ?Ht1. simpl.
    by rewrite (splice_delete_found _ _ _ Hi).
Qed.

(** ** [prepend] *)

(** X5.  [prepend(element)] on a top-level node puts [element] into
    [directChildren] right before the node and makes the node its
    [parent], leaving the tree's [children] alone.  On a node that is not
    top-level and has a parent it puts [element] right before the node
    among the parent's children and in the tree's [children], and does not
    touch [element.parent]. *)
Theorem prepend_places_before fuel s this e t tr element :
  wfState s → heap s !! this = Some e →
  domHeap s !! parentDocument e = Some t →
  shape s fuel this = Some tr → validElem s element →
  (∀ i, firstAt (directChildren t) this i →
     ∃ s', VirtualElement.prepend fuel this element s = Ok tt s' ∧
           domField directChildren s' (parentDocument e)
             = Some (insertAt i element (directChildren t)) ∧
           domField domChildren s' (parentDocument e) = Some (domChildren t) ∧
           fieldOf parent s' element = Some (Some this)) ∧
  (∀ p pe, (this ∉ directChildren t) → parent e = Some p → heap s !! p = Some pe →
     ∃ s', VirtualElement.prepend fuel this element s = Ok tt s' ∧
           (∀ i, firstAt (children pe) this i →
              fieldOf children s' p = Some (insertAt i element (children pe))) ∧
           (∀ j, firstAt (domChildren t) this j →
              domField domChildren s' (parentDocument e)
              = Some (insertAt j element (domChildren t))) ∧
           domField directChildren s' (parentDocument e)
             = Some (directChildren t) ∧
           (element ≠ p → fieldOf parent s' element = fieldOf parent s element)).
Proof.
  intros Hwf He Ht Hsh Hvalid.
  destruct (cloned_exists fuel s this tr Hwf Hsh) as [s1 Hcl].
  pose proof Hcl as (_ & Hext & _ & Hlen & _).
  assert (domHeap s1 !! parentDocument e = Some t) as Ht1
    by by destruct Hext as (_ & _ & -> & _).
  split.
  - intros i Hi. eexists.
    split; [by apply (prepend_run_top fuel s s1 this e Hwf He Hcl element t),
                     (firstAt_elem _ _ _ Hi)|].
    split_and!.
    + autorewrite with store. dom_field Ht1. rewrite ?Ht1. simpl.
      by rewrite (splice_insert_found _ _ _ _ Hi).
    + autorewrite with store. dom_field Ht1. by rewrite ?Ht1.
    + autorewrite with store. rewrite fieldOf_modElem_eq.
      unfold fieldOf. simpl.
      destruct (lookup_lt_is_Some_2 (heap s1) element) as [c' Hc']; [sizes|].
      by rewrite Hc'.
  - intros p pe Hnot Hp Hpe. eexists.
    split; [by apply (prepend_run_parent fuel s s1 this e Hwf He Hcl element t p pe)|].
    assert (heap s1 !! p = Some pe) as Hpe1 by by eapply extends_lookup.
    split_and!.
    + intros i Hi. autorewrite with store. rewrite fieldOf_modElem_eq.
      unfold fieldOf. rewrite Hpe1. simpl.
      by rewrite (splice_insert_found _ _ _ _ Hi).
    + intros j Hj. autorewrite with store. dom_field Ht1. rewrite ?Ht1. simpl.
      by rewrite (splice_insert_found _ _ _ _ Hj).
    + autorewrite with store. dom_field Ht1. by rewrite ?Ht1.
    + intros Hne. autorewrite with store.
      rewrite fieldOf_modElem_keep by done.
      by apply fieldOf_extends.
Qed.

(** ** Siblings and first child *)

(** X6.  [nextSibling] of a node with a parent is the entry after the
    first occurrence of the node among the parent's children, and the
    parent's first child when the node is not among them.  Without a
    parent the position is looked up in the tree's [children] and used in
    its [directChildren]: for a node absent from [children] the answer is
    the first top-level node, whichever node is asked. *)
Theorem nextSibling_spec s this e :
  heap s !! this = Some e →
  (∀ p pe, parent e = Some p → heap s !! p = Some pe →
     (∀ i, firstAt (children pe) this i →
        VirtualElement.get_nextSibling this s = Ok (children pe !! S i) s) ∧
     ((this ∉ children pe) →
        VirtualElement.get_nextSibling this s = Ok (children pe !! 0%nat) s)) ∧
  (∀ t, parent e = None → domHeap s !! parentDocument e = Some t →
     ((this ∉ domChildren t) →
        VirtualElement.get_nextSibling this s = Ok (directChildren t !! 0%nat) s) ∧
     (∀ j, firstAt (domChildren t) this j →
        VirtualElement.get_nextSibling this s = Ok (directChildren t !! S j) s)).
Proof.
  intros He. unfold VirtualElement.get_nextSibling. munfold. rewrite He.
  split.
  - intros p pe -> Hpe. rewrite Hpe. split.
    + intros i Hi%indexOf_firstAt. rewrite Hi. do 3 f_equal. lia.
    + intros Hout%indexOf_absent. by rewrite Hout.
  - intros t -> Ht. rewrite Ht. split.
    + intros Hout%indexOf_absent. by rewrite Hout.
    + intros j Hj%indexOf_firstAt. rewrite Hj. do 3 f_equal. lia.
Qed.

Lemma arraySet_first {A} (c : A) l : arraySet 0 c l = c :: tail l.
Proof. unfold arraySet. by destruct l. Qed.

(** X7.  Assigning [firstChild] returns, and [firstChild] then reads the
    assigned node: it took the place of the first child, or became the
    only child of a node that had none.  The assignment adopts nothing:
    the [parent] of the assigned node and the arrays of every tree are as
    before. *)
Theorem firstChild_set_get fuel s this e tr c :
  wfState s → heap s !! this = Some e → shape s fuel this = Some tr →
  validElem s c →
  ∃ s', VirtualElement.set_firstChild fuel this c s = Ok tt s' ∧
        VirtualElement.get_firstChild this s' = Ok (Some c) s' ∧
        fieldOf children s' this = Some (c :: tail (children e)) ∧
        fieldOf parent s' c = fieldOf parent s c ∧
        domHeap s' = domHeap s.
Proof.
  intros Hwf He Hsh Hvalid.
  destruct (cloned_exists fuel s this tr Hwf Hsh) as [s1 Hcl].
  pose proof Hcl as (_ & Hext & _ & Hlen & _).
  assert (heap s1 !! this = Some e) as He1 by by eapply extends_lookup.
  eexists. split; [by apply (set_firstChild_run fuel s s1 this e Hwf He Hcl)|].
  assert (fieldOf children
            (delivered (parentDocument e) this (length (heap s))
               (modElem this (λ e0, with_children (arraySet 0 c (children e0)) e0) s1))
            this = Some (c :: tail (children e))) as Hkids.
  { autorewrite with store. rewrite fieldOf_modElem_eq.
    unfold fieldOf. rewrite He1. simpl. by rewrite arraySet_first. }
  split_and!; [|done| |].
  - unfold fieldOf in Hkids. apply fmap_Some in Hkids as (e' & He' & Hk).
    unfold VirtualElement.get_firstChild. munfold. rewrite He'. simpl.
    by rewrite <- Hk.
  - autorewrite with store. rewrite fieldOf_modElem_keep by done.
    by apply fieldOf_extends.
  - autorewrite with store. by destruct Hext as (_ & _ & -> & _).
Qed.

(** X8.  Assigning [textContent] (or [innerText]) returns, and both
    getters then read the assigned text; children, attributes and parent of
    the node are as before. *)
Theorem textContent_set_get fuel s this e tr value :
  wfState s → heap s !! this = Some e → shape s fuel this = Some tr →
  ∃ s', VirtualElement.set_textContent fuel this value s = Ok tt s' ∧
        VirtualElement.get_textContent this s' = Ok value s' ∧
        VirtualElement.get_innerText this s' = Ok value s' ∧
        heap s' !! this = Some (with_innerText value e).
Proof.
  intros Hwf He Hsh.
  destruct (cloned_exists fuel s this tr Hwf Hsh) as [s1 Hcl].
  pose proof Hcl as (_ & Hext & _ & Hlen & _).
  assert (heap s1 !! this = Some e) as He1 by by eapply extends_lookup.
  eexists. split; [by apply (set_innerText_run fuel s s1 this e Hwf He Hcl)|].
  assert (heap (delivered (parentDocument e) this (length (heap s))
                  (modElem this (with_innerText value) s1)) !! this
          = Some (with_innerText value e)) as Hnew.
  { simpl. rewrite list_lookup_alter_eq. by rewrite He1. }
  unfold VirtualElement.get_textContent, VirtualElement.get_innerText.
  munfold. by rewrite Hnew.
Qed.

(** ** Lookups of an element *)

Lemma shape_inv s fuel r t :
  shape s (S fuel) r = Some t →
  ∃ e, heap s !! r = Some e ∧ root t = r ∧
       Forall2 (λ c k, shape s fuel c = Some k) (children e) (subtrees t).
Proof.
  simpl. destruct (heap s !! r) as [e|]; [|done].
  destruct (mapM (shape s fuel) (children e)) as [kids|] eqn:Hk; [|done].
  intros [= <-]. exists e. split_and!; [done..|]. by apply mapM_Some.
Qed.

Lemma shape_valid s fuel r t :
  shape s fuel r = Some t → Forall (validElem s) (preorder t).
Proof.
  revert r t. induction fuel as [|fuel IH]; intros r t Hsh; [done|].
  destruct (shape_inv _ _ _ _ Hsh) as (e & He & Hr & Hkids).
  destruct t as [r' kids]. simpl in *. subst r'. constructor.
  - by eapply lookup_lt_Some.
  - clear Hsh He. induction Hkids as [|c k l ks Hc _ IHk]; simpl; [done|].
    apply Forall_app. split; [by eapply IH | done].
Qed.

Lemma shape_kids_valid s fuel r t :
  shape s fuel r = Some t → Forall (validElem s) (flat_map preorder (subtrees t)).
Proof.
  intros H%shape_valid. destruct t as [r' kids]. simpl in *.
  by apply Forall_cons in H as [_ H].
Qed.

Lemma filterRefs_hasAttribute s name l :
  wfState s → Forall (validElem s) l →
  filterRefs (λ r, VirtualElement.hasAttribute r name) l s
  = if existsb (hasAttr s "hasOwnProperty") l then Throw TypeError s
    else Ok (List.filter (hasAttr s name) l) s.
Proof.
  intros Hwf. induction 1 as [|r l Hr _ IH]; [done|].
  destruct (validElem_lookup _ _ Hr) as [e He].
  destruct (wfState_attrs _ _ _ Hwf He) as [o Ho].
  cbn [filterRefs existsb List.filter]. munfold.
  rewrite (hasAttribute_run _ _ _ _ name He Ho).
  unfold hasAttr at 1 3. rewrite He, Ho.
  destruct (attrHas o "hasOwnProperty"); [done|]. cbn [orb].
  rewrite IH. destruct (existsb _ l); [done|]. by destruct (attrHas o name).
Qed.

Lemma querySelectorAll_star s fuel this t :
  shape s (S fuel) this = Some t →
  VirtualElement.querySelectorAll fuel this "*" s
  = Ok (flat_map preorder (subtrees t)) s.
Proof.
  intros (e & He & _ & Hkids)%shape_inv.
  unfold VirtualElement.querySelectorAll. munfold. rewrite He. simpl.
  rewrite (foldRefs_visitAll s fuel (children e) (subtrees t)); [done| |done].
  intros c k arr _. apply visitAll_shape.
Qed.

(** X9.  When no proper descendant of the node has an attribute named
    [hasOwnProperty], [$getElementsByAttribute(name)] returns, in document
    order (pre-order), exactly the proper descendants that have an own
    attribute [name], and [$getElementByAttribute] the first of them; when
    one has, both throw a [TypeError].  [getElementsByClassName] looks at
    the direct children only and keeps those whose [class] attribute is
    the argument as a whole. *)
Theorem element_attribute_lookups s fuel this e t name className :
  wfState s → heap s !! this = Some e →
  shape s (S fuel) this = Some t →
  VirtualElement.getElementsByAttribute fuel this name s
    = (if existsb (hasAttr s "hasOwnProperty") (flat_map preorder (subtrees t))
       then Throw TypeError s
       else Ok (List.filter (hasAttr s name)
                            (flat_map preorder (subtrees t))) s) ∧
  VirtualElement.getElementByAttribute fuel this name s
    = (if existsb (hasAttr s "hasOwnProperty") (flat_map preorder (subtrees t))
       then Throw TypeError s
       else Ok (List.filter (hasAttr s name)
                            (flat_map preorder (subtrees t)) !! 0%nat) s) ∧
  VirtualElement.getElementsByClassName this className s
    = Ok (List.filter (hasAttrValue s "class" className) (children e)) s.
Proof.
  intros Hwf He Hsh.
  assert (VirtualElement.getElementsByAttribute fuel this name s
    = (if existsb (hasAttr s "hasOwnProperty") (flat_map preorder (subtrees t))
       then Throw TypeError s
       else Ok (List.filter (hasAttr s name)
                            (flat_map preorder (subtrees t))) s)) as Hall.
  { unfold VirtualElement.getElementsByAttribute. munfold.
    rewrite (querySelectorAll_star _ _ _ _ Hsh).
    apply filterRefs_hasAttribute; [done|]. by eapply shape_kids_valid. }
  split_and!; [done| |].
  - unfold VirtualElement.getElementByAttribute. munfold. rewrite Hall.
    by destruct (existsb _ _).
  - unfold VirtualElement.getElementsByClassName. munfold. rewrite He.
    apply filterRefs_attrIs; [done|].
    by destruct (wfState_elem _ _ _ Hwf He) as (_ & _ & Hkids & _).
Qed.

(** ** [getElementById] of an element *)

Lemma foldRefs_last {B} (f : ref → M B) (g : ref → B) l acc s :
  (∀ c, c ∈ l → f c s = Ok (g c) s) →
  foldRefs (λ _ c, f c) l acc s = Ok (from_option g acc (last l)) s.
Proof.
  revert acc. induction l as [|c l IH]; intros acc Hf; [done|].
  simpl. munfold. rewrite (Hf c) by by left.
  rewrite IH by (intros c' Hc'; apply Hf; by right).
  rewrite last_cons. by destruct (last l).
Qed.

Lemma filter_head_elem {A} (p : A → bool) l x rest :
  List.filter p l = x :: rest → x ∈ l ∧ p x = true.
Proof.
  intros H. assert (In x (List.filter p l)) as Hin by (rewrite H; by left).
  apply filter_In in Hin as [Hin ?]. by rewrite list_elem_of_In.
Qed.

Lemma elem_of_kids_preorder s fuel l kids c :
  Forall2 (λ c k, shape s fuel c = Some k) l kids → c ∈ l →
  ∃ k, k ∈ kids ∧ shape s fuel c = Some k ∧ c ∈ flat_map preorder kids.
Proof.
  induction 1 as [|c' k l ks Hc _ IH]; [by intros ?%elem_of_nil|].
  intros [->|Hin]%elem_of_cons.
  - exists k. split_and!; [by left|done|]. simpl. apply elem_of_app. left.
    destruct fuel; [done|].
    destruct (shape_inv _ _ _ _ Hc) as (_ & _ & Hr & _).
    destruct k; simpl in *; subst. by left.
  - destruct (IH Hin) as (k' & ? & ? & ?). exists k'.
    split_and!; [by right|done|]. simpl. apply elem_of_app. by right.
Qed.

Lemma elem_of_flat_map_preorder (kids : list Tree) k r :
  k ∈ kids → r ∈ flat_map preorder (subtrees k) → r ∈ flat_map preorder kids.
Proof.
  intros Hk Hr. apply list_elem_of_In, in_flat_map. exists k.
  split; [by apply list_elem_of_In|].
  destruct k. simpl in *. right. by apply list_elem_of_In.
Qed.

Lemma getElementById_returns s id fuel :
  wfState s →
  ∀ this t, shape s fuel this = Some t →
    ∃ res, VirtualElement.getElementById fuel this id s = Ok res s ∧
           ∀ r, res = Some r →
                r ∈ flat_map preorder (subtrees t) ∧
                hasAttrValue s "id" id r = true.
Proof.
  intros Hwf. induction fuel as [|fuel IH]; intros this t Hsh; [done|].
  destruct (shape_inv _ _ _ _ Hsh) as (e & He & _ & Hkids).
  destruct (wfState_elem _ _ _ Hwf He) as (_ & _ & Hvalid & _).
  simpl. munfold. rewrite He. simpl.
  rewrite (filterRefs_attrIs s "id" id _ Hwf Hvalid).
  destruct (List.filter (hasAttrValue s "id" id) (children e))
    as [|x rest] eqn:Hfound; simpl.
  - set (g c := match VirtualElement.getElementById fuel c id s with
                | Ok r _ => r
                | _ => None
                end).
    rewrite (foldRefs_last _ g).
    + eexists. split; [done|]. intros r Hr.
      destruct (last (children e)) as [k|] eqn:Hlast; [|done]. simpl in Hr.
      assert (k ∈ children e) as Hk.
      { apply last_Some in Hlast as [l' ->]. apply elem_of_app. right. by left. }
      destruct (elem_of_kids_preorder _ _ _ _ _ Hkids Hk) as (tk & Htk & Hshk & _).
      destruct (IH k tk Hshk) as (res & Hrun & Hres).
      unfold g in Hr. rewrite Hrun in Hr.
      destruct (Hres r Hr) as [Hin Hid]. split; [|done].
      by eapply elem_of_flat_map_preorder.
    + intros c Hc.
      destruct (elem_of_kids_preorder _ _ _ _ _ Hkids Hc) as (tk & _ & Hshk & _).
      destruct (IH c tk Hshk) as (res & Hrun & _).
      unfold g. by rewrite Hrun.
  - eexists. split; [done|]. intros r [= <-].
    destruct (filter_head_elem _ _ _ _ Hfound) as [Hx Hp]. split; [|done].
    by destruct (elem_of_kids_preorder _ _ _ _ _ Hkids Hx) as (_ & _ & _ & ?).
Qed.

(** X10.  [getElementById] of an element returns whenever the links below
    the node form a tree of height at most the budget, and what it returns
    is a proper descendant whose [id] attribute is the argument.  The first
    direct child with that id wins.  When no direct child has it, every
    child is asked in turn and each answer overwrites the previous one: the
    result is what the last child answers, [undefined] if there is no
    child. *)
Theorem element_getElementById_spec s fuel this e t id :
  wfState s → heap s !! this = Some e →
  shape s (S fuel) this = Some t →
  ∃ res, VirtualElement.getElementById (S fuel) this id s = Ok res s ∧
    (∀ r, res = Some r →
       r ∈ flat_map preorder (subtrees t) ∧ hasAttrValue s "id" id r = true) ∧
    (∀ r rest,
       List.filter (hasAttrValue s "id" id) (children e) = r :: rest →
       res = Some r) ∧
    (List.filter (hasAttrValue s "id" id) (children e) = [] →
       match last (children e) with
       | Some k => VirtualElement.getElementById fuel k id s = Ok res s
       | None => res = None
       end).
Proof.
  intros Hwf He Hsh.
  destruct (getElementById_returns s id (S fuel) Hwf this t Hsh) as (res & Hrun & Hres).
  exists res. split_and!; [done|done| |].
  - intros r rest Hfound. revert Hrun. simpl. munfold. rewrite He. simpl.
    destruct (wfState_elem _ _ _ Hwf He) as (_ & _ & Hvalid & _).
    rewrite (filterRefs_attrIs s "id" id _ Hwf Hvalid), Hfound. simpl.
    by intros [= <-].
  - intros Hnone. revert Hrun. simpl. munfold. rewrite He. simpl.
    destruct (wfState_elem _ _ _ Hwf He) as (_ & _ & Hvalid & _).
    rewrite (filterRefs_attrIs s "id" id _ Hwf Hvalid), Hnone. simpl.
    destruct (shape_inv _ _ _ _ Hsh) as (e' & He' & _ & Hkids).
    rewrite He in He'. injection He' as <-.
    set (g c := match VirtualElement.getElementById fuel c id s with
                | Ok r _ => r
                | _ => None
                end).
    rewrite (foldRefs_last _ g).
    + intros [= <-]. destruct (last (children e)) as [k|] eqn:Hlast; [|done].
      simpl. assert (k ∈ children e) as Hk.
      { apply last_Some in Hlast as [l' ->]. apply elem_of_app. right. by left. }
      destruct (elem_of_kids_preorder _ _ _ _ _ Hkids Hk) as (tk & _ & Hshk & _).
      destruct (getElementById_returns s id fuel Hwf k tk Hshk) as (rk & Hrk & _).
      unfold g. by rewrite Hrk.
    + intros c Hc.
      destruct (elem_of_kids_preorder _ _ _ _ _ Hkids Hc) as (tk & _ & Hshk & _).
      destruct (getElementById_returns s id fuel Hwf c tk Hshk) as (rk & Hrk & _).
      unfold g. by rewrite Hrk.
Qed.

(** ** Registering and removing listeners *)

Lemma listenersGet_set_eq ls name v :
  listenersGet (listenersSet name v ls) name = Some v.
Proof.
  induction ls as [|[k w] ls IH]; simpl.
  - by rewrite decide_True.
  - destruct (decide (k = name)) as [->|Hk]; simpl.
    + by rewrite decide_True.
    + by rewrite decide_False.
Qed.

Lemma listenersGet_set_ne ls name v other :
  other ≠ name → listenersGet (listenersSet name v ls) other = listenersGet ls other.
Proof.
  intros Hne. induction ls as [|[k w] ls IH]; simpl.
  - by rewrite decide_False.
  - destruct (decide (k = name)) as [->|Hk]; simpl.
    + by rewrite !decide_False.
    + destruct (decide (k = other)); [done|apply IH].
Qed.

Lemma addEventListener_run s this e name cb :
  heap s !! this = Some e →
  is_Some (listenersGet (eventListeners e) name) ∨ inherited name = false →
  ∃ s1 e1,
    VirtualElement.addEventListener this name cb s = Ok tt s1 ∧
    heap s1 !! this = Some e1 ∧
    listenersGet (eventListeners e1) name
      = Some (default [] (listenersGet (eventListeners e) name) ++ [cb]) ∧
    ∀ other, other ≠ name →
      listenersGet (eventListeners e1) other = listenersGet (eventListeners e) other.
Proof.
  intros He Hcan. unfold VirtualElement.addEventListener. munfold. rewrite He.
  destruct (listenersGet (eventListeners e) name) as [cbs|] eqn:Hcbs.
  - rewrite bool_decide_eq_true_2 by eauto. simpl. rewrite He, Hcbs. simpl.
    rewrite He. eexists _, _. split; [done|]. unfold modElem. simpl.
    rewrite list_lookup_alter_eq, He. simpl. split; [done|]. split.
    + apply listenersGet_set_eq.
    + intros other Hne. by apply listenersGet_set_ne.
  - destruct Hcan as [[? [=]]|Hinh].
    rewrite bool_decide_eq_false_2 by (by intros [? ?]). rewrite Hinh. simpl.
    rewrite He. unfold modElem at 1. simpl.
    rewrite list_lookup_alter_eq, He. simpl. rewrite listenersGet_set_eq.
    unfold modElem at 1. simpl. rewrite list_lookup_alter_eq, He. simpl.
    eexists _, _. split; [done|]. unfold modElem. simpl.
    rewrite list_lookup_alter_eq. rewrite list_lookup_alter_eq, He. simpl.
    split; [done|]. split.
    + apply listenersGet_set_eq.
    + intros other Hne. simpl. by rewrite !listenersGet_set_ne by done.
Qed.

Lemma addEventListener_inherited s this e name cb :
  heap s !! this = Some e →
  listenersGet (eventListeners e) name = None → inherited name = true →
  VirtualElement.addEventListener this name cb s = Throw TypeError s.
Proof.
  intros He Hnone Hinh. unfold VirtualElement.addEventListener. munfold.
  rewrite He, Hnone, Hinh. simpl. by rewrite He, Hnone.
Qed.

Lemma removeEventListener_run s this e name cb cbs :
  heap s !! this = Some e →
  listenersGet (eventListeners e) name = Some cbs →
  ∃ s' e', VirtualElement.removeEventListener this name cb s = Ok tt s' ∧
           heap s' !! this = Some e' ∧
           listenersGet (eventListeners e') name = Some (otherThan cb cbs) ∧
           ∀ other, other ≠ name →
             listenersGet (eventListeners e') other
             = listenersGet (eventListeners e) other.
Proof.
  intros He Hcbs. unfold VirtualElement.removeEventListener. munfold.
  rewrite He, Hcbs. simpl. rewrite He.
  eexists _, _. split; [done|]. unfold modElem. simpl.
  rewrite list_lookup_alter_eq, He. simpl. split; [done|]. split.
  - apply listenersGet_set_eq.
  - intros other Hne. by apply listenersGet_set_ne.
Qed.

(** X11.  [removeEventListener(name, cb)] throws a [TypeError], leaving
    the store as it was, when nothing was ever registered for [name] on the
    node.  Otherwise it returns and every registration of [cb] for [name]
    is gone, however often it was added, the other listeners of [name]
    keeping their order and the lists of the other events being as
    before. *)
Theorem removeEventListener_spec s this e name cb :
  heap s !! this = Some e →
  (listenersGet (eventListeners e) name = None →
     VirtualElement.removeEventListener this name cb s = Throw TypeError s) ∧
  (∀ cbs, listenersGet (eventListeners e) name = Some cbs →
     ∃ s' e', VirtualElement.removeEventListener this name cb s = Ok tt s' ∧
              heap s' !! this = Some e' ∧
              listenersGet (eventListeners e') name = Some (otherThan cb cbs) ∧
              (∀ c, c ∈ otherThan cb cbs ↔ c ∈ cbs ∧ cb_id c ≠ cb_id cb) ∧
              ∀ other, other ≠ name →
                listenersGet (eventListeners e') other
                = listenersGet (eventListeners e) other).
Proof.
  intros He. split.
  - intros Hnone. unfold VirtualElement.removeEventListener. munfold.
    by rewrite He, Hnone.
  - intros cbs Hcbs.
    destruct (removeEventListener_run s this e name cb cbs He Hcbs)
      as (s' & e' & Hrun & He' & Hget & Hother).
    exists s', e'. split_and!; [done..| |done].
    intros c. unfold otherThan.
    rewrite !list_elem_of_In, filter_In, negb_true_iff, bool_decide_eq_false.
    done.
Qed.

Lemma runListeners_ran cbs ev :
  ∃ n, (runListeners cbs ev).2 = cb_id <$> take n cbs.
Proof.
  destruct cbs as [|cb cbs]; [by exists 0%nat|].
  destruct (runListeners_spec (cb :: cbs) ev) as (n & _ & -> & _); [done|].
  by exists n.
Qed.

(** X12.  For an event name that the node has a list for, or that is
    not the name of a member of [Object.prototype]:
    after [addEventListener(name, cb)] followed by
    [removeEventListener(name, cb)] (what the function handed back by
    [addEventListener] does), the node lists for [name] its earlier
    listeners other than [cb]; an event of that type is then dispatched
    without a [TypeError], even on a node that dispatching threw on before,
    and [cb] is not among the listeners that run.  For the name of a
    member of [Object.prototype] that the node has no list for,
    [addEventListener] throws a [TypeError] and the store is as before. *)
Theorem addEventListener_removeEventListener s this e name cb :
  heap s !! this = Some e →
  (is_Some (listenersGet (eventListeners e) name) ∨ inherited name = false →
   ∃ s1 s2 e2,
    VirtualElement.addEventListener this name cb s = Ok tt s1 ∧
    VirtualElement.removeEventListener this name cb s1 = Ok tt s2 ∧
    heap s2 !! this = Some e2 ∧
    listenersGet (eventListeners e2) name
      = Some (otherThan cb (default [] (listenersGet (eventListeners e) name))) ∧
    ∀ event, ev_type event = name →
      ∃ event' ran,
        VirtualElement.dispatchEvent this event s2 = Ok (event', ran) s2 ∧
        cb_id cb ∉ ran) ∧
  (listenersGet (eventListeners e) name = None → inherited name = true →
   VirtualElement.addEventListener this name cb s = Throw TypeError s).
Proof.
  intros He. split; [|by apply addEventListener_inherited]. intros Hcan.
  destruct (addEventListener_run s this e name cb He Hcan)
    as (s1 & e1 & Hadd & He1 & Hget1 & _).
  destruct (removeEventListener_run s1 this e1 name cb _ He1 Hget1)
    as (s2 & e2 & Hrm & He2 & Hget2 & _).
  assert (otherThan cb (default [] (listenersGet (eventListeners e) name) ++ [cb])
          = otherThan cb (default [] (listenersGet (eventListeners e) name))) as Heq.
  { unfold otherThan. rewrite List.filter_app. simpl.
    rewrite bool_decide_eq_true_2 by done. simpl. by rewrite app_nil_r. }
  rewrite Heq in Hget2.
  exists s1, s2, e2. split_and!; [done..|].
  intros event Htype.
  unfold VirtualElement.dispatchEvent. munfold. rewrite He2. simpl.
  rewrite Htype, Hget2. simpl.
  destruct (runListeners_ran
              (otherThan cb (default [] (listenersGet (eventListeners e) name)))
              (with_target (Some this) event)) as [n Hn].
  destruct (runListeners _ _) as [event' ran]. simpl in Hn. subst ran.
  eexists _, _. split; [done|].
  intros (c & Hid & Hin)%list_elem_of_fmap.
  apply elem_of_take in Hin as (i & Hin & _).
  apply list_elem_of_lookup_2 in Hin.
  unfold otherThan in Hin.
  apply list_elem_of_In, filter_In in Hin as [_ Hne].
  apply negb_true_iff, bool_decide_eq_false in Hne. by apply Hne.
Qed.

(** ** [click] *)

Lemma runListeners_all cbs ev :
  Forall keepsBubbles cbs → bubbles ev = true → cbs ≠ [] →
  (runListeners cbs ev).2 = cb_id <$> cbs.
Proof.
  intros Hall. revert ev. induction Hall as [|cb cbs Hcb _ IH]; intros ev Hb Hne; [done|].
  simpl. rewrite (Hcb ev), Hb. simpl.
  destruct cbs as [|cb' cbs']; [done|].
  specialize (IH (cb_run cb ev)). rewrite (Hcb ev) in IH.
  specialize (IH Hb ltac:(done)).
  destruct (runListeners (cb' :: cbs') (cb_run cb ev)) as [ev' ran].
  simpl in *. by rewrite IH.
Qed.

(** X13.  [click()] dispatches to the node an untrusted event of type
    [click] that bubbles.  On a node nothing was ever registered for under
    [click] it throws a [TypeError] and leaves the store as it was, as do
    [dispatchEvent] and [$emit] for any type without a list.  Otherwise the
    [click] listeners run in order on that event, all of them when each
    leaves [event.bubbles] as it finds it. *)
Theorem click_spec s this e :
  heap s !! this = Some e →
  (∀ event, listenersGet (eventListeners e) (ev_type event) = None →
     VirtualElement.dispatchEvent this event s = Throw TypeError s ∧
     VirtualElement.emit this event s = Throw TypeError s) ∧
  (listenersGet (eventListeners e) "click" = None →
     VirtualElement.click this s = Throw TypeError s) ∧
  (∀ cbs, listenersGet (eventListeners e) "click" = Some cbs →
     ∃ event' ran,
       VirtualElement.click this s = Ok (event', ran) s ∧
       (event', ran)
       = runListeners cbs (mkEvent "click" false true false (Some this) false) ∧
       (Forall keepsBubbles cbs → ran = cb_id <$> cbs)).
Proof.
  intros He.
  unfold VirtualElement.click, VirtualElement.emit, VirtualElement.dispatchEvent.
  munfold. rewrite He. simpl. split_and!.
  - intros event ->. done.
  - intros ->. done.
  - intros cbs ->.
    set (ev0 := mkEvent "click" false true false (Some this) false).
    change (with_target (Some this) (newVirtualEvent "click" (Some false) None))
      with ev0.
    destruct (runListeners cbs ev0) as [event' ran] eqn:Hrun.
    eexists _, _. split_and!; [done|done|].
    intros Hall. destruct cbs as [|cb cbs]; [by injection Hrun as <- <-|].
    pose proof (runListeners_all (cb :: cbs) ev0 Hall eq_refl ltac:(done)) as H.
    by rewrite Hrun in H.
Qed.

(** ** [$makeTree] *)

Lemma Tree_induction (P : Tree → Prop) :
  (∀ r kids, Forall P kids → P (Node r kids)) → ∀ t, P t.
Proof.
  intros H. fix IH 1. intros [r kids]. apply H.
  induction kids as [|k kids IHk]; constructor; [apply IH | exact IHk].
Qed.

Lemma shape_kids_length s fuel c k ce :
  shape s fuel c = Some k → heap s !! c = Some ce →
  length (children ce) = length (subtrees k).
Proof.
  destruct fuel; [done|]. intros (e & He & _ & Hkids)%shape_inv Hce.
  rewrite He in Hce. injection Hce as <-. by eapply Forall2_length.
Qed.

Lemma groups_leaf k : length (subtrees k) = 0%nat → groups k = [].
Proof. destruct k as [r [|? ?]]; [done|]. simpl. lia. Qed.

Lemma Forall2_shape_roots s fuel l kids :
  Forall2 (λ c k, shape s fuel c = Some k) l kids → root <$> kids = l.
Proof.
  induction 1 as [|c k l ks Hc _ IH]; [done|]. rewrite fmap_cons, IH. f_equal.
  destruct fuel; [done|]. by destruct (shape_inv _ _ _ _ Hc) as (_ & _ & ? & _).
Qed.

Lemma makeTree_loop s fuel l kids main arr :
  (∀ c k main, c ∈ l → shape s fuel c = Some k →
     makeTree_r fuel main c s = Ok (main ++ groups k) s) →
  Forall2 (λ c k, shape s fuel c = Some k) l kids →
  foldRefs
    (λ (st : list TreeItem * list ref) child,
       let arr := st.2 ++ [child] in
       c <- getElement child ;;
       if (0 <? length (children c))%nat then
         main' <- makeTree_r fuel st.1 child ;;
         ret (main', arr)
       else ret (st.1, arr))
    l (main, arr) s
  = Ok (main ++ flat_map groups kids, arr ++ l) s.
Proof.
  intros Hr H. revert main arr.
  induction H as [|c k l ks Hc _ IH]; intros main arr; simpl.
  - by rewrite !app_nil_r.
  - munfold. destruct (shape_lookup _ _ _ _ Hc) as [ce Hce]. rewrite Hce. simpl.
    pose proof (shape_kids_length _ _ _ _ _ Hc Hce) as Hlen.
    destruct (Nat.ltb_spec 0 (length (children ce))).
    + rewrite (Hr c k main) by (by left || done). simpl.
      rewrite IH by (intros ????; apply Hr; by right).
      by rewrite <- !app_assoc.
    + rewrite groups_leaf by lia. simpl.
      rewrite IH by (intros ????; apply Hr; by right).
      by rewrite <- !app_assoc.
Qed.

Lemma makeTree_r_shape s fuel el t main :
  shape s fuel el = Some t →
  makeTree_r fuel main el s = Ok (main ++ groups t) s.
Proof.
  revert el t main. induction fuel as [|fuel IH]; intros el t main Hsh; [done|].
  destruct (shape_inv _ _ _ _ Hsh) as (e & He & Hroot & Hkids).
  simpl. munfold. rewrite He. simpl.
  destruct t as [r kids]. simpl in Hkids, Hroot. subst r.
  pose proof (Forall2_length _ _ _ Hkids) as Hlen.
  destruct (Nat.ltb_spec 0 (length (children e))); simpl.
  - rewrite (makeTree_loop s fuel (children e) kids) by (by eauto || done).
    simpl. rewrite (Forall2_shape_roots _ _ _ _ Hkids).
    destruct kids; [simpl in Hlen; lia|]. by rewrite <- app_assoc.
  - destruct kids; [|simpl in Hlen; lia]. simpl. by rewrite app_nil_r.
Qed.

Lemma makeTree_top s fuel l tops main :
  Forall2 (λ c k, shape s fuel c = Some k) l tops →
  foldRefs (λ main el,
              let main := main ++ [Single el] in
              e <- getElement el ;;
              if (0 <? length (children e))%nat then makeTree_r fuel main el
              else ret main)
           l main s
  = Ok (main ++ flat_map treeItems tops) s.
Proof.
  intros H. revert main. induction H as [|c k l ks Hc _ IH]; intros main; simpl.
  - by rewrite app_nil_r.
  - munfold. destruct (shape_lookup _ _ _ _ Hc) as [ce Hce]. rewrite Hce. simpl.
    pose proof (shape_kids_length _ _ _ _ _ Hc Hce) as Hlen.
    assert (root k = c) as Hroot.
    { destruct fuel; [done|]. by destruct (shape_inv _ _ _ _ Hc) as (_ & _ & ? & _). }
    unfold treeItems at 1. rewrite Hroot.
    destruct (Nat.ltb_spec 0 (length (children ce))).
    + rewrite (makeTree_r_shape _ _ _ _ _ Hc). rewrite IH.
      by rewrite <- !app_assoc.
    + rewrite groups_leaf by lia. simpl. rewrite IH.
      by rewrite <- !app_assoc.
Qed.

Lemma flatten_app l k : flatten (l ++ k) = flatten l ++ flatten k.
Proof. unfold flatten. by rewrite flat_map_app. Qed.

Lemma flatten_kids ks :
  Forall (λ k, flatten (groups k) ≡ₚ flat_map preorder (subtrees k)) ks →
  flatten (flat_map groups ks) ++ (root <$> ks) ≡ₚ flat_map preorder ks.
Proof.
  induction 1 as [|k ks Hk _ IH]; [done|].
  cbn [flat_map]. rewrite flatten_app, fmap_cons.
  destruct k as [rk kk]. cbn [root preorder subtrees] in *.
  rewrite <- Permutation_middle. cbn [app]. constructor.
  rewrite <- app_assoc. by apply Permutation_app.
Qed.

Lemma flatten_groups t : flatten (groups t) ≡ₚ flat_map preorder (subtrees t).
Proof.
  induction t as [r kids IH] using Tree_induction. cbn [groups subtrees].
  destruct kids as [|k0 kids0] eqn:Hk; [done|]. rewrite <- Hk in *. clear Hk k0 kids0.
  rewrite flatten_app. unfold flatten at 2. cbn [flat_map]. rewrite app_nil_r.
  by apply flatten_kids.
Qed.

(** X14.  [$makeTree()] (and [$tree]) returns whenever the links below
    the top-level nodes form trees within the budget.  It lists every
    top-level node in order, each followed by the arrays of children of
    the nodes below it that have children, the array of a node coming after
    those of its descendants.  A loop over the result that enters the
    arrays meets each node of those trees exactly as often as it occurs in
    them; an empty tree gives the empty array. *)
Theorem makeTree_spec s fuel d t tops :
  domHeap s !! d = Some t →
  Forall2 (λ c k, shape s fuel c = Some k) (directChildren t) tops →
  makeTree fuel d s = Ok (flat_map treeItems tops) s ∧
  get_tree fuel d s = Ok (flat_map treeItems tops) s ∧
  flatten (flat_map treeItems tops) ≡ₚ flat_map preorder tops.
Proof.
  intros Ht Htops.
  assert (makeTree fuel d s = Ok (flat_map treeItems tops) s) as Hrun.
  { unfold makeTree. munfold. rewrite Ht. simpl.
    by rewrite (makeTree_top s fuel _ tops []). }
  split_and!; [done|done|].
  clear. induction tops as [|k ks IH]; [done|].
  simpl. rewrite flatten_app. destruct k as [r kids].
  unfold treeItems at 1. simpl flatten at 1. simpl preorder.
  simpl. constructor. rewrite IH.
  apply Permutation_app_tail.
  apply (flatten_groups (Node r kids)).
Qed.

(** ** The copy [cloneNode] makes *)

Lemma ascending_refl s : ascending s s.
Proof. intros q qe Hq Hge. apply lookup_lt_Some in Hq. lia. Qed.

Lemma ascending_trans s s1 s2 :
  extends s s1 → extends s1 s2 →
  ascending s s1 → ascending s1 s2 → ascending s s2.
Proof.
  intros Hext1 Hext2 H1 H2 q qe Hq Hge.
  destruct (decide (q < length (heap s1))%nat) as [Hlt|Hnlt].
  - rewrite (extends_frame _ _ _ Hext2 Hlt) in Hq. by eapply H1.
  - eapply H2; [done|lia].
Qed.

Lemma cloneChildren_ascending fuel :
  (∀ s n t m s', wfState s → shape s fuel n = Some t →
     VirtualElement.cloneNode fuel n true s = Ok m s' → ascending s s') →
  ∀ l kids s cs s', wfState s → Forall2 (λ c t, shape s fuel c = Some t) l kids →
    mapRefs (λ c, VirtualElement.cloneNode fuel c true) l s = Ok cs s' →
    ascending s s'.
Proof.
  intros IHf l. induction l as [|c l IH]; intros kids s cs s' Hwf Hsh Hrun.
  - injection Hrun as <- <-. apply ascending_refl.
  - apply Forall2_cons_inv_l in Hsh as (t & kids' & Ht & Hkids & ->).
    destruct (cloneNode_spec fuel s c t Hwf Ht)
      as (s1 & Hrun1 & Hext1 & Hwf1 & _).
    assert (Forall2 (λ c t, shape s1 fuel c = Some t) l kids') as Hkids1.
    { eapply Forall2_impl; [exact Hkids|]. intros c' t'. by apply shape_extends. }
    destruct (cloneChildren_spec fuel (cloneNode_spec fuel) l kids' s1 Hwf1 Hkids1)
      as (cs2 & s2 & Hrun2 & Hext2 & _).
    simpl in Hrun. unfold bind, ret in Hrun. rewrite Hrun1, Hrun2 in Hrun.
    injection Hrun as <- <-.
    eapply ascending_trans; [exact Hext1|exact Hext2| |].
    + by eapply IHf.
    + by eapply IH.
Qed.

Lemma cloneNode_ascending fuel s n t m s' :
  wfState s → shape s fuel n = Some t →
  VirtualElement.cloneNode fuel n true s = Ok m s' → ascending s s'.
Proof.
  revert s n t m s'. induction fuel as [|fuel IH]; intros s n t m s' Hwf Hshape Hrun;
    [done|].
  simpl in Hshape. destruct (heap s !! n) as [e|] eqn:He; [|done].
  destruct (mapM (shape s fuel) (children e)) as [kids|] eqn:Hk; [|done].
  clear Hshape. apply mapM_Some in Hk.
  assert (wfState (withHeader e s)) as Hwf0 by by eapply wfState_withHeader.
  assert (Forall2 (λ c t, shape (withHeader e s) fuel c = Some t) (children e) kids)
    as Hk0.
  { eapply Forall2_impl; [exact Hk|]. intros c' t'.
    apply shape_extends, extends_withHeader. }
  destruct (cloneChildren_spec fuel (cloneNode_spec fuel) (children e) kids
              (withHeader e s) Hwf0 Hk0) as (cs & s5 & Hrun5 & Hext & _ & _ & Hb).
  pose proof (cloneChildren_ascending fuel IH _ _ _ _ _ Hwf0 Hk0 Hrun5) as Hasc.
  assert (heap s5 !! length (heap s) = Some (cloneHeader e)) as Hclone.
  { eapply extends_lookup; [exact Hext|]. simpl. by apply list_lookup_middle. }
  rewrite (cloneNode_unfold _ _ _ _ He), Hrun5, Hclone in Hrun.
  injection Hrun as <- <-.
  intros q qe Hq Hge. unfold modElem in Hq. simpl in Hq.
  destruct (decide (q = length (heap s))) as [->|Hne].
  - rewrite list_lookup_alter_eq, Hclone in Hq. injection Hq as <-. simpl.
    eapply Forall_impl; [exact Hb|]. simpl. intros x.
    rewrite length_app. simpl. lia.
  - rewrite list_lookup_alter_ne in Hq by done.
    eapply (Hasc q qe Hq). simpl. rewrite length_app. simpl. lia.
Qed.

Lemma cloneNode_root fuel s n e t :
  wfState s → heap s !! n = Some e → shape s fuel n = Some t →
  ∃ s' cs, VirtualElement.cloneNode fuel n true s = Ok (length (heap s)) s' ∧
           extends s s' ∧
           heap s' !! length (heap s) = Some (with_children cs (cloneHeader e)) ∧
           length cs = length (children e).
Proof.
  intros Hwf He Hsh. destruct fuel as [|fuel]; [done|].
  destruct (shape_inv _ _ _ _ Hsh) as (e' & He' & _ & Hk).
  rewrite He in He'. injection He' as <-.
  assert (wfState (withHeader e s)) as Hwf0 by by eapply wfState_withHeader.
  assert (Forall2 (λ c t, shape (withHeader e s) fuel c = Some t)
                  (children e) (subtrees t)) as Hk0.
  { eapply Forall2_impl; [exact Hk|]. intros c' t'.
    apply shape_extends, extends_withHeader. }
  destruct (cloneChildren_spec fuel (cloneNode_spec fuel) (children e) (subtrees t)
              (withHeader e s) Hwf0 Hk0) as (cs & s5 & Hrun5 & Hext & _ & Hsnap & _).
  assert (heap s5 !! length (heap s) = Some (cloneHeader e)) as Hclone.
  { eapply extends_lookup; [exact Hext|]. simpl. by apply list_lookup_middle. }
  rewrite (cloneNode_unfold _ _ _ _ He), Hrun5, Hclone.
  eexists _, cs. split_and!; [done| | |].
  - destruct (cloneNode_spec (S fuel) s n t Hwf Hsh) as (s' & Hrun & Hext' & _).
    rewrite (cloneNode_unfold _ _ _ _ He), Hrun5, Hclone in Hrun.
    by injection Hrun as <-.
  - unfold modElem. simpl. by rewrite list_lookup_alter_eq, Hclone.
  - symmetry. by eapply Forall2_length.
Qed.

(** X15.  [cloneNode()] returns a new node that has the tag, text,
    parent, tree and attribute record of the original and as many children,
    but is not flagged as removed and has no event listeners, whatever the
    original has.  The copy is detached: although it names the original's
    parent, no node has it among its children and no tree has it in
    [directChildren] or [children]; the objects that existed are as they
    were.  [cloneNode(false)] gives such a copy without children. *)
Theorem cloneNode_detached fuel s this e t :
  wfState s → heap s !! this = Some e → shape s fuel this = Some t →
  (∃ s' ce,
     VirtualElement.cloneNode fuel this true s = Ok (length (heap s)) s' ∧
     heap s' !! length (heap s) = Some ce ∧
     tagName ce = tagName e ∧ innerText ce = innerText e ∧
     parent ce = parent e ∧ parentDocument ce = parentDocument e ∧
     attributes ce = attributes e ∧
     length (children ce) = length (children e) ∧
     isRemoved ce = false ∧ eventListeners ce = [] ∧
     (∀ q qe, heap s' !! q = Some qe → length (heap s) ∉ children qe) ∧
     (∀ d td, domHeap s' !! d = Some td →
        (length (heap s) ∉ directChildren td) ∧ (length (heap s) ∉ domChildren td)) ∧
     heap s `prefix_of` heap s' ∧ domHeap s' = domHeap s) ∧
  VirtualElement.cloneNode fuel this false s
    = Ok (length (heap s)) (withHeader e s).
Proof.
  intros Hwf He Hsh. split.
  - destruct (cloneNode_root fuel s this e t Hwf He Hsh)
      as (s' & cs & Hrun & Hext & Hce & Hlen).
    pose proof (cloneNode_ascending _ _ _ _ _ _ Hwf Hsh Hrun) as Hasc.
    exists s', (with_children cs (cloneHeader e)).
    split_and!; [done..| | | |].
    + intros q qe Hq Hin.
      destruct (decide (q < length (heap s))%nat) as [Hlt|Hge].
      * rewrite (extends_frame _ _ _ Hext Hlt) in Hq.
        destruct (wfState_elem _ _ _ Hwf Hq) as (_ & _ & Hkids & _).
        rewrite Forall_forall in Hkids. specialize (Hkids _ Hin).
        unfold validElem in Hkids. lia.
      * pose proof (Hasc q qe Hq ltac:(lia)) as Hkids.
        rewrite Forall_forall in Hkids. specialize (Hkids _ Hin). lia.
    + intros d td Hd. destruct Hext as (_ & _ & Hdom & _). rewrite Hdom in Hd.
      destruct (wfState_dom _ _ _ Hwf Hd) as [H1 H2].
      rewrite Forall_forall in H1, H2. unfold validElem in *.
      split; intros Hin; [specialize (H1 _ Hin)|specialize (H2 _ Hin)]; lia.
    + by destruct Hext.
    + by destruct Hext as (_ & _ & ? & _).
  - destruct fuel as [|fuel]; [done|].
    simpl. munfold. rewrite He. unfold newVirtualElement. simpl.
    repeat first [ rewrite list_lookup_middle by done
                 | rewrite alter_snoc
                 | progress (unfold modElem, with_heap; simpl) ].
    done.
Qed.

(** ** Stores after a write *)

Lemma wfState_frame s s' :
  heap s' = heap s → domHeap s' = domHeap s →
  length (attrHeap s') = length (attrHeap s) → wfState s → wfState s'.
Proof.
  intros Hh Hd Ha [H1 H2]. unfold wfState. rewrite Hh, Hd. split.
  - eapply Forall_impl; [exact H1|]. intros e (? & ? & Hk & Hp).
    unfold wfElement, validElem in *. rewrite Hh, Hd, Ha. done.
  - eapply Forall_impl; [exact H2|]. intros t. unfold wfDom, validElem.
    by rewrite Hh.
Qed.

Lemma shape_heap s s' fuel r : heap s' = heap s → shape s' fuel r = shape s fuel r.
Proof.
  intros Hh. revert r. induction fuel as [|fuel IH]; intros r; [done|].
  simpl. rewrite Hh. destruct (heap s !! r); [|done].
  by rewrite (mapM_ext _ _ _ IH).
Qed.

(** [setAttribute] as a step: what a later call on the node finds. *)
Lemma setAttribute_step fuel s this e o tr name value :
  wfState s → heap s !! this = Some e → attrHeap s !! attributes e = Some o →
  shape s fuel this = Some tr →
  ∃ s', VirtualElement.setAttribute fuel this name value s = Ok tt s' ∧
        wfState s' ∧ heap s' !! this = Some e ∧
        attrHeap s' !! attributes e = Some (attrSet name value o) ∧
        shape s' fuel this = Some tr ∧
        domHeap s' = domHeap s ∧
        (∀ q qe, heap s !! q = Some qe → heap s' !! q = Some qe).
Proof.
  intros Hwf He Ho Hsh.
  destruct (cloned_exists fuel s this tr Hwf Hsh) as [s1 Hcl].
  pose proof Hcl as (_ & Hext & Hwf1 & _).
  eexists. split; [apply (setAttribute_run fuel s s1 this e Hwf He Hcl)|].
  destruct (attrs_after_write fuel s s1 this e o (parentDocument e)
              (length (heap s)) (attrSet name value) Hwf He Ho Hcl) as [H1 H2].
  split_and!; [|done|done| | |].
  - eapply wfState_frame; [| | |exact Hwf1]; [done|done|].
    simpl. by rewrite length_alter.
  - rewrite (shape_heap s1) by done. by eapply shape_extends.
  - simpl. by destruct Hext as (_ & _ & ? & _).
  - intros q qe Hq. simpl. by eapply extends_lookup.
Qed.

(** ** The class list *)

Lemma split_nonempty sep s : split sep s ≠ [].
Proof.
  destruct s as [|c s]; [done|]. simpl.
  destruct (decide (c = sep)); [done|]. by destruct (split sep s).
Qed.

Lemma concat_split sep s :
  String.concat (String sep EmptyString) (split sep s) = s.
Proof.
  induction s as [|c s IH]; [done|]. simpl.
  pose proof (split_nonempty sep s) as Hne.
  destruct (decide (c = sep)) as [->|Hc].
  - destruct (split sep s) as [|h t]; [done|].
    change (String.concat (String sep "") ("" :: h :: t))
      with (String sep (String.concat (String sep "") (h :: t))).
    by rewrite IH.
  - destruct (split sep s) as [|h t]; [done|].
    rewrite <- IH. by destruct t.
Qed.

Lemma index_cons_None sep c h :
  c ≠ sep → String.index 0 (String sep "") h = None →
  String.index 0 (String sep "") (String c h) = None.
Proof.
  intros Hc Hh. cbn [String.index String.prefix].
  destruct (Ascii.ascii_dec sep c); [congruence|]. by rewrite Hh.
Qed.

Lemma split_no_sep sep s x : x ∈ split sep s → String.index 0 (String sep "") x = None.
Proof.
  revert x. induction s as [|c s IH]; intros x.
  - by intros ->%list_elem_of_singleton.
  - simpl. pose proof (split_nonempty sep s) as Hne.
    destruct (decide (c = sep)) as [->|Hc].
    + intros [->|Hin]%elem_of_cons; [done|]. by apply IH.
    + destruct (split sep s) as [|h t]; [done|].
      intros [->|Hin]%elem_of_cons.
      * apply index_cons_None; [done|]. apply IH. by left.
      * apply IH. by right.
Qed.

(** X16.  [classList] is a snapshot of the [class] attribute split at
    spaces: joining its names with [toString()] gives the attribute back,
    no name it holds contains a space, and for a [class] that is a string
    it is never empty (an empty [class] gives the one name [""]).  A node
    without [class] attribute has the empty list.  Reading it leaves the
    store as it was. *)
Theorem classList_snapshot s this e o :
  heap s !! this = Some e → attrHeap s !! attributes e = Some o →
  ∃ cl, get_classList this s = Ok cl s ∧ parentElement cl = this ∧
    (∀ c, attrGet o "class" = JsString c →
       classListArray.toString cl = c ∧
       (1 ≤ classListArray.length cl)%nat ∧
       (∀ name, classListArray.includes cl name = true →
                String.index 0 " " name = None) ∧
       (c = "" → classListArray.entries cl = [""])) ∧
    (attrGet o "class" = JsUndefined →
       classListArray.entries cl = [] ∧ classListArray.toString cl = "").
Proof.
  intros He Ho. unfold get_classList. munfold. rewrite He. simpl. rewrite Ho.
  eexists. split; [done|]. simpl. split; [done|]. split.
  - intros c ->. unfold classListArray.toString, classListArray.length,
      classListArray.includes, classListArray.entries. simpl.
    split_and!.
    + apply concat_split.
    + pose proof (split_nonempty " "%char c). destruct (split " " c); [done|].
      simpl. lia.
    + intros name Hin%bool_decide_eq_true. by eapply split_no_sep.
    + by intros ->.
  - by intros ->.
Qed.

(** X17.  [classList.add(classes)] returns and leaves as [class] the old
    value, a space and the argument, with leading white space trimmed; it
    does not look at the names the list was built with, and a node without
    [class] attribute gets the text [undefined] in front.
    [classList.remove(classes)] cuts the first occurrence of the argument
    as a substring out of the attribute and trims likewise; on a node
    without [class] attribute it throws a [TypeError] and leaves the store
    as it was. *)
Theorem classList_add_remove (trimStart : string → string)
    fuel s this e o tr cl classes :
  wfState s → heap s !! this = Some e → attrHeap s !! attributes e = Some o →
  shape s fuel this = Some tr → parentElement cl = this →
  (∃ s', classListArray.add trimStart fuel cl classes s = Ok tt s' ∧
         VirtualElement.getAttribute this "class" s'
         = Ok (JsString
                 (trimStart (jsToString (attrGet o "class") +:+ " " +:+ classes)))
              s') ∧
  (∀ c, attrGet o "class" = JsString c →
     ∃ s', classListArray.remove trimStart fuel cl classes s = Ok tt s' ∧
           VirtualElement.getAttribute this "class" s'
           = Ok (JsString (trimStart (cutFirst classes c))) s') ∧
  (attrGet o "class" = JsUndefined →
     classListArray.remove trimStart fuel cl classes s = Throw TypeError s).
Proof.
  intros Hwf He Ho Hsh Hcl. destruct cl as [names p]. simpl in Hcl. subst p.
  assert (∀ v, ∃ s',
    (VirtualElement.setAttribute fuel this "class" (JsString v) ;;;
     c <- VirtualElement.getAttribute this "class" ;;
     match c with
     | JsString c =>
         VirtualElement.setAttribute fuel this "class"
           (JsString (trimStart c))
     | JsUndefined => throw TypeError
     end) s = Ok tt s' ∧
    VirtualElement.getAttribute this "class" s'
    = Ok (JsString (trimStart v)) s') as Htwo.
  { intros v.
    destruct (setAttribute_step fuel s this e o tr "class" (JsString v) Hwf He Ho Hsh)
      as (s1 & Hrun1 & Hwf1 & He1 & Ho1 & Hsh1 & _).
    destruct (setAttribute_step fuel s1 this e _ tr "class" (JsString (trimStart v))
                Hwf1 He1 Ho1 Hsh1)
      as (s2 & Hrun2 & Hwf2 & He2 & Ho2 & Hsh2 & _).
    exists s2. munfold. rewrite Hrun1.
    rewrite (getAttribute_run _ _ _ _ "class" He1 Ho1) by by right.
    rewrite attrGet_attrSet_eq by by apply stores_ne.
    rewrite Hrun2.
    rewrite (getAttribute_run _ _ _ _ "class" He2 Ho2) by by right.
    by rewrite attrGet_attrSet_eq by by apply stores_ne. }
  split_and!.
  - destruct (Htwo (jsToString (attrGet o "class") +:+ " " +:+ classes))
      as (s' & Hrun & Hget).
    exists s'. split; [|done].
    unfold classListArray.add. munfold. cbn [parentElement]. rewrite He. simpl. rewrite Ho. simpl.
    exact Hrun.
  - intros c Hc. destruct (Htwo (cutFirst classes c)) as (s' & Hrun & Hget).
    exists s'. split; [|done].
    unfold classListArray.remove. munfold. cbn [parentElement]. rewrite He. simpl. rewrite Ho. simpl.
    rewrite Hc. exact Hrun.
  - intros Hc. unfold classListArray.remove. munfold. cbn [parentElement].
    rewrite He. simpl. rewrite Ho. simpl. by rewrite Hc.
Qed.

(** ** Creating a node and putting it into a tree *)

(** X18.  [createElement(tag)] returns a new node of that tag and tree
    which is connected ([isConnected] is true), has no parent and no child,
    and has a [class] attribute, the empty string, in an attribute record
    that no other node holds.  The node is registered nowhere: the arrays
    of the trees and the objects that existed are as they were, and no
    listener is called. *)
Theorem createElement_fresh s d tag :
  wfState s → is_Some (domHeap s !! d) →
  ∃ s' e, VirtualDOM.createElement d tag s = Ok (length (heap s)) s' ∧
    wfState s' ∧
    heap s' = heap s ++ [e] ∧ domHeap s' = domHeap s ∧
    notifications s' = notifications s ∧
    tagName e = tag ∧ parentDocument e = d ∧ parent e = None ∧ children e = [] ∧
    VirtualElement.isConnected (length (heap s)) s' = Ok true s' ∧
    VirtualElement.hasAttribute (length (heap s)) "class" s' = Ok true s' ∧
    VirtualElement.getAttribute (length (heap s)) "class" s' = Ok (JsString "") s' ∧
    (∀ q qe, heap s !! q = Some qe → attributes qe ≠ attributes e) ∧
    (∀ dd td, domHeap s' !! dd = Some td →
       (length (heap s) ∉ directChildren td) ∧ (length (heap s) ∉ domChildren td)).
Proof.
  intros Hwf [t Ht].
  unfold VirtualDOM.createElement, newVirtualElement. munfold. rewrite Ht.
  eexists _, _. split; [done|]. simpl.
  assert (extends s (mkState
            (heap s ++ [mkElement tag false (length (attrHeap s)) [] None d "" []])
            (attrHeap s ++ [[("class", JsString "")]])
            (domHeap s) (notifications s) (views s))) as Hext.
  { split_and!; simpl; [by apply prefix_app_r..|done|done|done]. }
  split_and!; try done.
  - destruct (wfState_extends_elem _ _ Hext Hwf) as [H1 H2].
    split; [|done]. simpl. apply Forall_app. split; [done|].
    apply Forall_singleton. unfold wfElement. simpl.
    rewrite length_app. simpl. split_and!; [lia| |done|done].
    by eapply lookup_lt_Some.
  - unfold VirtualElement.isConnected. munfold. simpl.
    by rewrite list_lookup_middle.
  - unfold VirtualElement.hasAttribute. munfold. simpl.
    rewrite list_lookup_middle by done. simpl.
    by rewrite list_lookup_middle.
  - unfold VirtualElement.getAttribute. munfold. simpl.
    rewrite list_lookup_middle by done. simpl.
    by rewrite list_lookup_middle.
  - intros q qe Hq. simpl.
    destruct (wfState_elem _ _ _ Hwf Hq) as (Ha & _). lia.
  - intros dd td Hd.
    destruct (wfState_dom _ _ _ Hwf Hd) as [H1 H2].
    rewrite Forall_forall in H1, H2. unfold validElem in *.
    split; intros Hin; [specialize (H1 _ Hin)|specialize (H2 _ Hin)]; lia.
Qed.

Lemma hasTag_modElem s r f selector n :
  (∀ e, tagName (f e) = tagName e) →
  hasTag (modElem r f s) selector n = hasTag s selector n.
Proof.
  intros Hf. unfold hasTag, modElem. simpl.
  destruct (decide (r = n)) as [->|Hne].
  - rewrite list_lookup_alter_eq. destruct (heap s !! n); simpl; [|done].
    by rewrite Hf.
  - by rewrite list_lookup_alter_ne.
Qed.

Lemma filter_snoc {A} (p : A → bool) l x :
  p x = true → List.filter p (l ++ [x]) = List.filter p l ++ [x].
Proof. intros Hp. rewrite List.filter_app. simpl. by rewrite Hp. Qed.

Lemma filter_ext_eq {A} (p q : A → bool) l :
  (∀ x, p x = q x) → List.filter p l = List.filter q l.
Proof. intros H. induction l as [|x l IH]; simpl; [done|]. by rewrite H, IH. Qed.

(** X19.  [appendChild(child)] of a tree, for a node not flagged as
    removed, puts the node last in [directChildren] and clears its
    [parent]; nothing else changes, so a node that was attached stays in
    its former parent's children and in the tree's [children].  A lookup
    of the node's tag on the tree then answers from the top tier: the
    top-level nodes of that tag, the appended node last among them. *)
Theorem dom_appendChild_lookup s d t child c :
  wfState s → domHeap s !! d = Some t → heap s !! child = Some c →
  isRemoved c = false →
  ∃ s', VirtualDOM.appendChild d child s = Ok tt s' ∧
        heap s' = alter (with_parent None) child (heap s) ∧
        domField directChildren s' d = Some (directChildren t ++ [child]) ∧
        domField domChildren s' d = Some (domChildren t) ∧
        VirtualDOM.querySelectorAll d (tagName c) s'
          = Ok (List.filter (hasTag s (tagName c)) (directChildren t) ++ [child]) s' ∧
        ∃ first, VirtualDOM.querySelector d (tagName c) s' = Ok (Some first) s' ∧
                 hasTag s (tagName c) first = true.
Proof.
  intros Hwf Ht Hc Hrm.
  rewrite (dom_appendChild_run s d t Ht child c Hc), Hrm.
  eexists. split; [done|]. split; [done|].
  set (s' := modElem child (with_parent None)
               (modDom d (with_directChildren (directChildren t ++ [child])) s)).
  assert (domHeap s' !! d
          = Some (with_directChildren (directChildren t ++ [child]) t)) as Ht'.
  { simpl. by rewrite list_lookup_alter_eq, Ht. }
  assert (hasTag s (tagName c) child = true) as Htag.
  { unfold hasTag. rewrite Hc. by apply bool_decide_eq_true_2. }
  assert (Forall (validElem s') (directChildren t ++ [child])) as Hvalid.
  { destruct (wfState_dom _ _ _ Hwf Ht) as [H1 _].
    apply Forall_app. split.
    - eapply Forall_impl; [exact H1|]. intros x. unfold validElem. simpl.
      by rewrite length_alter.
    - apply Forall_singleton. unfold validElem. simpl. rewrite length_alter.
      by eapply lookup_lt_Some. }
  assert (List.filter (hasTag s' (tagName c)) (directChildren t ++ [child])
          = List.filter (hasTag s (tagName c)) (directChildren t) ++ [child])
    as Hfilter.
  { rewrite (filter_ext_eq _ (hasTag s (tagName c))).
    - by apply filter_snoc.
    - intros x. unfold s'. by rewrite hasTag_modElem. }
  split_and!.
  - unfold domField. by rewrite Ht'.
  - unfold domField. by rewrite Ht'.
  - unfold VirtualDOM.querySelectorAll. munfold. rewrite Ht'. simpl.
    rewrite (filterRefs_tagIs s' _ _ Hvalid), Hfilter.
    rewrite length_app. simpl.
    destruct (Nat.ltb_spec 0 (length (List.filter (hasTag s (tagName c))
                                        (directChildren t)) + 1)); [done|lia].
  - destruct (List.filter (hasTag s (tagName c)) (directChildren t) ++ [child])
      as [|first rest] eqn:Hfound; [by destruct (List.filter _ _)|].
    exists first. split.
    + unfold VirtualDOM.querySelector. munfold. rewrite Ht'. simpl.
      rewrite (filterRefs_tagIs s' _ _ Hvalid), Hfilter. done.
    + assert (first ∈ List.filter (hasTag s (tagName c)) (directChildren t) ++ [child])
        as Hin by (rewrite Hfound; by left).
      apply elem_of_app in Hin as [Hin|Hin].
      * by apply list_elem_of_In, filter_In in Hin as [_ ?].
      * by apply list_elem_of_singleton in Hin as ->.
Qed.

Lemma firstAt_snoc {A} (l : list A) x : x ∉ l → firstAt (l ++ [x]) x (length l).
Proof.
  intros Hout. split.
  - by rewrite list_lookup_middle.
  - intros j Hj Hx. rewrite lookup_app_l in Hx by done.
    apply Hout. by eapply list_elem_of_lookup_2.
Qed.

(** X20.  On a tree, [appendChild(child)] followed by
    [removeChild(child)], for a node that was neither removed nor
    top-level, gives back the arrays the tree had; but the node is now
    flagged as removed and has lost its [parent], and appending it again
    returns without changing the store. *)
Theorem dom_appendChild_removeChild s d t child c :
  domHeap s !! d = Some t → heap s !! child = Some c →
  isRemoved c = false → child ∉ directChildren t →
  ∃ s1 s2, VirtualDOM.appendChild d child s = Ok tt s1 ∧
           VirtualDOM.removeChild d child s1 = Ok tt s2 ∧
           domField directChildren s2 d = Some (directChildren t) ∧
           domField domChildren s2 d = Some (domChildren t) ∧
           heap s2 !! child = Some (with_isRemoved true (with_parent None c)) ∧
           VirtualDOM.appendChild d child s2 = Ok tt s2.
Proof.
  intros Ht Hc Hrm Hout.
  rewrite (dom_appendChild_run s d t Ht child c Hc), Hrm.
  set (s1 := modElem child (with_parent None)
               (modDom d (with_directChildren (directChildren t ++ [child])) s)).
  assert (domHeap s1 !! d
          = Some (with_directChildren (directChildren t ++ [child]) t)) as Ht1.
  { simpl. by rewrite list_lookup_alter_eq, Ht. }
  assert (heap s1 !! child = Some (with_parent None c)) as Hc1.
  { simpl. by rewrite list_lookup_alter_eq, Hc. }
  pose proof (firstAt_snoc (directChildren t) child Hout) as Hfirst.
  eexists _, _. split; [done|]. split.
  { apply (dom_removeChild_top s1 d _ Ht1).
    - unfold validElem. by eapply lookup_lt_Some.
    - simpl. apply elem_of_app. right. by left. }
  set (s2 := modElem child _ (modDom d _ s1)).
  assert (heap s2 !! child = Some (with_isRemoved true (with_parent None c))) as Hc2.
  { unfold s2. simpl. rewrite list_lookup_alter_eq.
    simpl in Hc1. by rewrite Hc1. }
  assert (domHeap s2 !! d = Some t) as Ht2.
  { unfold s2. simpl. rewrite list_lookup_alter_eq.
    simpl in Ht1. rewrite Ht1. simpl.
    rewrite (splice_delete_found _ _ _ Hfirst).
    rewrite delete_middle, app_nil_r. by destruct t. }
  split_and!.
  - unfold domField. by rewrite Ht2.
  - unfold domField. by rewrite Ht2.
  - done.
  - by rewrite (dom_appendChild_run s2 d t Ht2 child _ Hc2).
Qed.

(** ** Setting an attribute and looking it up *)

Lemma hasAttrValue_intro s r e o name value :
  heap s !! r = Some e → attrHeap s !! attributes e = Some o →
  attrGet o name = JsString value → hasAttrValue s name value r = true.
Proof. intros. apply hasAttrValue_exact. eauto. Qed.

(** X21.  After [id = v] on a top-level node, [getElementById(v)] of its
    tree returns a top-level node whose [id] is [v] (never [undefined]),
    and after [className = v], [getElementsByClassName(v)] of the tree
    returns top-level nodes only, the node among them; the getters [id]
    and [className] read the assigned value. *)
Theorem set_id_getElementById fuel s this e t tr v :
  wfState s → heap s !! this = Some e →
  domHeap s !! parentDocument e = Some t →
  shape s fuel this = Some tr → this ∈ directChildren t →
  (∃ s' r, VirtualElement.set_id fuel this (JsString v) s = Ok tt s' ∧
           VirtualElement.get_id this s' = Ok (JsString v) s' ∧
           VirtualDOM.getElementById (parentDocument e) v s' = Ok (Some r) s' ∧
           r ∈ directChildren t ∧ hasAttrValue s' "id" v r = true) ∧
  (∃ s' found,
     VirtualElement.set_className fuel this (JsString v) s = Ok tt s' ∧
     VirtualElement.get_className this s' = Ok (JsString v) s' ∧
     VirtualDOM.getElementsByClassName (parentDocument e) v s' = Ok found s' ∧
     this ∈ found ∧
     ∀ r, r ∈ found → r ∈ directChildren t ∧ hasAttrValue s' "class" v r = true).
Proof.
  intros Hwf He Ht Hsh Htop.
  destruct (wfState_attrs _ _ _ Hwf He) as [o Ho].
  assert (∀ name, name ≠ "__proto__" → ∃ s',
    VirtualElement.setAttribute fuel this name (JsString v) s = Ok tt s' ∧
    wfState s' ∧
    VirtualElement.getAttribute this name s' = Ok (JsString v) s' ∧
    domHeap s' !! parentDocument e = Some t ∧
    this ∈ List.filter (hasAttrValue s' name v) (directChildren t)) as Hset.
  { intros name Hname.
    destruct (setAttribute_step fuel s this e o tr name (JsString v) Hwf He Ho Hsh)
      as (s' & Hrun & Hwf' & He' & Ho' & _ & Hdom & _).
    exists s'. split_and!; [done|done| | |].
    - rewrite (getAttribute_run _ _ _ _ name He' Ho').
      + by rewrite attrGet_attrSet_eq by by apply stores_ne.
      + left. rewrite attrHas_attrSet_eq. by apply stores_ne.
    - by rewrite Hdom.
    - apply list_elem_of_In, filter_In. split; [by apply list_elem_of_In|].
      eapply hasAttrValue_intro; [done..|].
      apply attrGet_attrSet_eq. by apply stores_ne. }
  split.
  - destruct (Hset "id") as (s' & Hrun & Hwf' & Hget & Ht' & Hin); [done|].
    destruct (wfState_dom _ _ _ Hwf' Ht') as [Hvalid _].
    destruct (List.filter (hasAttrValue s' "id" v) (directChildren t))
      as [|r rest] eqn:Hfound; [by apply elem_of_nil in Hin|].
    exists s', r. split_and!; [done|done| | |].
    + unfold VirtualDOM.getElementById. munfold. rewrite Ht'. simpl.
      by rewrite (filterRefs_attrIs s' "id" v _ Hwf' Hvalid), Hfound.
    + destruct (filter_head_elem _ _ _ _ Hfound) as [? _]. done.
    + by destruct (filter_head_elem _ _ _ _ Hfound) as [_ ?].
  - destruct (Hset "class") as (s' & Hrun & Hwf' & Hget & Ht' & Hin); [done|].
    destruct (wfState_dom _ _ _ Hwf' Ht') as [Hvalid _].
    exists s', (List.filter (hasAttrValue s' "class" v) (directChildren t)).
    split_and!; [done|done| |done|].
    + unfold VirtualDOM.getElementsByClassName. munfold. rewrite Ht'. simpl.
      rewrite (filterRefs_attrIs s' "class" v _ Hwf' Hvalid).
      destruct (List.filter (hasAttrValue s' "class" v) (directChildren t));
        [by apply elem_of_nil in Hin|done].
    + intros r Hr. apply list_elem_of_In, filter_In in Hr as [Hr ?].
      split; [by apply list_elem_of_In|done].
Qed.

(** ** Trees under a write *)

Lemma Forall2_exists_l {A B} (P : A → B → Prop) l k y :
  Forall2 P l k → y ∈ k → ∃ x, P x y.
Proof.
  induction 1 as [|x' y' l k Hxy _ IH]; [by intros ?%elem_of_nil|].
  intros [->|Hin]%elem_of_cons; [by exists x'|by apply IH].
Qed.

Lemma Forall2_impl_both {A B} (P Q : A → B → Prop) l k :
  Forall2 P l k → (∀ x y, x ∈ l → y ∈ k → P x y → Q x y) → Forall2 Q l k.
Proof.
  induction 1 as [|x y l k Hxy _ IH]; intros HPQ; constructor.
  - apply HPQ; [by left|by left|done].
  - apply IH. intros x' y' ? ?. apply HPQ; by right.
Qed.

Lemma shape_mono s d r t : shape s d r = Some t → shape s (S d) r = Some t.
Proof.
  revert r t. induction d as [|d IH]; intros r t Hsh; [done|].
  destruct (shape_inv _ _ _ _ Hsh) as (e & He & Hroot & Hkids).
  destruct t as [r' kids]. simpl in Hroot, Hkids. subst r'.
  change (shape s (S (S d)) r) with
    (match heap s !! r with
     | Some e => match mapM (shape s (S d)) (children e) with
                 | Some kids => Some (Node r kids)
                 | None => None
                 end
     | None => None
     end).
  rewrite He.
  assert (mapM (shape s (S d)) (children e) = Some kids) as ->; [|done].
  apply mapM_Some. eapply Forall2_impl; [exact Hkids|]. intros c k. apply IH.
Qed.

Lemma shape_descendant s fuel r t x :
  shape s (S fuel) r = Some t → x ∈ flat_map preorder (subtrees t) →
  ∃ tx, shape s fuel x = Some tx.
Proof.
  revert r t. induction fuel as [|fuel IH]; intros r t Hsh Hx.
  - destruct (shape_inv _ _ _ _ Hsh) as (e & _ & _ & Hkids).
    destruct (subtrees t); [by apply elem_of_nil in Hx|].
    by apply Forall2_cons_inv_r in Hkids as (? & ? & ? & _).
  - destruct (shape_inv _ _ _ _ Hsh) as (e & _ & _ & Hkids).
    apply list_elem_of_In, in_flat_map in Hx as (k & Hk & Hx).
    apply list_elem_of_In in Hk, Hx.
    destruct (Forall2_exists_l _ _ _ _ Hkids Hk) as (c & Hc).
    destruct (shape_inv _ _ _ _ Hc) as (_ & _ & Hroot & _).
    destruct k as [rk kk]. simpl in Hroot, Hx. subst rk.
    apply elem_of_cons in Hx as [->|Hx]; [by eexists|].
    destruct (IH c (Node c kk) Hc Hx) as [tx Htx].
    exists tx. by apply shape_mono.
Qed.

Lemma shape_acyclic s fuel r t :
  shape s fuel r = Some t → r ∉ flat_map preorder (subtrees t).
Proof.
  revert t. induction fuel as [|fuel IH]; intros t Hsh Hin; [done|].
  destruct (shape_descendant _ _ _ _ _ Hsh Hin) as [t' Ht'].
  pose proof (shape_mono _ _ _ _ Ht') as Hup. rewrite Hsh in Hup.
  injection Hup as <-. by apply (IH t).
Qed.

Lemma shape_modElem_keep s x f d r :
  (∀ e, children (f e) = children e) →
  shape (modElem x f s) d r = (λ t, t) <$> shape s d r.
Proof.
  intros Hf. revert r. induction d as [|d IH]; intros r; [done|].
  simpl. assert (∀ c, shape (modElem x f s) d c = shape s d c) as IH'.
  { intros c. rewrite IH. by destruct (shape s d c). }
  destruct (decide (x = r)) as [->|Hne].
  - rewrite list_lookup_alter_eq. destruct (heap s !! r) as [e|]; simpl; [|done].
    rewrite Hf, (mapM_ext _ _ _ IH'). by destruct (mapM _ _).
  - rewrite list_lookup_alter_ne by done. destruct (heap s !! r); [|done].
    rewrite (mapM_ext _ _ _ IH'). by destruct (mapM _ _).
Qed.

Lemma shape_modElem_outside s x f d r t :
  shape s d r = Some t → x ∉ preorder t → shape (modElem x f s) d r = Some t.
Proof.
  revert r t. induction d as [|d IH]; intros r t Hsh Hout; [done|].
  destruct (shape_inv _ _ _ _ Hsh) as (e & He & Hroot & Hkids).
  destruct t as [r' kids]. simpl in Hroot, Hkids, Hout. subst r'.
  apply not_elem_of_cons in Hout as [Hne Hout].
  simpl. rewrite list_lookup_alter_ne, He by done.
  assert (mapM (shape (modElem x f s) d) (children e) = Some kids) as ->; [|done].
  apply mapM_Some. eapply Forall2_impl_both; [exact Hkids|].
  intros c k Hc Hk Hck. apply IH; [done|]. intros Hx. apply Hout.
  apply list_elem_of_In, in_flat_map. exists k.
  split; by apply list_elem_of_In.
Qed.

Lemma wfState_modDom s d f :
  wfState s → (∀ t, domHeap s !! d = Some t → wfDom s t → wfDom s (f t)) →
  wfState (modDom d f s).
Proof.
  intros [H1 H2] Hf. split; simpl.
  - eapply Forall_impl; [exact H1|]. intros e. unfold wfElement, validElem, modDom.
    simpl. by rewrite length_alter.
  - apply Forall_alter.
    + eapply Forall_impl; [exact H2|]. done.
    + intros t Ht _. apply (Hf t Ht). rewrite Forall_forall in H2.
      apply H2. by eapply list_elem_of_lookup_2.
Qed.

(** [appendChild] of an element as a step: what a later call finds. *)
Lemma appendChild_step n s this e t tr child tc :
  wfState s → heap s !! this = Some e →
  domHeap s !! parentDocument e = Some t →
  shape s (S n) this = Some tr → shape s n child = Some tc →
  this ∉ preorder tc →
  ∃ s', VirtualElement.appendChild (S n) this child s = Ok tt s' ∧
        wfState s' ∧
        heap s' !! this = Some (with_children (children e ++ [child]) e) ∧
        domHeap s' !! parentDocument e
          = Some (with_domChildren (domChildren t ++ [child]) t) ∧
        (length (heap s) < length (heap s'))%nat ∧
        shape s' (S n) this = Some (Node this (subtrees tr ++ [tc])).
Proof.
  intros Hwf He Ht Hsh Hshc Hout.
  destruct (cloned_exists (S n) s this tr Hwf Hsh) as [s1 Hcl].
  pose proof Hcl as (_ & Hext & Hwf1 & Hlen & _).
  destruct (shape_lookup _ _ _ _ Hshc) as [c Hc].
  assert (validElem s child) as Hvalid by by eapply lookup_lt_Some.
  assert (child ≠ this) as Hne.
  { intros ->. apply Hout. destruct n; [done|].
    destruct (shape_inv _ _ _ _ Hshc) as (_ & _ & Hroot & _).
    destruct tc. simpl in *. subst. by left. }
  assert (heap s1 !! this = Some e) as He1 by by eapply extends_lookup.
  assert (domHeap s1 !! parentDocument e = Some t) as Ht1
    by by destruct Hext as (_ & _ & -> & _).
  assert (validElem s1 child) as Hvalid1 by (unfold validElem in *; lia).
  assert (validElem s1 this) as Hthis1 by by eapply lookup_lt_Some.
  eexists. split; [by apply (appendChild_run (S n) s s1 this e Hwf He Hcl)|].
  split_and!.
  - eapply wfState_frame; [reflexivity|reflexivity|reflexivity|].
    apply wfState_modDom.
    + apply wfState_modElem.
      * apply wfState_modElem; [done|].
        intros e0 _ (? & ? & Hk & ?). unfold wfElement. simpl.
        split_and!; [done|done| |done]. apply Forall_app. split; [done|].
        by apply Forall_singleton.
      * intros e0 _ (? & ? & ? & _). unfold wfElement. simpl.
        split_and!; [done..|]. unfold validElem. simpl. by rewrite length_alter.
    + intros t0 _ [H1 H2]. split; [done|]. simpl. apply Forall_app.
      split; [done|]. apply Forall_singleton. unfold validElem. simpl.
      by rewrite !length_alter.
  - simpl. rewrite list_lookup_alter_ne by done.
    by rewrite list_lookup_alter_eq, He1.
  - simpl. by rewrite list_lookup_alter_eq, Ht1.
  - simpl. by rewrite !length_alter.
  - rewrite (shape_heap (modElem child (with_parent (Some this))
               (modElem this (λ e0, with_children (children e0 ++ [child]) e0) s1)))
      by done.
    rewrite shape_modElem_keep by done.
    destruct (shape_inv _ _ _ _ Hsh) as (e' & He' & Hroot & Hkids).
    rewrite He in He'. injection He' as <-.
    pose proof (shape_acyclic _ _ _ _ Hsh) as Hacyc.
    simpl. rewrite list_lookup_alter_eq, He1. simpl.
    assert (mapM (shape (modElem this
                           (λ e0, with_children (children e0 ++ [child]) e0) s1) n)
                 (children e ++ [child]) = Some (subtrees tr ++ [tc])) as ->; [|done].
    apply mapM_Some, Forall2_app.
    + eapply Forall2_impl_both; [exact Hkids|]. intros c' k Hc' Hk Hck.
      apply shape_modElem_outside; [by eapply shape_extends|].
      intros Hin. apply Hacyc. apply list_elem_of_In, in_flat_map.
      exists k. split; by apply list_elem_of_In.
    + constructor; [|done].
      apply shape_modElem_outside; [by eapply shape_extends|done].
Qed.

(** X22.  [appendChild(child)] followed by [removeChild(child)] on an
    element, for a node that was not among its children nor in the tree's
    [children] and whose own descendants do not include the element, gives
    back the children of the element and the arrays of the tree; the node
    itself comes out flagged as removed, with the element as its
    [parent]. *)
Theorem appendChild_removeChild n s this e t tr child tc :
  wfState s → heap s !! this = Some e →
  domHeap s !! parentDocument e = Some t →
  shape s (S n) this = Some tr → shape s n child = Some tc →
  this ∉ preorder tc → child ∉ children e → child ∉ domChildren t →
  ∃ s1 s2,
    VirtualElement.appendChild (S n) this child s = Ok tt s1 ∧
    VirtualElement.removeChild (S n) this child s1 = Ok tt s2 ∧
    fieldOf children s2 this = Some (children e) ∧
    domField domChildren s2 (parentDocument e) = Some (domChildren t) ∧
    domField directChildren s2 (parentDocument e) = Some (directChildren t) ∧
    fieldOf isRemoved s2 child = Some true ∧
    fieldOf parent s2 child = Some (Some this).
Proof.
  intros Hwf He Ht Hsh Hshc Hout Hnew Hnew'.
  destruct (appendChild_step n s this e t tr child tc Hwf He Ht Hsh Hshc Hout)
    as (s1 & Hrun1 & Hwf1 & He1 & Ht1 & Hlen1 & Hsh1).
  destruct (cloned_exists (S n) s1 this _ Hwf1 Hsh1) as [s1c Hcl].
  pose proof Hcl as (_ & Hext & _ & Hlen & _).
  destruct (shape_lookup _ _ _ _ Hshc) as [c Hc].
  assert (validElem s1 child) as Hvalid.
  { apply lookup_lt_Some in Hc. unfold validElem. lia. }
  assert (child ≠ this) as Hne.
  { intros ->. apply Hout. destruct n; [done|].
    destruct (shape_inv _ _ _ _ Hshc) as (_ & _ & Hroot & _).
    destruct tc. simpl in *. subst. by left. }
  assert (fieldOf parent s1 child = Some (Some this)) as Hparent.
  { revert Hrun1.
    destruct (cloned_exists (S n) s this tr Hwf Hsh) as [s0 Hcl0].
    rewrite (appendChild_run (S n) s s0 this e Hwf He Hcl0 child)
      by (by eapply lookup_lt_Some).
    intros [= <-]. autorewrite with store. rewrite fieldOf_modElem_eq.
    unfold fieldOf. simpl.
    destruct (lookup_lt_is_Some_2
                (alter (λ e0, with_children (children e0 ++ [child]) e0) this
                       (heap s0)) child) as [c' Hc'].
    { rewrite length_alter. destruct Hcl0 as (_ & _ & _ & ? & _).
      apply lookup_lt_Some in Hc. lia. }
    by rewrite Hc'. }
  assert (heap s1c !! this = Some (with_children (children e ++ [child]) e))
    as He1c by by eapply extends_lookup.
  assert (domHeap s1c !! parentDocument e
          = Some (with_domChildren (domChildren t ++ [child]) t)) as Ht1c
    by by destruct Hext as (_ & _ & -> & _).
  exists s1. eexists. split; [done|].
  split; [by apply (removeChild_run (S n) s1 s1c this _ Hwf1 He1 Hcl)|].
  simpl parentDocument.
  split_and!.
  - autorewrite with store. rewrite fieldOf_modElem_keep by done.
    rewrite fieldOf_modElem_eq. unfold fieldOf. rewrite He1c. simpl.
    rewrite (splice_delete_found _ _ _ (firstAt_snoc _ _ Hnew)).
    by rewrite delete_middle, app_nil_r.
  - autorewrite with store. dom_field Ht1c. rewrite ?Ht1c. simpl.
    rewrite (splice_delete_found _ _ _ (firstAt_snoc _ _ Hnew')).
    by rewrite delete_middle, app_nil_r.
  - autorewrite with store. dom_field Ht1c. by rewrite ?Ht1c.
  - autorewrite with store. rewrite fieldOf_modElem_eq.
    unfold fieldOf. simpl.
    destruct (lookup_lt_is_Some_2
                (alter (λ e0, with_children
                                (splice (indexOf (children e0) child) 1 []
                                        (children e0)) e0) this (heap s1c)) child)
      as [c' Hc']; [rewrite length_alter; unfold validElem in Hvalid; lia|].
    by rewrite Hc'.
  - autorewrite with store. rewrite !fieldOf_modElem_keep by done.
    rewrite (fieldOf_extends _ _ _ _ Hext) by done. done.
Qed.

(** ** Registering a tree-change listener *)

(** X23.  [$onTreeChange(callback)] registers silently; a later
    [setAttribute] on a node of that tree then calls the listeners that
    were registered and the new one after them, each once, with the node
    and the snapshot taken at the start of the call, and calls nothing
    else. *)
Theorem onTreeChange_then_setAttribute fuel s this e t tr cb name value :
  wfState s → heap s !! this = Some e →
  domHeap s !! parentDocument e = Some t →
  shape s fuel this = Some tr →
  ∃ s0 s', VirtualDOM.onTreeChange (parentDocument e) cb s = Ok tt s0 ∧
           notifications s0 = notifications s ∧
           VirtualElement.setAttribute fuel this name value s0 = Ok tt s' ∧
           notifications s'
           = notifications s
             ++ callsFor (treeChangeListeners t ++ [cb]) this (length (heap s)).
Proof.
  intros Hwf He Ht Hsh.
  set (s0 := modDom (parentDocument e)
               (λ t, with_treeChangeListeners (treeChangeListeners t ++ [cb]) t) s).
  assert (VirtualDOM.onTreeChange (parentDocument e) cb s = Ok tt s0) as Hreg.
  { unfold VirtualDOM.onTreeChange, updDom. by rewrite Ht. }
  assert (wfState s0) as Hwf0.
  { apply wfState_modDom; [done|]. by intros t0 _ [? ?]. }
  assert (heap s0 !! this = Some e) as He0 by done.
  assert (shape s0 fuel this = Some tr) as Hsh0 by by rewrite (shape_heap s).
  destruct (cloned_exists fuel s0 this tr Hwf0 Hsh0) as [s1 Hcl].
  pose proof Hcl as (_ & Hext & _).
  exists s0. eexists. split; [done|]. split; [done|].
  split; [apply (setAttribute_run fuel s0 s1 this e Hwf0 He0 Hcl)|].
  rewrite notifications_delivered. autorewrite with store.
  rewrite (listenersOf_extends _ _ _ Hext).
  destruct Hext as (_ & _ & _ & -> & _). simpl. f_equal.
  unfold listenersOf. simpl. by rewrite list_lookup_alter_eq, Ht.
Qed.

(** ** What [replaceChild] leaves of the old child *)

(** X24.  [replaceChild(child, oldChild)] of an element makes the element
    the [parent] of [child] but does nothing to [oldChild]: it keeps its
    [parent] and is not flagged as removed, so [isConnected] answers for it
    as before.  In the tree's [children] the first occurrence of
    [oldChild] is overwritten by [child]; when there is none the array is
    left as it was. *)
Theorem replaceChild_keeps_oldChild fuel s this e t tr child oldChild o :
  wfState s → heap s !! this = Some e →
  domHeap s !! parentDocument e = Some t →
  shape s fuel this = Some tr → validElem s child →
  heap s !! oldChild = Some o → oldChild ∈ children e →
  oldChild ≠ child → oldChild ≠ this →
  ∃ s', VirtualElement.replaceChild fuel this child oldChild s = Ok tt s' ∧
        heap s' !! oldChild = Some o ∧
        VirtualElement.isConnected oldChild s' = Ok (negb (isRemoved o)) s' ∧
        fieldOf parent s' child = Some (Some this) ∧
        (∀ i, firstAt (domChildren t) oldChild i →
           domField domChildren s' (parentDocument e)
           = Some (<[i := child]> (domChildren t))) ∧
        ((oldChild ∉ domChildren t) →
           domField domChildren s' (parentDocument e) = Some (domChildren t)).
Proof.
  intros Hwf He Ht Hsh Hvalid Ho Hin Hne Hne'.
  destruct (cloned_exists fuel s this tr Hwf Hsh) as [s1 Hcl].
  pose proof Hcl as (_ & Hext & _ & Hlen & _).
  assert (domHeap s1 !! parentDocument e = Some t) as Ht1
    by by destruct Hext as (_ & _ & -> & _).
  eexists. split; [by apply (replaceChild_run fuel s s1 this e Hwf He Hcl)|].
  assert (heap (delivered (parentDocument e) this (length (heap s))
            (modDom (parentDocument e)
               (λ t0, with_domChildren
                        (arraySet (indexOf (domChildren t0) oldChild) child
                                  (domChildren t0)) t0)
               (modElem child (with_parent (Some this))
                  (modElem this
                     (λ e0, with_children
                              (arraySet (indexOf (children e0) oldChild) child
                                        (children e0)) e0) s1)))) !! oldChild
          = Some o) as Hold.
  { simpl. rewrite !list_lookup_alter_ne by done. by eapply extends_lookup. }
  split_and!.
  - done.
  - apply (isConnected_run _ _ (isRemoved o)). unfold fieldOf. by rewrite Hold.
  - autorewrite with store. rewrite fieldOf_modElem_eq. unfold fieldOf. simpl.
    destruct (lookup_lt_is_Some_2
                (alter (λ e0, with_children
                                (arraySet (indexOf (children e0) oldChild) child
                                          (children e0)) e0) this (heap s1)) child)
      as [c' Hc']; [rewrite length_alter; unfold validElem in Hvalid; lia|].
    by rewrite Hc'.
  - intros i Hi. autorewrite with store. dom_field Ht1. rewrite ?Ht1. simpl.
    by rewrite (arraySet_found _ _ _ _ Hi).
  - intros Hout. autorewrite with store. dom_field Ht1. rewrite ?Ht1. simpl.
    by rewrite (arraySet_absent _ _ _ Hout).
Qed.

(** ** Assigning [lastChild] *)

Lemma arraySet_last {A} (c : A) l :
  arraySet (Z.of_nat (length l) - 1) c l
  = match l with [] => [] | _ => take (length l - 1) l ++ [c] end.
Proof.
  unfold arraySet. destruct l as [|x l]; [done|].
  destruct (Z.ltb_spec (Z.of_nat (length (x :: l)) - 1) 0); [simpl in *; lia|].
  destruct (Z.ltb_spec (Z.of_nat (length (x :: l)) - 1)
                       (Z.of_nat (length (x :: l)))); [|lia].
  replace (Z.to_nat (Z.of_nat (length (x :: l)) - 1))
    with (length (x :: l) - 1)%nat by lia.
  apply list_eq. intros i.
  destruct (decide (i = length (x :: l) - 1)%nat) as [->|Hne].
  - rewrite list_lookup_insert_eq by (simpl; lia).
    rewrite lookup_app_r by (rewrite length_take; lia).
    rewrite length_take.
    replace (length (x :: l) - 1 - (length (x :: l) - 1) `min` length (x :: l))%nat
      with 0%nat by lia. done.
  - rewrite list_lookup_insert_ne by done.
    destruct (decide (i < length (x :: l) - 1)%nat).
    + rewrite lookup_app_l by (rewrite length_take; lia).
      by rewrite lookup_take_lt.
    + rewrite lookup_ge_None_2 by lia.
      rewrite lookup_ge_None_2; [done|].
      rewrite length_app, length_take. change (length [c]) with 1%nat. lia.
Qed.

(** X25.  Assigning [lastChild] returns.  On a node with children the
    assigned node takes the place of the last child; on a node without
    children the assignment adds no child, unlike that of [firstChild].
    Neither the [parent] of the assigned node nor any tree changes. *)
Theorem lastChild_set fuel s this e tr c :
  wfState s → heap s !! this = Some e → shape s fuel this = Some tr →
  validElem s c →
  ∃ s', VirtualElement.set_lastChild fuel this c s = Ok tt s' ∧
        fieldOf children s' this
          = Some (match children e with
                  | [] => []
                  | _ => take (length (children e) - 1) (children e) ++ [c]
                  end) ∧
        (children e = [] → VirtualElement.get_firstChild this s' = Ok None s') ∧
        fieldOf parent s' c = fieldOf parent s c ∧
        domHeap s' = domHeap s.
Proof.
  intros Hwf He Hsh Hvalid.
  destruct (cloned_exists fuel s this tr Hwf Hsh) as [s1 Hcl].
  pose proof Hcl as (_ & Hext & _ & Hlen & _).
  assert (heap s1 !! this = Some e) as He1 by by eapply extends_lookup.
  eexists. split; [by apply (set_lastChild_run fuel s s1 this e Hwf He Hcl)|].
  split_and!.
  - autorewrite with store. rewrite fieldOf_modElem_eq.
    unfold fieldOf. rewrite He1. simpl. by rewrite arraySet_last.
  - intros Hnone. unfold VirtualElement.get_firstChild. munfold. simpl.
    rewrite list_lookup_alter_eq, He1. simpl. by rewrite Hnone.
  - autorewrite with store. rewrite fieldOf_modElem_keep by done.
    by apply fieldOf_extends.
  - autorewrite with store. by destruct Hext as (_ & _ & -> & _).
Qed.

(** ** Toggling through one class list *)

(** [classList.add] as a step: what a later call on the node finds. *)
Lemma classList_add_step (trimStart : string → string)
    fuel s this e o tr names classes :
  wfState s → heap s !! this = Some e → attrHeap s !! attributes e = Some o →
  shape s fuel this = Some tr →
  ∃ s' o',
    classListArray.add trimStart fuel (mkClassList names this) classes s
      = Ok tt s' ∧
    wfState s' ∧ heap s' !! this = Some e ∧
    attrHeap s' !! attributes e = Some o' ∧
    attrGet o' "class"
      = JsString (trimStart (jsToString (attrGet o "class") +:+ " " +:+ classes)) ∧
    shape s' fuel this = Some tr.
Proof.
  intros Hwf He Ho Hsh.
  set (v := jsToString (attrGet o "class") +:+ " " +:+ classes).
  destruct (setAttribute_step fuel s this e o tr "class" (JsString v) Hwf He Ho Hsh)
    as (s1 & Hrun1 & Hwf1 & He1 & Ho1 & Hsh1 & _).
  destruct (setAttribute_step fuel s1 this e _ tr "class" (JsString (trimStart v))
              Hwf1 He1 Ho1 Hsh1)
    as (s2 & Hrun2 & Hwf2 & He2 & Ho2 & Hsh2 & _).
  exists s2. eexists. split_and!; [|done|done|exact Ho2| |done].
  - unfold classListArray.add. munfold.
    cbn [parentElement]. rewrite He. simpl. rewrite Ho. simpl. fold v.
    rewrite Hrun1.
    rewrite (getAttribute_run _ _ _ _ "class" He1 Ho1) by by right.
    rewrite attrGet_attrSet_eq by by apply stores_ne. exact Hrun2.
  - by rewrite attrGet_attrSet_eq by by apply stores_ne.
Qed.

(** X26.  A class list answers [includes] from the names it was built
    with, and [toggle] decides by them: toggling a name it does not hold
    twice through the same list adds the name twice, the second call not
    seeing what the first wrote. *)
Theorem classList_toggle_twice (trimStart : string → string)
    fuel s this e o tr cl name :
  wfState s → heap s !! this = Some e → attrHeap s !! attributes e = Some o →
  shape s fuel this = Some tr → parentElement cl = this →
  classListArray.includes cl name = false →
  ∃ s1 s2,
    classListArray.toggle trimStart fuel cl name s = Ok tt s1 ∧
    classListArray.toggle trimStart fuel cl name s1 = Ok tt s2 ∧
    VirtualElement.getAttribute this "class" s1
    = Ok (JsString (trimStart (jsToString (attrGet o "class") +:+ " " +:+ name)))
         s1 ∧
    VirtualElement.getAttribute this "class" s2
    = Ok (JsString
            (trimStart
               (trimStart (jsToString (attrGet o "class") +:+ " " +:+ name)
                +:+ " " +:+ name)))
         s2.
Proof.
  intros Hwf He Ho Hsh Hcl Hnot. destruct cl as [names p]. simpl in Hcl. subst p.
  destruct (classList_add_step trimStart fuel s this e o tr names name
              Hwf He Ho Hsh) as (s1 & o1 & Hrun1 & Hwf1 & He1 & Ho1 & Hget1 & Hsh1).
  destruct (classList_add_step trimStart fuel s1 this e o1 tr names name
              Hwf1 He1 Ho1 Hsh1) as (s2 & o2 & Hrun2 & _ & He2 & Ho2 & Hget2 & _).
  exists s1, s2. unfold classListArray.toggle. rewrite Hnot.
  split_and!; [done|done| |].
  - rewrite (getAttribute_run _ _ _ _ "class" He1 Ho1) by by right.
    by rewrite Hget1.
  - rewrite (getAttribute_run _ _ _ _ "class" He2 Ho2) by by right.
    by rewrite Hget2, Hget1.
Qed.

(** ** The theorems at work on concrete stores *)

Lemma insertBefore_spec_witness :
  ∃ s', VirtualDOM.insertBefore 0%nat 2%nat 1%nat twoTopLevel = Ok tt s' ∧
        domHeap s' !! 0%nat = Some (mkDom [0; 2; 1]%nat [] []).
Proof.
  destruct (insertBefore_spec twoTopLevel 0%nat (mkDom [0; 1] [] [])%nat 2%nat
              (mkElement "n" false 2%nat [] None 0%nat "" []) 1%nat
              eq_refl eq_refl) as (s' & Hrun & Hs').
  exists s'. split; [exact Hrun|].
  simpl in Hs'. destruct Hs' as (pos & [Hpos | [Habs _]] & ->).
  - assert (pos = 1%nat) as ->.
    { eapply (firstAt_unique [0; 1]%nat 1%nat); [exact Hpos|].
      split; [done|]. intros [|j] ?; [done | lia]. }
    reflexivity.
  - exfalso. apply Habs. compute_done.
Defined.

Lemma dom_lookups_two_tier_witness :
  ∃ byTag byId byClass,
    VirtualDOM.querySelectorAll 0%nat "span" parentChildAndFresh
      = Ok byTag parentChildAndFresh ∧
    VirtualDOM.querySelector 0%nat "span" parentChildAndFresh
      = Ok (byTag !! 0%nat) parentChildAndFresh ∧
    tiered (hasTag parentChildAndFresh "span") [0%nat] [1%nat] byTag ∧
    VirtualDOM.getElementById 0%nat "x" parentChildAndFresh
      = Ok (byId !! 0%nat) parentChildAndFresh ∧
    tiered (hasAttrValue parentChildAndFresh "id" "x") [0%nat] [1%nat] byId ∧
    VirtualDOM.getElementsByClassName 0%nat "" parentChildAndFresh
      = Ok byClass parentChildAndFresh ∧
    tiered (hasAttrValue parentChildAndFresh "class" "") [0%nat] [1%nat] byClass ∧
    (∀ r, r ∈ byClass →
       ∃ e o, heap parentChildAndFresh !! r = Some e ∧
              attrHeap parentChildAndFresh !! attributes e = Some o ∧
              attrGet o "class" = JsString "") ∧
    (∀ r, byId !! 0%nat = Some r →
       ∃ e o, heap parentChildAndFresh !! r = Some e ∧
              attrHeap parentChildAndFresh !! attributes e = Some o ∧
              attrGet o "id" = JsString "x").
Proof.
  apply (dom_lookups_two_tier parentChildAndFresh 0%nat
           (mkDom [0%nat] [1%nat] []) "span" "x" "").
  - compute_done.
  - reflexivity.
Defined.

Lemma dom_structural_ops_silent_witness :
  silent (VirtualDOM.appendChild 0%nat 2%nat) twoTopLevel ∧
  silent (VirtualDOM.insertBefore 0%nat 2%nat 3%nat) twoTopLevel ∧
  silent (VirtualDOM.replaceChild 0%nat 2%nat 3%nat) twoTopLevel ∧
  silent (VirtualDOM.removeChild 0%nat 2%nat) twoTopLevel.
Proof.
  apply (dom_structural_ops_silent twoTopLevel 0%nat (domOf twoTopLevel 0%nat)
           2%nat (nodeOf twoTopLevel 2%nat) 3%nat); reflexivity.
Defined.

Lemma element_querySelectorAll_spec_witness :
  VirtualElement.querySelectorAll 2 0%nat "span" threeGenerations
    = Ok [1%nat] threeGenerations ∧
  VirtualElement.querySelectorAll 2 0%nat "*" threeGenerations
    = Ok [1%nat; 2%nat] threeGenerations.
Proof.
  destruct (element_querySelectorAll_spec threeGenerations 0%nat
              (nodeOf threeGenerations 0%nat) "span" 2)
    as [Hsel Hall]; [compute_done|reflexivity|].
  destruct Hsel as (found & Hq & _ & -> & _); [done|].
  destruct (Hall [Node 1%nat [Node 2%nat []]]) as [Hq' _]; [reflexivity|].
  split; [exact Hq | exact Hq'].
Defined.

Lemma dispatchEvent_spec_witness :
  ∃ ev', VirtualElement.dispatchEvent 0%nat
           (newVirtualEvent "click" None (Some false)) twoListeners
         = Ok (ev', [1%nat]) twoListeners.
Proof.
  destruct (dispatchEvent_spec twoListeners 0%nat (nodeOf twoListeners 0%nat)
              (newVirtualEvent "click" None (Some false))
              [mkCallback 1%nat preventDefault; mkCallback 2%nat stopPropagation])
    as (_ & _ & _ & Htwo); [reflexivity|reflexivity|done|].
  apply (Htwo (mkCallback 1%nat preventDefault) (mkCallback 2%nat stopPropagation));
    reflexivity.
Defined.

Lemma dataset_properties_live_witness :
  dataset (λ x, x) 1 0%nat buttonWithData
    = Ok [("test", Accessor 0%nat "data-test")] buttonWithData ∧
  ∃ ky, Accessor 0%nat "data-test" = Accessor 0%nat ky ∧
        attrHas [("class", JsString ""); ("data-test", JsString "test")] ky = true ∧
        String.prefix "data-" ky = true ∧
        camelCase (λ x, x) (slice5 ky) = Some "test" ∧
        datasetGet [("test", Accessor 0%nat "data-test")] "test"
          = VirtualElement.getAttribute 0%nat ky ∧
        ∀ fuel' v,
          datasetAssign fuel' [("test", Accessor 0%nat "data-test")] "test" v
          = (VirtualElement.setAttribute fuel' 0%nat ky v ;;;
             ret [("test", Accessor 0%nat "data-test")]).
Proof.
  destruct (dataset_properties_live (λ x, x) 1 0%nat (nodeOf buttonWithData 0%nat)
              [("class", JsString ""); ("data-test", JsString "test")]
              buttonWithData)
    as (Hlive & Hreturns & _); [reflexivity..|].
  assert (dataset (λ x, x) 1 0%nat buttonWithData
          = Ok [("test", Accessor 0%nat "data-test")] buttonWithData) as Hrun.
  { apply (Hreturns ["test"]); [reflexivity|]. apply NoDup_singleton. }
  split; [exact Hrun|].
  apply (Hlive _ _ Hrun). by left.
Defined.

Lemma removeChild_replaceChild_spec_witness :
  ∃ s', VirtualElement.removeChild 2 0%nat 1%nat parentChildAndFresh = Ok tt s' ∧
        fieldOf isRemoved s' 1%nat = Some true ∧
        ∀ i, firstAt [1%nat] 1%nat i → fieldOf children s' 0%nat = Some (delete i [1%nat]).
Proof.
  destruct (removeChild_replaceChild_spec 2 parentChildAndFresh 0%nat
              (domOf parentChildAndFresh 0%nat) 0%nat
              (nodeOf parentChildAndFresh 0%nat) 1%nat
              (nodeOf parentChildAndFresh 1%nat) 1%nat
              (treeAt parentChildAndFresh 2 0%nat))
    as (_ & _ & _ & _ & _ & _ & _ & Hrm);
    [compute_done|reflexivity|reflexivity|reflexivity|reflexivity|].
  apply Hrm. by left.
Defined.

Lemma mutation_protocol_witness :
  ∃ s' extra,
    mutate 2 1%nat Remove parentAndChild = Ok tt s' ∧
    snapshotOf 3 2 parentAndChild 1%nat s' 3%nat ∧
    notifications s' = notifications parentAndChild ++ extra
                       ++ callsFor [7%nat] 1%nat 3%nat ∧
    views s' = views parentAndChild ++ replicate (length extra + 1) (viewOf s').
Proof.
  assert (∀ p, Remove = Remove → 1%nat ∉ directChildren (domOf parentAndChild 0%nat) →
               parent (nodeOf parentAndChild 1%nat) = Some p →
               is_Some (shape parentAndChild 2 p)) as Hparent.
  { intros p _ _ Hp. vm_compute in Hp. injection Hp as <-.
    eexists. vm_compute. reflexivity. }
  assert (wfState parentAndChild) as Hwf by compute_done.
  pose proof (mutation_protocol 2 parentAndChild 1%nat
                (nodeOf parentAndChild 1%nat) (domOf parentAndChild 0%nat)
                (treeAt parentAndChild 2 1%nat) Remove
                Hwf eq_refl eq_refl eq_refl I Hparent) as H.
  cbv zeta in H.
  destruct H as (s' & extra & Hrun & Hsnap & Hn & Hv & _).
  exists s', extra. exact (conj Hrun (conj Hsnap (conj Hn Hv))).
Defined.


Lemma setAttribute_getAttribute_witness :
  ∃ s', VirtualElement.setAttribute 1 0%nat "id" (JsString "x") buttonWithData
        = Ok tt s' ∧
        VirtualElement.getAttribute 0%nat "id" s' = Ok (JsString "x") s' ∧
        VirtualElement.hasAttribute 0%nat "id" s' = Ok true s'.
Proof.
  destruct (setAttribute_getAttribute 1 buttonWithData 0%nat
              (nodeOf buttonWithData 0%nat) (attrsOf buttonWithData 0%nat)
              (treeAt buttonWithData 1 0%nat) "id" (JsString "x"))
    as (s' & Hrun & Hget & Hhas & _);
    [compute_done|reflexivity|reflexivity|reflexivity|].
  exists s'. exact (conj Hrun (conj (Hget eq_refl) Hhas)).
Defined.

Lemma removeAttribute_getAttribute_witness :
  ∃ s', VirtualElement.removeAttribute 1 0%nat "data-test" buttonWithData
        = Ok tt s' ∧
        VirtualElement.getAttribute 0%nat "data-test" s' = Ok JsUndefined s' ∧
        VirtualElement.hasAttribute 0%nat "data-test" s' = Ok false s'.
Proof.
  destruct (removeAttribute_getAttribute 1 buttonWithData 0%nat
              (nodeOf buttonWithData 0%nat) (attrsOf buttonWithData 0%nat)
              (treeAt buttonWithData 1 0%nat) "data-test")
    as (s' & Hrun & Hget & Hhas & _);
    [compute_done|reflexivity|reflexivity|reflexivity|].
  exists s'. exact (conj Hrun (conj (Hget eq_refl) Hhas)).
Defined.

Lemma remove_disconnects_witness :
  ∃ s', VirtualElement.remove 2 1%nat parentChildAndFresh = Ok tt s' ∧
        VirtualElement.isConnected 1%nat s' = Ok false s' ∧
        VirtualDOM.appendChild 0%nat 1%nat s' = Ok tt s'.
Proof.
  destruct (remove_disconnects 2 parentChildAndFresh 1%nat
              (nodeOf parentChildAndFresh 1%nat) (domOf parentChildAndFresh 0%nat)
              (treeAt parentChildAndFresh 2 1%nat))
    as (s' & Hrun & Hcon & Hdom); [compute_done|reflexivity|reflexivity|reflexivity| |].
  - intros p Hp _. vm_compute in Hp. injection Hp as <-.
    eexists. vm_compute. reflexivity.
  - exists s'. split; [exact Hrun|]. split; [exact Hcon|].
    apply (Hdom 0%nat 0%nat). exists (domOf parentChildAndFresh 0%nat). reflexivity.
Defined.

Lemma removeChild_absent_drops_last_witness :
  ∃ s', VirtualElement.removeChild 2 0%nat 2%nat parentChildAndFresh = Ok tt s' ∧
        fieldOf isRemoved s' 2%nat = Some true ∧
        fieldOf children s' 0%nat = Some [].
Proof.
  destruct (removeChild_absent_drops_last 2 parentChildAndFresh 0%nat
              (nodeOf parentChildAndFresh 0%nat) (domOf parentChildAndFresh 0%nat)
              (treeAt parentChildAndFresh 2 0%nat) 2%nat)
    as (s' & Hrun & Hflag & Hkids & _);
    [compute_done|reflexivity|reflexivity|reflexivity|compute_done| |].
  - intros H. vm_compute in H. by apply list_elem_of_singleton in H.
  - exists s'. exact (conj Hrun (conj Hflag Hkids)).
Defined.

Lemma prepend_places_before_witness :
  ∃ s', VirtualElement.prepend 1 1%nat 2%nat twoTopLevel = Ok tt s' ∧
        domField directChildren s' 0%nat = Some [0; 2; 1]%nat ∧
        fieldOf parent s' 2%nat = Some (Some 1%nat).
Proof.
  destruct (prepend_places_before 1 twoTopLevel 1%nat
              (nodeOf twoTopLevel 1%nat) (domOf twoTopLevel 0%nat)
              (treeAt twoTopLevel 1 1%nat) 2%nat)
    as [Htop _]; [compute_done|reflexivity|reflexivity|reflexivity|compute_done|].
  destruct (Htop 1%nat) as (s' & Hrun & Hdirect & _ & Hparent).
  { split; [reflexivity|]. intros [|j] ?; [done|lia]. }
  exists s'. exact (conj Hrun (conj Hdirect Hparent)).
Defined.

Lemma nextSibling_spec_witness :
  VirtualElement.get_nextSibling 1%nat twoTopLevel = Ok (Some 0%nat) twoTopLevel.
Proof.
  destruct (nextSibling_spec twoTopLevel 1%nat (nodeOf twoTopLevel 1%nat))
    as [_ Htop]; [reflexivity|].
  destruct (Htop (domOf twoTopLevel 0%nat)) as [Hfirst _]; [reflexivity..|].
  apply Hfirst. intros H. vm_compute in H. by apply elem_of_nil in H.
Defined.

Lemma firstChild_set_get_witness :
  ∃ s', VirtualElement.set_firstChild 2 0%nat 2%nat parentChildAndFresh = Ok tt s' ∧
        VirtualElement.get_firstChild 0%nat s' = Ok (Some 2%nat) s' ∧
        fieldOf children s' 0%nat = Some [2%nat].
Proof.
  destruct (firstChild_set_get 2 parentChildAndFresh 0%nat
              (nodeOf parentChildAndFresh 0%nat)
              (treeAt parentChildAndFresh 2 0%nat) 2%nat)
    as (s' & Hrun & Hget & Hkids & _);
    [compute_done|reflexivity|reflexivity|compute_done|].
  exists s'. exact (conj Hrun (conj Hget Hkids)).
Defined.

Lemma textContent_set_get_witness :
  ∃ s', VirtualElement.set_textContent 1 0%nat "ok" buttonWithData = Ok tt s' ∧
        VirtualElement.get_textContent 0%nat s' = Ok "ok" s'.
Proof.
  destruct (textContent_set_get 1 buttonWithData 0%nat
              (nodeOf buttonWithData 0%nat) (treeAt buttonWithData 1 0%nat) "ok")
    as (s' & Hrun & Hget & _); [compute_done|reflexivity|reflexivity|].
  exists s'. exact (conj Hrun Hget).
Defined.

Lemma element_attribute_lookups_witness :
  VirtualElement.getElementsByAttribute 2 0%nat "class" threeGenerations
    = Ok [1; 2]%nat threeGenerations ∧
  VirtualElement.getElementsByClassName 0%nat "" threeGenerations
    = Ok [1%nat] threeGenerations.
Proof.
  destruct (element_attribute_lookups threeGenerations 2 0%nat
              (nodeOf threeGenerations 0%nat) (treeAt threeGenerations 3 0%nat)
              "class" "")
    as (Hall & _ & Hclass); [compute_done|reflexivity|reflexivity|].
  split; [exact Hall | exact Hclass].
Defined.

Lemma element_getElementById_spec_witness :
  VirtualElement.getElementById 3 0%nat "x" threeGenerations
    = Ok None threeGenerations.
Proof.
  destruct (element_getElementById_spec threeGenerations 2 0%nat
              (nodeOf threeGenerations 0%nat) (treeAt threeGenerations 3 0%nat) "x")
    as (res & Hrun & _); [compute_done|reflexivity|reflexivity|].
  destruct res as [r|]; [|exact Hrun].
  exfalso. vm_compute in Hrun. discriminate Hrun.
Defined.

Lemma removeEventListener_spec_witness :
  VirtualElement.removeEventListener 0%nat "keydown"
    (mkCallback 1%nat preventDefault) twoListeners
  = Throw TypeError twoListeners.
Proof.
  destruct (removeEventListener_spec twoListeners 0%nat (nodeOf twoListeners 0%nat)
              "keydown" (mkCallback 1%nat preventDefault))
    as [Hnone _]; [reflexivity|].
  apply Hnone. reflexivity.
Defined.

Lemma addEventListener_removeEventListener_witness :
  ∃ s1 s2 e2,
    VirtualElement.addEventListener 0%nat "click"
      (mkCallback 1%nat preventDefault) twoListeners = Ok tt s1 ∧
    VirtualElement.removeEventListener 0%nat "click"
      (mkCallback 1%nat preventDefault) s1 = Ok tt s2 ∧
    heap s2 !! 0%nat = Some e2 ∧
    listenersGet (eventListeners e2) "click"
      = Some [mkCallback 2%nat stopPropagation].
Proof.
  destruct (addEventListener_removeEventListener twoListeners 0%nat
              (nodeOf twoListeners 0%nat) "click" (mkCallback 1%nat preventDefault))
    as [Hlisted _]; [reflexivity|].
  destruct Hlisted as (s1 & s2 & e2 & Hadd & Hrm & He2 & Hget & _);
    [right; reflexivity|].
  exists s1, s2, e2. exact (conj Hadd (conj Hrm (conj He2 Hget))).
Defined.

Lemma click_spec_witness :
  ∃ event', VirtualElement.click 0%nat twoListeners
            = Ok (event', [1; 2]%nat) twoListeners.
Proof.
  destruct (click_spec twoListeners 0%nat (nodeOf twoListeners 0%nat))
    as (_ & _ & Hsome); [reflexivity|].
  destruct (Hsome [mkCallback 1%nat preventDefault; mkCallback 2%nat stopPropagation])
    as (event' & ran & Hrun & Heq & _); [reflexivity|].
  exists event'. rewrite Hrun. vm_compute in Heq. by injection Heq as _ ->.
Defined.

Lemma makeTree_spec_witness :
  makeTree 3 0%nat threeGenerations
    = Ok [Single 0%nat; Group [2%nat]; Group [1%nat]] threeGenerations.
Proof.
  destruct (makeTree_spec threeGenerations 3 0%nat (domOf threeGenerations 0%nat)
              [treeAt threeGenerations 3 0%nat]) as (Hrun & _);
    [reflexivity| |exact Hrun].
  constructor; [reflexivity|constructor].
Defined.

Lemma cloneNode_detached_witness :
  ∃ s', VirtualElement.cloneNode 3 0%nat true threeGenerations = Ok 5%nat s' ∧
        ∀ q qe, heap s' !! q = Some qe → 5%nat ∉ children qe.
Proof.
  destruct (cloneNode_detached 3 threeGenerations 0%nat
              (nodeOf threeGenerations 0%nat) (treeAt threeGenerations 3 0%nat))
    as [(s' & ce & Hrun & _ & _ & _ & _ & _ & _ & _ & _ & _ & Hfree & _) _];
    [compute_done|reflexivity|reflexivity|].
  exists s'. exact (conj Hrun Hfree).
Defined.

Lemma classList_snapshot_witness :
  ∃ cl, get_classList 0%nat buttonWithData = Ok cl buttonWithData ∧
        classListArray.toString cl = "" ∧
        classListArray.entries cl = [""].
Proof.
  destruct (classList_snapshot buttonWithData 0%nat (nodeOf buttonWithData 0%nat)
              [("class", JsString ""); ("data-test", JsString "test")])
    as (cl & Hrun & _ & Hstr & _); [reflexivity..|].
  destruct (Hstr "") as (Hto & _ & _ & Hent); [reflexivity|].
  exists cl. split_and!; [exact Hrun|exact Hto|apply Hent; reflexivity].
Defined.

Lemma classList_add_remove_witness :
  ∃ s', classListArray.add (λ x, x) 1 (mkClassList [""] 0%nat) "a" buttonWithData
        = Ok tt s' ∧
        VirtualElement.getAttribute 0%nat "class" s' = Ok (JsString " a") s'.
Proof.
  destruct (classList_add_remove (λ x, x) 1 buttonWithData 0%nat
              (nodeOf buttonWithData 0%nat)
              [("class", JsString ""); ("data-test", JsString "test")]
              (treeAt buttonWithData 1 0%nat) (mkClassList [""] 0%nat) "a")
    as (Hadd & _); [compute_done|reflexivity..|].
  exact Hadd.
Defined.

Lemma createElement_fresh_witness :
  ∃ s', VirtualDOM.createElement 0%nat "p" twoTopLevel = Ok 4%nat s' ∧
        VirtualElement.isConnected 4%nat s' = Ok true s' ∧
        VirtualElement.getAttribute 4%nat "class" s' = Ok (JsString "") s'.
Proof.
  destruct (createElement_fresh twoTopLevel 0%nat "p")
    as (s' & e & Hrun & _ & _ & _ & _ & _ & _ & _ & _ & Hcon & _ & Hget & _);
    [compute_done|exists (domOf twoTopLevel 0%nat); reflexivity|].
  exists s'. exact (conj Hrun (conj Hcon Hget)).
Defined.

Lemma dom_appendChild_lookup_witness :
  ∃ s', VirtualDOM.appendChild 0%nat 2%nat twoTopLevel = Ok tt s' ∧
        VirtualDOM.querySelectorAll 0%nat "n" s' = Ok [2%nat] s'.
Proof.
  destruct (dom_appendChild_lookup twoTopLevel 0%nat (domOf twoTopLevel 0%nat)
              2%nat (nodeOf twoTopLevel 2%nat))
    as (s' & Hrun & _ & _ & _ & Hall & _);
    [compute_done|reflexivity|reflexivity|reflexivity|].
  exists s'. exact (conj Hrun Hall).
Defined.

Lemma dom_appendChild_removeChild_witness :
  ∃ s1 s2, VirtualDOM.appendChild 0%nat 2%nat twoTopLevel = Ok tt s1 ∧
           VirtualDOM.removeChild 0%nat 2%nat s1 = Ok tt s2 ∧
           domField directChildren s2 0%nat = Some [0; 1]%nat ∧
           VirtualDOM.appendChild 0%nat 2%nat s2 = Ok tt s2.
Proof.
  destruct (dom_appendChild_removeChild twoTopLevel 0%nat (domOf twoTopLevel 0%nat)
              2%nat (nodeOf twoTopLevel 2%nat))
    as (s1 & s2 & Hadd & Hrm & Hdirect & _ & _ & Hagain);
    [reflexivity|reflexivity|reflexivity| |].
  - intros H. vm_compute in H.
    apply elem_of_cons in H as [H|H]; [done|].
    by apply list_elem_of_singleton in H.
  - exists s1, s2. exact (conj Hadd (conj Hrm (conj Hdirect Hagain))).
Defined.

Lemma set_id_getElementById_witness :
  ∃ s' r, VirtualElement.set_id 1 0%nat (JsString "x") twoTopLevel = Ok tt s' ∧
          VirtualDOM.getElementById 0%nat "x" s' = Ok (Some r) s' ∧
          r ∈ [0; 1]%nat.
Proof.
  destruct (set_id_getElementById 1 twoTopLevel 0%nat (nodeOf twoTopLevel 0%nat)
              (domOf twoTopLevel 0%nat) (treeAt twoTopLevel 1 0%nat) "x")
    as [(s' & r & Hrun & _ & Hfind & Hin & _) _];
    [compute_done|reflexivity|reflexivity|reflexivity|apply list_elem_of_here|].
  exists s', r. exact (conj Hrun (conj Hfind Hin)).
Defined.

Lemma appendChild_removeChild_witness :
  ∃ s1 s2,
    VirtualElement.appendChild 2 0%nat 2%nat parentChildAndFresh = Ok tt s1 ∧
    VirtualElement.removeChild 2 0%nat 2%nat s1 = Ok tt s2 ∧
    fieldOf children s2 0%nat = Some [1%nat] ∧
    fieldOf isRemoved s2 2%nat = Some true.
Proof.
  destruct (appendChild_removeChild 1 parentChildAndFresh 0%nat
              (nodeOf parentChildAndFresh 0%nat) (domOf parentChildAndFresh 0%nat)
              (treeAt parentChildAndFresh 2 0%nat) 2%nat
              (treeAt parentChildAndFresh 1 2%nat))
    as (s1 & s2 & Hadd & Hrm & Hkids & _ & _ & Hflag & _);
    [compute_done|reflexivity|reflexivity|reflexivity|reflexivity| | | |].
  - intros H. vm_compute in H. by apply list_elem_of_singleton in H.
  - intros H. vm_compute in H. by apply list_elem_of_singleton in H.
  - intros H. vm_compute in H. by apply list_elem_of_singleton in H.
  - exists s1, s2. exact (conj Hadd (conj Hrm (conj Hkids Hflag))).
Defined.

Lemma onTreeChange_then_setAttribute_witness :
  ∃ s0 s', VirtualDOM.onTreeChange 0%nat 8%nat parentAndChild = Ok tt s0 ∧
           VirtualElement.setAttribute 2 0%nat "id" (JsString "x") s0 = Ok tt s' ∧
           notifications s'
           = notifications parentAndChild
             ++ [mkNotification 7%nat 0%nat 3%nat; mkNotification 8%nat 0%nat 3%nat].
Proof.
  destruct (onTreeChange_then_setAttribute 2 parentAndChild 0%nat
              (nodeOf parentAndChild 0%nat) (domOf parentAndChild 0%nat)
              (treeAt parentAndChild 2 0%nat) 8%nat "id" (JsString "x"))
    as (s0 & s' & Hreg & _ & Hset & Hnote);
    [compute_done|reflexivity|reflexivity|reflexivity|].
  exists s0, s'. exact (conj Hreg (conj Hset Hnote)).
Defined.

Lemma replaceChild_keeps_oldChild_witness :
  ∃ s', VirtualElement.replaceChild 2 0%nat 2%nat 1%nat parentChildAndFresh
        = Ok tt s' ∧
        VirtualElement.isConnected 1%nat s' = Ok true s' ∧
        fieldOf parent s' 2%nat = Some (Some 0%nat).
Proof.
  destruct (replaceChild_keeps_oldChild 2 parentChildAndFresh 0%nat
              (nodeOf parentChildAndFresh 0%nat) (domOf parentChildAndFresh 0%nat)
              (treeAt parentChildAndFresh 2 0%nat) 2%nat 1%nat
              (nodeOf parentChildAndFresh 1%nat))
    as (s' & Hrun & _ & Hcon & Hparent & _);
    [compute_done|reflexivity|reflexivity|reflexivity|compute_done|reflexivity
    |apply list_elem_of_here|discriminate|discriminate|].
  exists s'. exact (conj Hrun (conj Hcon Hparent)).
Defined.

Lemma lastChild_set_witness :
  ∃ s', VirtualElement.set_lastChild 1 2%nat 1%nat parentChildAndFresh = Ok tt s' ∧
        fieldOf children s' 2%nat = Some [] ∧
        VirtualElement.get_firstChild 2%nat s' = Ok None s'.
Proof.
  destruct (lastChild_set 1 parentChildAndFresh 2%nat
              (nodeOf parentChildAndFresh 2%nat)
              (treeAt parentChildAndFresh 1 2%nat) 1%nat)
    as (s' & Hrun & Hkids & Hfirst & _);
    [compute_done|reflexivity|reflexivity|compute_done|].
  exists s'. split_and!; [exact Hrun|exact Hkids|apply Hfirst; reflexivity].
Defined.

Lemma classList_toggle_twice_witness :
  ∃ s1 s2,
    classListArray.toggle (λ x, x) 1 (mkClassList [""] 0%nat) "a" buttonWithData
      = Ok tt s1 ∧
    classListArray.toggle (λ x, x) 1 (mkClassList [""] 0%nat) "a" s1 = Ok tt s2 ∧
    VirtualElement.getAttribute 0%nat "class" s2 = Ok (JsString " a a") s2.
Proof.
  destruct (classList_toggle_twice (λ x, x) 1 buttonWithData 0%nat
              (nodeOf buttonWithData 0%nat)
              [("class", JsString ""); ("data-test", JsString "test")]
              (treeAt buttonWithData 1 0%nat) (mkClassList [""] 0%nat) "a")
    as (s1 & s2 & H1 & H2 & _ & Hget);
    [compute_done|reflexivity|reflexivity|reflexivity|reflexivity|reflexivity|].
  exists s1, s2. exact (conj H1 (conj H2 Hget)).
Defined.
